(** * Raw HTML tool: script rehydration (src/index.js)

    A shallow embedding of [RawTool] and of the DOM operations it calls.
    The DOM heap is a forest of identified nodes: every live node is
    reachable from one root of the forest, a reference to a node is its
    identity, and a node that is taken out of its parent stays in the heap as
    a root of its own (the [scripts] array of [_executeScripts] still points
    to it). *)

From stdpp Require Import base strings list gmap pretty.
From Stdlib Require Import ZArith Lia.

Set Warnings "-register-all".

(* ------------------------------------------------------------------------- *)
(** ** JavaScript values, as far as the constructor looks at them *)

Module JS.

Inductive Value : Type :=
  | Undefined
  | Null
  | Bool (b : bool)
  | Number (z : Z)
  | NaN
  | String (s : string)
  | Object (ref : positive).

(** ToBoolean. *)
Definition truthy (v : Value) : bool :=
  match v with
  | Undefined | Null | NaN => false
  | Bool b => b
  | Number z => negb (z =? 0)%Z
  | String s => bool_decide (s ≠ "")
  | Object _ => true
  end.

(** [a || b]. *)
Definition or (a b : Value) : Value := if truthy a then a else b.

(** Reading a property of an object literal: a missing key reads as
    [undefined]. *)
Definition get (o : gmap string Value) (key : string) : Value :=
  default Undefined (o !! key).

Definition isString (v : Value) : bool :=
  match v with String _ => true | _ => false end.

(** ToString, as an assignment to a DOM string property applies it. *)
Definition toString (v : Value) : string :=
  match v with
  | Undefined => "undefined"
  | Null => "null"
  | Bool true => "true"
  | Bool false => "false"
  | Number z => pretty z
  | NaN => "NaN"
  | String s => s
  | Object _ => "[object Object]"
  end.

(** [textContent] and [innerHTML] take [null] as the empty string. *)
Definition toMarkup (v : Value) : string :=
  match v with Null => "" | _ => toString v end.

End JS.

(* ------------------------------------------------------------------------- *)
(** ** DOM nodes *)

Module Dom.

Definition NodeId := nat.

Inductive Node : Type :=
  | Text (nodeId : NodeId) (data : string)
  | Element (nodeId : NodeId) (localName : string)
            (attributes : gmap string string) (childNodes : list Node).

Definition nodeId (n : Node) : NodeId :=
  match n with Text i _ => i | Element i _ _ _ => i end.

Definition attributes (n : Node) : gmap string string :=
  match n with Text _ _ => ∅ | Element _ _ a _ => a end.

Definition childNodes (n : Node) : list Node :=
  match n with Text _ _ => [] | Element _ _ _ cs => cs end.

Definition isScript (n : Node) : bool :=
  match n with
  | Text _ _ => false
  | Element _ name _ _ => bool_decide (name = "script")
  end.

Definition isText (n : Node) : bool :=
  match n with Text _ _ => true | Element _ _ _ _ => false end.

(** Identities of a node and its descendants, in document order. *)
Fixpoint ids (n : Node) : list NodeId :=
  match n with
  | Text i _ => [i]
  | Element i _ _ cs => i :: (cs ≫= ids)
  end.

(** The heap is a forest. *)
Abbreviation Forest := (list Node).

Definition forestIds (f : Forest) : list NodeId := f ≫= ids.

(** Script elements of a subtree, the root included, in document order. *)
Fixpoint scriptsOf (n : Node) : list NodeId :=
  match n with
  | Text _ _ => []
  | Element i _ _ cs =>
      (if isScript n then [i] else []) ++ (cs ≫= scriptsOf)
  end.

(** [node.textContent] (getter): the data of the text descendants, in
    document order. *)
Fixpoint textContent (n : Node) : string :=
  match n with
  | Text _ d => d
  | Element _ _ _ cs => foldr (λ c acc, textContent c +:+ acc) "" cs
  end.

Definition firstSome {A B} (f : A → option B) : list A → option B :=
  fix go l :=
    match l with
    | [] => None
    | x :: l' => match f x with Some y => Some y | None => go l' end
    end.

(** Dereferencing an identity. *)
Fixpoint findIn (i : NodeId) (n : Node) : option Node :=
  match n with
  | Text j _ => if decide (i = j) then Some n else None
  | Element j _ _ cs =>
      if decide (i = j) then Some n else firstSome (findIn i) cs
  end.

Definition findNode (i : NodeId) (f : Forest) : option Node :=
  firstSome (findIn i) f.

(** [node.parentNode]; the roots of the forest have none. *)
Fixpoint parentIn (i : NodeId) (n : Node) : option NodeId :=
  match n with
  | Text _ _ => None
  | Element p _ _ cs =>
      if decide (i ∈ nodeId <$> cs) then Some p
      else firstSome (parentIn i) cs
  end.

Definition parentNode (i : NodeId) (f : Forest) : option NodeId :=
  firstSome (parentIn i) f.

Definition childIds (p : NodeId) (f : Forest) : list NodeId :=
  match findNode p f with
  | Some n => nodeId <$> childNodes n
  | None => []
  end.

Fixpoint prevOf (i : NodeId) (l : list NodeId) : option NodeId :=
  match l with
  | a :: (b :: _) as t => if decide (b = i) then Some a else prevOf i t
  | _ => None
  end.

Fixpoint nextOf (i : NodeId) (l : list NodeId) : option NodeId :=
  match l with
  | a :: t => if decide (a = i) then head t else nextOf i t
  | [] => None
  end.

(** [node.previousSibling] and [node.nextSibling]. *)
Definition previousSibling (i : NodeId) (f : Forest) : option NodeId :=
  p ← parentNode i f; prevOf i (childIds p f).

Definition nextSibling (i : NodeId) (f : Forest) : option NodeId :=
  p ← parentNode i f; nextOf i (childIds p f).

(** [container.querySelectorAll('script')]: the script elements among the
    descendants of the container (not the container itself), in document
    order. *)
Definition querySelectorAll_script (container : NodeId) (f : Forest)
  : list NodeId :=
  match findNode container f with
  | Some n => childNodes n ≫= scriptsOf
  | None => []
  end.

(** An identity no live node has. *)
Definition freshId (f : Forest) : NodeId := S (max_list (forestIds f)).

(** [document.createElement(name)]: a new element, not yet in any tree. *)
Definition createElement (f : Forest) (name : string) : Node :=
  Element (freshId f) name ∅ [].

(** [element.setAttribute(name, value)]. An HTML document puts the name in
    lower case first; the attribute names of an element of HTML are in
    lower case as they are. *)
Definition setAttribute (name value : string) (n : Node) : Node :=
  match n with
  | Text _ _ => n
  | Element i ln a cs => Element i ln (<[name := value]> a) cs
  end.

(** [element.textContent = s] (setter): the children are replaced by one
    text node, or by nothing when [s] is empty. The new text node takes the
    identity after the element's own, which is free as long as the element
    is the newest node. *)
Definition setTextContent (s : string) (n : Node) : Node :=
  match n with
  | Text i _ => Text i s
  | Element i ln a _ =>
      Element i ln a (if decide (s = "") then [] else [Text (S i) s])
  end.

(** [parent.replaceChild(newChild, oldChild)] inside one tree. *)
Fixpoint replaceIn (parent : NodeId) (newChild : Node) (oldChild : NodeId)
    (n : Node) : Node :=
  match n with
  | Text _ _ => n
  | Element i ln a cs =>
      if decide (i = parent)
      then Element i ln a
             ((λ c, if decide (nodeId c = oldChild) then newChild else c)
                <$> cs)
      else Element i ln a (replaceIn parent newChild oldChild <$> cs)
  end.

(** On the heap: the new child takes the place of the old one, and the old
    one, with its subtree, becomes a root. *)
Definition replaceChild (parent : NodeId) (newChild : Node)
    (oldChild : NodeId) (f : Forest) : Forest :=
  (replaceIn parent newChild oldChild <$> f)
    ++ option_list (findNode oldChild f).

(** [parent.appendChild(child)]. *)
Fixpoint appendIn (parent : NodeId) (child : Node) (n : Node) : Node :=
  match n with
  | Text _ _ => n
  | Element i ln a cs =>
      if decide (i = parent) then Element i ln a (cs ++ [child])
      else Element i ln a (appendIn parent child <$> cs)
  end.

Definition appendChild (parent : NodeId) (child : Node) (f : Forest)
  : Forest := appendIn parent child <$> f.

End Dom.

(* ------------------------------------------------------------------------- *)
(** ** [_executeScripts] *)

Module Rehydrate.
Import Dom.

(** What a pass does that can be seen from outside: the swaps it performs,
    and the moments it moves on from a script. *)
Inductive Event : Type :=
  | Swapped (index : nat) (oldScript : NodeId) (newScript : Node)
  | Completed (index : nat).

(** The page: the DOM heap, the observations of the pass so far, and the
    script elements the browser has run, in the order it ran them. *)
Record World : Type := mkWorld {
  dom : Forest;
  trace : list Event;
  executed : list Node
}.

(** Where a pass stands when control returns to the event loop.
    [Waiting scripts index newScript]: the handlers
    [() => runNext(index + 1)] are registered on [newScript] and close over
    [scripts] and [index]. [Threw]: [oldScript.parentNode] was [null] and
    [replaceChild] on it raised a TypeError. [Stalled]: neither a handler
    was registered nor [runNext(index + 1)] called, because the script gave
    itself a [src] while it ran. *)
Inductive Status : Type :=
  | Done
  | Waiting (scripts : list NodeId) (index : nat) (newScript : Node)
  | Threw
  | Stalled.

Inductive Signal : Type := Load | Error.

Section Pass.

(** The [src] property reflects the content attribute as a URL; how the
    document resolves a value is the browser's business. *)
Variable reflectURL : string → string.

(** What running a script does to the DOM heap. *)
Variable run : Node → Forest → Forest.

(** [script.src]: the empty string when there is no such attribute. *)
Definition src (n : Node) : string :=
  match attributes n !! "src" with
  | Some v => reflectURL v
  | None => ""
  end.

(** Truthiness of a string. *)
Definition truthy (s : string) : bool := bool_decide (s ≠ "").

(** Lines 189-195: the replacement element, still only referenced by the
    local [newScript]. *)
Definition buildReplacement (f : Forest) (oldScript : Node) : Node :=
  let newScript := createElement f "script" in
  let newScript :=
    foldl (λ n attr, setAttribute attr.1 attr.2 n) newScript
      (map_to_list (attributes oldScript)) in
  setTextContent (textContent oldScript) newScript.

(** The browser runs a script element. *)
Definition executeScript (s : Node) (w : World) : World :=
  {| dom := run s (dom w); trace := trace w; executed := executed w ++ [s] |}.

(** What the browser does, synchronously, when a script element is put
    into the tree: a script without a [src] attribute runs on the spot; one
    with the attribute is fetched and runs, if at all, when it has loaded. *)
Definition inserted (s : Node) (w : World) : World :=
  match attributes s !! "src" with
  | Some _ => w
  | None => executeScript s w
  end.

Definition observe (e : Event) (w : World) : World :=
  {| dom := dom w; trace := trace w ++ [e]; executed := executed w |}.

(** [newScript.src] read again after the swap: the element as it is now. *)
Definition srcNow (newScript : Node) (f : Forest) : string :=
  src (default newScript (findNode (nodeId newScript) f)).

(** [runNext(index)], by recursion on the scripts from [index] on
    ([runNext_unfold] below gives it by cases on [scripts[index]], as the
    source has it). A reference in [scripts] always leads to a node; the
    case that it does not is there for script effects that drop nodes from
    the heap, and stops the pass. *)
Fixpoint runRest (scripts rest : list NodeId) (index : nat) (w : World)
  : Status * World :=
  match rest with
  | [] => (Done, w)
  | oldScript :: rest' =>
      match findNode oldScript (dom w) with
      | None => (Threw, w)
      | Some oldNode =>
          let newScript := buildReplacement (dom w) oldNode in
          match parentNode oldScript (dom w) with
          | None => (Threw, w)
          | Some parent =>
              let w1 :=
                observe (Swapped index oldScript newScript)
                  {| dom := replaceChild parent newScript oldScript (dom w);
                     trace := trace w; executed := executed w |} in
              if truthy (src newScript)
              then (Waiting scripts index newScript, w1)
              else
                let w2 := inserted newScript w1 in
                if truthy (srcNow newScript (dom w2)) then (Stalled, w2)
                else runRest scripts rest' (S index)
                       (observe (Completed index) w2)
          end
      end
  end.

Definition runNext (scripts : list NodeId) (index : nat) (w : World)
  : Status * World :=
  runRest scripts (drop index scripts) index w.

Definition executeScripts (container : NodeId) (w : World)
  : Status * World :=
  let scripts := querySelectorAll_script container (dom w) in
  runNext scripts 0 w.

(** The [load] or [error] event of the script a pass waits for: the
    browser has run the script if it loaded, then calls the handler. *)
Definition fire (sig : Signal) (st : Status * World) : Status * World :=
  match st.1 with
  | Waiting scripts index newScript =>
      let w1 :=
        match sig with
        | Load => executeScript newScript st.2
        | Error => st.2
        end in
      runNext scripts (S index) (observe (Completed index) w1)
  | _ => st
  end.

Definition deliver (sigs : list Signal) (st : Status * World)
  : Status * World :=
  foldl (λ st sig, fire sig st) st sigs.

End Pass.

End Rehydrate.

(* ------------------------------------------------------------------------- *)
(** ** The tool: constructor, [render], [onInput] and the timers *)

Module RawTool.
Import Dom Rehydrate.

(** [api.styles], the two class names the tool reads. *)
Record Styles : Type := { block : string; input : string }.

Record Css : Type := {
  baseClass : string;
  inputClass : string;
  wrapperClass : string;
  textareaClass : string
}.

Record Tool : Type := mkTool {
  styles : Styles;
  readOnly : JS.Value;
  placeholder : JS.Value;
  CSS : Css;
  html : JS.Value;                      (* this.data.html *)
  textarea : option NodeId;
  resizeDebounce : option nat
}.

Definition DEFAULT_PLACEHOLDER : string := "Enter HTML code".

(** [constructor({ data, config, api, readOnly })]. *)
Definition constructor (data config : gmap string JS.Value) (api : Styles)
    (readOnly : JS.Value) : Tool :=
  {| styles := api;
     readOnly := readOnly;
     placeholder :=
       JS.or (JS.get config "placeholder") (JS.String DEFAULT_PLACEHOLDER);
     CSS := {| baseClass := block api;
               inputClass := input api;
               wrapperClass := "ce-rawtool";
               textareaClass := "ce-rawtool__textarea" |};
     html := JS.or (JS.get data "html") (JS.String "");
     textarea := None;
     resizeDebounce := None |}.

(** What a timer runs when it fires. *)
Inductive Task : Type :=
  | ExecuteScripts (container : NodeId)
  | Resize.

Record Timer : Type := { timerId : nat; delay : nat; task : Task }.

(** The page around the tool: the DOM and the browser's log, the pending
    timers, and the elements with an [input] listener that calls
    [onInput]. *)
Record Page : Type := mkPage {
  world : World;
  timers : list Timer;
  nextTimer : nat;
  inputListeners : list NodeId
}.

(** [setTimeout(task, delay)]: the timer's id and the page with it. *)
Definition setTimeout (t : Task) (ms : nat) (p : Page) : nat * Page :=
  (nextTimer p,
   {| world := world p;
      timers := timers p ++ [{| timerId := nextTimer p; delay := ms; task := t |}];
      nextTimer := S (nextTimer p);
      inputListeners := inputListeners p |}).

(** [clearTimeout(id)]. *)
Definition clearTimeout (id : nat) (p : Page) : Page :=
  {| world := world p;
     timers := filter (λ t, timerId t ≠ id) (timers p);
     nextTimer := nextTimer p;
     inputListeners := inputListeners p |}.

(** [classList.add(a, b)] on a new element. *)
Definition classes (a b : string) : gmap string string :=
  {[ "class" := a +:+ " " +:+ b ]}.

Section Render.

Variable reflectURL : string → string.
Variable run : Node → Forest → Forest.

(** The HTML fragment parser behind [innerHTML]: the nodes it builds for a
    markup, given the first identity it may use. *)
Variable parseHTML : NodeId → string → list Node.

(** [render()]. The wrapper it returns is a new root of the heap; the
    second component is the tool with [this.textarea] set. *)
Definition render (t : Tool) (p : Page) : NodeId * Tool * Page :=
  let f := dom (world p) in
  let renderingTime := 100 in
  let wrapperId := freshId f in
  let textareaId := S wrapperId in
  let cId := S (S textareaId) in
  let ro := JS.truthy (readOnly t) in
  let area0 :=
    Element textareaId "textarea"
      (classes (textareaClass (CSS t)) (inputClass (CSS t))) [] in
  let area1 := setTextContent (JS.toMarkup (html t)) area0 in
  let area2 := setAttribute "placeholder" (JS.toString (placeholder t)) area1 in
  let area :=
    if ro then setAttribute "hidden" "" (setAttribute "disabled" "" area2)
    else area2 in
  let c := Element cId "div" ∅ (parseHTML (S cId) (JS.toMarkup (html t))) in
  let wrapper :=
    Element wrapperId "div"
      (classes (baseClass (CSS t)) (wrapperClass (CSS t)))
      (area :: if ro then [c] else []) in
  let p1 :=
    {| world := {| dom := f ++ [wrapper]; trace := trace (world p);
                   executed := executed (world p) |};
       timers := timers p;
       nextTimer := nextTimer p;
       inputListeners :=
         inputListeners p ++ (if ro then [] else [textareaId]) |} in
  let p2 := if ro then (setTimeout (ExecuteScripts cId) renderingTime p1).2
            else p1 in
  let p3 := (setTimeout Resize renderingTime p2).2 in
  (wrapperId,
   {| styles := styles t; readOnly := readOnly t;
      placeholder := placeholder t; CSS := CSS t; html := html t;
      textarea := Some textareaId; resizeDebounce := resizeDebounce t |},
   p3).

(** [onInput()]. [this.resizeDebounce] is tested for truthiness: [null]
    and a timer id of 0 are falsy. *)
Definition onInput (t : Tool) (p : Page) : Tool * Page :=
  let p1 :=
    match resizeDebounce t with
    | Some (S _ as id) => clearTimeout id p
    | Some 0 | None => p
    end in
  let '(id, p2) := setTimeout Resize 200 p1 in
  ({| styles := styles t; readOnly := readOnly t;
      placeholder := placeholder t; CSS := CSS t; html := html t;
      textarea := textarea t; resizeDebounce := Some id |},
   p2).

(** A timer fires. [resize()] only writes [style.height], which the model
    of the DOM does not hold. *)
Definition runTask (k : Task) (p : Page) : Status * Page :=
  match k with
  | ExecuteScripts container =>
      let st := executeScripts reflectURL run container (world p) in
      (st.1, {| world := st.2; timers := timers p; nextTimer := nextTimer p;
                inputListeners := inputListeners p |})
  | Resize => (Done, p)
  end.

End Render.

End RawTool.

(* ------------------------------------------------------------------------- *)
(** ** Vocabulary of the statements *)

Module Shape.
Import Dom.

(** A place in a tree: the ancestors of the place, outermost first, each
    with the siblings to the left and to the right of the way down. *)
Inductive Path : Type :=
  | Here
  | Down (i : NodeId) (ln : string) (a : gmap string string)
         (l : list Node) (p : Path) (r : list Node).

Fixpoint plug (p : Path) (x : Node) : Node :=
  match p with
  | Here => x
  | Down i ln a l p' r => Element i ln a (l ++ plug p' x :: r)
  end.

(** Identities met before and after the place, in document order. *)
Fixpoint before (p : Path) : list NodeId :=
  match p with
  | Here => []
  | Down i _ _ l p' _ => i :: forestIds l ++ before p'
  end.

Fixpoint after (p : Path) : list NodeId :=
  match p with
  | Here => []
  | Down _ _ _ _ p' r => after p' ++ forestIds r
  end.

(** Script elements met before and after the place. *)
Fixpoint scriptsBefore (p : Path) : list NodeId :=
  match p with
  | Here => []
  | Down i ln _ l p' _ =>
      (if bool_decide (ln = "script") then [i] else [])
        ++ (l ≫= scriptsOf) ++ scriptsBefore p'
  end.

Fixpoint scriptsAfter (p : Path) : list NodeId :=
  match p with
  | Here => []
  | Down _ _ _ _ p' r => scriptsAfter p' ++ (r ≫= scriptsOf)
  end.

(** The path to the children of an element. *)
Definition childOf (i : NodeId) (ln : string) (a : gmap string string)
    (l r : list Node) : Path := Down i ln a l Here r.

Fixpoint extend (p q : Path) : Path :=
  match p with
  | Here => q
  | Down i ln a l p' r => Down i ln a l (extend p' q) r
  end.

(** Script elements as the HTML parser builds them: their children are
    text. *)
Fixpoint plainScripts (n : Node) : bool :=
  match n with
  | Text _ _ => true
  | Element _ _ _ cs =>
      (if isScript n then forallb isText cs else true)
        && forallb plainScripts cs
  end.

(** Where dereferencing [j] ends up, relative to a place that holds [X]:
    at an ancestor of the place, inside [X], or clear of both. [look X']
    dereferences [j] when the place holds [X'] instead. *)
Definition located (X : Node) (j : NodeId) (m : Node)
    (look : Node → option Node) : Prop :=
  (∃ q, q ≠ Here ∧ m = plug q X ∧ (j ∉ ids X)
        ∧ (∀ X', look X' = Some (plug q X')))
  ∨ findIn j X = Some m
  ∨ ((j ∉ ids X) ∧ (∀ x, x ∈ ids m → x ∉ ids X)
     ∧ (∀ X', j ∉ ids X' → look X' = Some m)).

End Shape.

Module Spec.
Import Dom Rehydrate Shape.

(** The node has a parent. *)
Definition attached (j : NodeId) (f : Forest) : Prop :=
  is_Some (parentNode j f).

(** The heap is well formed: one node, one identity. *)
Definition wellFormed (f : Forest) : Prop := NoDup (forestIds f).

(** Scripts that leave the nodes there are in place: whatever else a script
    does, every node keeps its identity for itself, its parent if it has
    one, and its attributes. Scripts that only add nodes are of this
    kind. *)
Definition conservative (run : Node → Forest → Forest) : Prop :=
  ∀ s f, wellFormed f →
    wellFormed (run s f)
    ∧ (∀ j, attached j f → attached j (run s f))
    ∧ (∀ j m, findNode j f = Some m →
         ∃ m', findNode j (run s f) = Some m'
               ∧ attributes m' = attributes m).

(** The state of the heap a pass relies on for the scripts it has still to
    handle: the heap is well formed, and each of them has a parent and the
    attributes [attrs] says. *)
Definition ready (attrs : NodeId → gmap string string) (rest : list NodeId)
    (f : Forest) : Prop :=
  wellFormed f
  ∧ ∀ x, x ∈ rest →
      attached x f ∧ ∃ m, findNode x f = Some m ∧ attributes m = attrs x.

(** The attributes of the node an identity refers to. *)
Definition attributesOf (f : Forest) (x : NodeId) : gmap string string :=
  match findNode x f with Some m => attributes m | None => ∅ end.

(** A script that does not touch the DOM, such as [log.push(1)]. *)
Definition inert : Node → Forest → Forest := λ _ f, f.

(** The events of a pass that handles [olds] one after the other from
    index [k] on and replaces them by [news]. *)
Fixpoint schedule (k : nat) (olds : list NodeId) (news : list Node)
  : list Event :=
  match olds, news with
  | o :: olds', n :: news' =>
      Swapped k o n :: Completed k :: schedule (S k) olds' news'
  | _, _ => []
  end.

(** A trace that handles the scripts of [rest] strictly in order from index
    [k]: each swap is followed by the completion of the same index before
    the next swap; the trace may stop anywhere. *)
Inductive sequential : nat → list NodeId → list Event → Prop :=
  | sequential_stop k rest : sequential k rest []
  | sequential_open k old rest n :
      sequential k (old :: rest) [Swapped k old n]
  | sequential_step k old rest n tr :
      sequential (S k) rest tr →
      sequential k (old :: rest) (Swapped k old n :: Completed k :: tr).

(** The originals a trace has swapped out, in the order of the swaps. *)
Definition swappedOut (tr : list Event) : list NodeId :=
  tr ≫= (λ e, match e with Swapped _ o _ => [o] | Completed _ => [] end).

(** How far a pass over [scripts] has come, read off its status; [tr] is
    what the pass has added to the trace. *)
Definition progress (scripts : list NodeId) (st : Status) (tr : list Event)
  : Prop :=
  match st with
  | Done =>
      ∃ news, length news = length scripts ∧ tr = schedule 0 scripts news
  | Waiting scripts' i n =>
      scripts' = scripts
      ∧ ∃ news old, length news = i ∧ scripts !! i = Some old
          ∧ tr = schedule 0 (take i scripts) news ++ [Swapped i old n]
  | Threw =>
      ∃ news i, length news = i ∧ i < length scripts
          ∧ tr = schedule 0 (take i scripts) news
  | Stalled =>
      ∃ news i old n, length news = i ∧ scripts !! i = Some old
          ∧ tr = schedule 0 (take i scripts) news ++ [Swapped i old n]
  end.

(** A swap is faithful when the replacement was built, by lines 189-195,
    from the element it replaces. *)
Definition faithful (e : Event) : Prop :=
  match e with
  | Swapped _ old new =>
      ∃ f on, findNode old f = Some on ∧ new = buildReplacement f on
  | Completed _ => True
  end.

(** What a script element is to the browser: attributes and source text. *)
Definition descriptor (n : Node) : gmap string string * string :=
  (attributes n, textContent n).

(** The descriptors of the nodes a list of identities refers to. *)
Definition descriptorsOf (f : Forest) (l : list NodeId)
  : list (option (gmap string string * string)) :=
  (λ x, descriptor <$> findNode x f) <$> l.

(** An inline script: a script element without a [src] attribute. *)
Definition inlineNode (n : Node) : Prop := attributes n !! "src" = None.

#[global] Instance inlineNode_dec n : Decision (inlineNode n).
Proof. unfold inlineNode. apply _. Defined.

Definition inline (f : Forest) (x : NodeId) : Prop :=
  match findNode x f with Some m => inlineNode m | None => False end.

#[global] Instance inline_dec f x : Decision (inline f x).
Proof. unfold inline. destruct (findNode x f); apply _. Defined.

End Spec.

(* ------------------------------------------------------------------------- *)
(** ** Pages to try the statements on *)

Module Examples.
Import Dom Rehydrate Spec RawTool.

(** The markup
    [<p>hi</p><script>log.push(1)</script><script src="slow.js"></script>
     <script>log.push(3)</script>]
    parsed into a container [div]. *)
Definition scenario : Forest :=
  [Element 1 "div" ∅
     [Element 2 "p" ∅ [Text 3 "hi"];
      Element 4 "script" ∅ [Text 5 "log.push(1)"];
      Element 6 "script" {[ "src" := "slow.js" ]} [];
      Element 7 "script" ∅ [Text 8 "log.push(3)"]]].

(** Two inline scripts, one of them deeper in the container. *)
Definition twoInline : Forest :=
  [Element 1 "div" ∅
     [Element 2 "script" {[ "data-x" := "1"; "data-y" := "2" ]}
        [Text 3 "log.push(1)"];
      Element 4 "p" ∅ [Element 5 "script" ∅ [Text 6 "log.push(2)"]]]].

(** A container without scripts. *)
Definition noScripts : Forest :=
  [Element 1 "div" ∅ [Element 2 "p" ∅ [Text 3 "hi"]]].

(** A script with a source, attributes and inline text, and one after
    it. *)
Definition bothKinds : Forest :=
  [Element 1 "div" ∅
     [Element 2 "script" {[ "src" := "a.js"; "defer" := "" ]}
        [Text 3 "ignored"];
      Element 4 "script" ∅ [Text 5 "next()"]]].

(** A script whose [src] attribute is there but empty, with inline
    text. *)
Definition emptySrc : Forest :=
  [Element 1 "div" ∅
     [Element 2 "script" {[ "src" := "" ]} [Text 3 "inline()"];
      Element 4 "script" ∅ [Text 5 "next()"]]].

Definition fresh (f : Forest) : World :=
  {| dom := f; trace := []; executed := [] |}.

Definition isWaiting (st : Status) : bool :=
  match st with Waiting _ _ _ => true | _ => false end.

(** URLs resolved against a base. *)
Definition resolve (v : string) : string := "https://example.org/" +:+ v.

(** A property that hands the attribute back as it is, so that an empty
    [src] reads as the empty string. *)
Definition verbatim (v : string) : string := v.

(** A script that, whatever its source, appends one more script element
    to the container. *)
Definition appendScript (container : NodeId) : Node → Forest → Forest :=
  λ _ f,
    appendChild container
      (Element (freshId f) "script" ∅ [Text (S (freshId f)) "later()"]) f.

(** A script that removes the node [victim] from its parent; the node
    stays in the heap as a root. *)
Fixpoint removeIn (victim : NodeId) (n : Node) : Node :=
  match n with
  | Text _ _ => n
  | Element i ln a cs =>
      Element i ln a
        (filter (λ c, nodeId c ≠ victim) (removeIn victim <$> cs))
  end.

Definition removeScript (victim : NodeId) : Node → Forest → Forest :=
  λ _ f, (removeIn victim <$> f) ++ option_list (findNode victim f).

Definition cdx : Styles := {| block := "cdx-block"; input := "cdx-input" |}.

(** A fragment parser that knows one shape of markup: it takes any text as
    the source of one script element. *)
Definition parseAsScript (i : NodeId) (markup : string) : list Node :=
  [Element i "script" ∅ [Text (S i) markup]].

Definition emptyPage : Page :=
  {| world := fresh []; timers := []; nextTimer := 1; inputListeners := [] |}.

End Examples.

(* ------------------------------------------------------------------------- *)
(** ** [save] and [resize] *)

Module Form.
Import Dom RawTool.

(** What a call comes to: it returns, or it throws the TypeError of a
    property read off [null]. *)
Inductive Outcome (A : Type) : Type :=
  | Returns (a : A)
  | Throws.
Arguments Returns {A} a.
Arguments Throws {A}.

(** The first element named [name] of a subtree, the root included, in
    document order. *)
Fixpoint firstNamed (name : string) (n : Node) : option Node :=
  match n with
  | Text _ _ => None
  | Element _ ln _ cs =>
      if decide (ln = name) then Some n else firstSome (firstNamed name) cs
  end.

(** [root.querySelector(name)] for a type selector: the first such element
    among the descendants of the root, or [null]. *)
Definition querySelector (name : string) (root : Node) : option Node :=
  firstSome (firstNamed name) (childNodes root).

(** U+000D and U+000A, lowest bit first. *)
Definition CR : Ascii.ascii :=
  Ascii.Ascii true false true true false false false false.
Definition LF : Ascii.ascii :=
  Ascii.Ascii false true false true false false false false.

(** Newlines as a text area hands them out: CR LF and a lone CR both read
    as LF. *)
Fixpoint normalizeNewlines (s : string) : string :=
  match s with
  | EmptyString => EmptyString
  | String c s' =>
      if decide (c = CR) then
        String LF
          match s' with
          | EmptyString => EmptyString
          | String c' s'' =>
              if decide (c' = LF) then normalizeNewlines s''
              else normalizeNewlines s'
          end
      else String c (normalizeNewlines s')
  end.

(** The string has a carriage return in it. *)
Fixpoint hasCR (s : string) : bool :=
  match s with
  | EmptyString => false
  | String c s' => bool_decide (c = CR) || hasCR s'
  end.

(** The data of the text children of a node, in order. *)
Definition childTextContent (n : Node) : string :=
  foldr (λ c acc,
           match c with
           | Text _ d => d +:+ acc
           | Element _ _ _ _ => acc
           end)
    "" (childNodes n).

(** [textarea.value]. Until the user edits the text area its value is its
    child text content; from then on it is what the user typed last, which
    [values] holds. *)
Definition value (values : gmap NodeId string) (area : Node) : string :=
  normalizeNewlines
    (default (childTextContent area) (values !! nodeId area)).

(** [save(rawToolsWrapper)]. A reference always leads to a node; the case
    that [rawToolsWrapper] does not is counted with the TypeError. *)
Definition save (values : gmap NodeId string) (rawToolsWrapper : NodeId)
    (f : Forest) : Outcome (gmap string JS.Value) :=
  match findNode rawToolsWrapper f ≫= querySelector "textarea" with
  | Some area => Returns {[ "html" := JS.String (value values area) ]}
  | None => Throws
  end.

Section Layout.

(** [element.scrollHeight]: what the layout gives for the element, from the
    tree, the values of the text areas and the inline heights. *)
Variable scrollHeight :
  NodeId → Forest → gmap NodeId string → gmap NodeId string → nat.

(** [resize()]; [heights] holds [style.height] of the elements that have
    one. The heights afterwards, or the TypeError of [null.style]. *)
Definition resize (t : Tool) (f : Forest) (values heights : gmap NodeId string)
  : Outcome (gmap NodeId string) :=
  match textarea t with
  | None => Throws
  | Some area =>
      let heights1 := <[area := "auto"]> heights in
      Returns
        (<[area := pretty (scrollHeight area f values heights1) +:+ "px"]>
           heights1)
  end.

End Layout.

End Form.

(* ------------------------------------------------------------------------- *)
(** ** A session with the tool *)

Module Session.
Import Dom Rehydrate RawTool Form.

(** The tool on its page, with what the user typed into text areas and the
    inline heights. *)
Record State : Type := mkState {
  tool : Tool;
  page : Page;
  values : gmap NodeId string;
  heights : gmap NodeId string
}.

(** What happens to the tool: the editor calls [render()]; the text of a
    text area changes and its [input] event is dispatched; a timer fires. *)
Inductive Action : Type :=
  | Render
  | Input (area : NodeId) (text : string)
  | Elapse (id : nat).

(** The pending timer with an id. *)
Definition pending (id : nat) (p : Page) : option Timer :=
  head (filter (λ tm, timerId tm = id) (timers p)).

Definition start (t : Tool) (p : Page) : State :=
  {| tool := t; page := p; values := ∅; heights := ∅ |}.

Section Browser.

Variable reflectURL : string → string.
Variable run : Node → Forest → Forest.
Variable parseHTML : NodeId → string → list Node.
Variable scrollHeight :
  NodeId → Forest → gmap NodeId string → gmap NodeId string → nat.

(** One action. The listener of line 120 calls [onInput()]; the timer of
    lines 137 and 222 calls [resize()], that of line 133
    [_executeScripts(c)]. A timer that fires is no longer pending. [Throws]
    is the TypeError of [resize()]; how a pass ends, a TypeError of line
    202 included, is the [Status] that [runTask] gives, and a pass that
    waits goes on with [fire]: the session keeps the page the pass
    leaves. *)
Definition step (act : Action) (s : State) : Outcome State :=
  match act with
  | Render =>
      let r := render parseHTML (tool s) (page s) in
      Returns {| tool := r.1.2; page := r.2;
                 values := values s; heights := heights s |}
  | Input area text =>
      let values1 := <[area := text]> (values s) in
      if decide (area ∈ inputListeners (page s)) then
        let r := onInput (tool s) (page s) in
        Returns {| tool := r.1; page := r.2;
                   values := values1; heights := heights s |}
      else
        Returns {| tool := tool s; page := page s;
                   values := values1; heights := heights s |}
  | Elapse id =>
      match pending id (page s) with
      | None => Returns s
      | Some tm =>
          let p1 := clearTimeout id (page s) in
          match task tm with
          | ExecuteScripts c =>
              Returns {| tool := tool s;
                         page := (runTask reflectURL run (ExecuteScripts c) p1).2;
                         values := values s; heights := heights s |}
          | Resize =>
              match resize scrollHeight (tool s) (dom (world p1))
                      (values s) (heights s) with
              | Returns heights1 =>
                  Returns {| tool := tool s; page := p1;
                             values := values s; heights := heights1 |}
              | Throws => Throws
              end
          end
      end
  end.

(** The actions one after the other, as long as none throws. *)
Fixpoint steps (acts : list Action) (s : State) : Outcome State :=
  match acts with
  | [] => Returns s
  | act :: acts' =>
      match step act s with
      | Returns s' => steps acts' s'
      | Throws => Throws
      end
  end.

End Browser.

(** The timers of the page and the tool's note of its last one fit
    together: ids are handed out once and in rising order, the id the tool
    holds is one of [onInput]'s, and before the first [render()] nothing
    of the tool is on the page. *)
Definition timersOk (s : State) : Prop :=
  (∀ tm, tm ∈ timers (page s) → timerId tm < nextTimer (page s))
  ∧ NoDup (timerId <$> timers (page s))
  ∧ (∀ id, resizeDebounce (tool s) = Some id → id < nextTimer (page s))
  ∧ (∀ tm, tm ∈ timers (page s) →
       resizeDebounce (tool s) = Some (timerId tm) →
       delay tm = 200 ∧ task tm = Resize)
  ∧ (textarea (tool s) = None →
       timers (page s) = [] ∧ inputListeners (page s) = []).

(** Timer ids are positive, and a pending timer of 200 ms is the one the
    tool holds the id of. *)
Definition debounced (s : State) : Prop :=
  0 < nextTimer (page s)
  ∧ (∀ id, resizeDebounce (tool s) = Some id → 0 < id)
  ∧ (∀ tm, tm ∈ timers (page s) → delay tm = 200 →
       resizeDebounce (tool s) = Some (timerId tm)).

(** A wrapper that holds a text area with text in it, and nothing else. *)
Definition textOnly (w : Node) : Prop :=
  ∃ i cls j attrs kids,
    w = Element i "div" cls [Element j "textarea" attrs kids]
    ∧ Forall (λ k, isText k = true) kids.

(** A read-only tool: nothing listens for input, the tool holds no timer
    id, and the timers that are pending are those of [render()]. *)
Definition viewing (s : State) : Prop :=
  JS.truthy (readOnly (tool s)) = true
  ∧ inputListeners (page s) = []
  ∧ resizeDebounce (tool s) = None
  ∧ ∀ tm, tm ∈ timers (page s) → delay tm = 100.

(** An editable tool on a page that was [p0] when the session began: no
    script has run, and what the heap has more is text-only wrappers. *)
Definition editing (p0 : Page) (s : State) : Prop :=
  JS.truthy (readOnly (tool s)) = false
  ∧ (∀ tm, tm ∈ timers (page s) → task tm = Resize)
  ∧ executed (world (page s)) = executed (world p0)
  ∧ trace (world (page s)) = trace (world p0)
  ∧ ∃ ws, dom (world (page s)) = dom (world p0) ++ ws ∧ Forall textOnly ws.

End Session.

(* ------------------------------------------------------------------------- *)
(** ** Markup, parsers and one more script *)

Module Markup.
Import Dom.

(** A tree without the identities of its nodes: what serialising it
    keeps. *)
Inductive Markup : Type :=
  | MText (data : string)
  | MElement (localName : string) (attributes : gmap string string)
             (children : list Markup).

Fixpoint markup (n : Node) : Markup :=
  match n with
  | Text _ d => MText d
  | Element _ ln a cs => MElement ln a (markup <$> cs)
  end.

(** Script elements as the HTML parser leaves them: no child, or one text
    node that is not empty. *)
Fixpoint parsedScripts (n : Node) : bool :=
  match n with
  | Text _ _ => true
  | Element _ _ _ cs =>
      (if isScript n then
         match cs with
         | [] => true
         | [Text _ d] => bool_decide (d ≠ "")
         | _ => false
         end
       else true)
        && forallb parsedScripts cs
  end.

(** A node and its descendants, in document order. *)
Fixpoint subtree (n : Node) : list Node :=
  match n with
  | Text _ _ => [n]
  | Element _ _ _ cs => n :: (cs ≫= subtree)
  end.

Definition named (name : string) (n : Node) : Prop :=
  match n with
  | Text _ _ => False
  | Element _ ln _ _ => ln = name
  end.

#[global] Instance named_dec name n : Decision (named name n).
Proof. destruct n; simpl; apply _. Defined.

(** [setAttribute] on the node an identity refers to. *)
Fixpoint setAttributeIn (i : NodeId) (name value : string) (n : Node) : Node :=
  match n with
  | Text _ _ => n
  | Element j ln a cs =>
      Element j ln (if decide (j = i) then <[name := value]> a else a)
        (setAttributeIn i name value <$> cs)
  end.

(** A script that gives the element it runs from a [src] attribute, as
    [document.currentScript.src = 'late.js'] does. *)
Definition claimSrc : Node → Forest → Forest :=
  λ s f, setAttributeIn (nodeId s) "src" "late.js" <$> f.

(** What a fragment parser has to give: nodes with identities of their
    own, none below the first one it may use. *)
Definition parserOk (parseHTML : NodeId → string → list Node) : Prop :=
  ∀ i s, NoDup (forestIds (parseHTML i s))
         ∧ ∀ x, x ∈ forestIds (parseHTML i s) → i ≤ x.

End Markup.

(* ------------------------------------------------------------------------- *)
(** ** Trees and forests *)

Module DomFacts.
Import Dom Shape.

Lemma Node_rect' (P : Node → Prop) :
  (∀ i d, P (Text i d)) →
  (∀ i ln a cs, Forall P cs → P (Element i ln a cs)) →
  ∀ n, P n.
Proof.
  intros Ht He. fix IH 1. intros [i d|i ln a cs]; [apply Ht|].
  apply He. induction cs as [|c cs IHcs]; constructor; [apply IH|apply IHcs].
Qed.

Lemma firstSome_app {A B} (f : A → option B) l1 l2 :
  firstSome f (l1 ++ l2)
  = match firstSome f l1 with Some y => Some y | None => firstSome f l2 end.
Proof.
  induction l1 as [|x l1 IH]; simpl; [done|]. destruct (f x); [done|apply IH].
Qed.

Lemma firstSome_None {A B} (f : A → option B) l :
  firstSome f l = None ↔ Forall (λ x, f x = None) l.
Proof.
  induction l as [|x l IH]; simpl.
  - split; [constructor|done].
  - destruct (f x) eqn:E.
    + split; [done|]. intros H. inversion H; congruence.
    + rewrite IH. split; [by constructor|]. by inversion 1.
Qed.

Lemma firstSome_Some {A B} (f : A → option B) l y :
  firstSome f l = Some y → ∃ x, x ∈ l ∧ f x = Some y.
Proof.
  induction l as [|x l IH]; simpl; [done|].
  destruct (f x) eqn:E.
  - intros [= <-]. exists x. split; [left|done].
  - intros H. destruct (IH H) as (x' & ? & ?). exists x'. split; [by right|done].
Qed.

Lemma ids_head n : ids n = nodeId n :: (childNodes n ≫= ids).
Proof. by destruct n. Qed.

Lemma nodeId_in_ids n : nodeId n ∈ ids n.
Proof. rewrite ids_head. left. Qed.

Lemma forestIds_app f g : forestIds (f ++ g) = forestIds f ++ forestIds g.
Proof. apply bind_app. Qed.

Lemma forestIds_cons n f : forestIds (n :: f) = ids n ++ forestIds f.
Proof. done. Qed.

Lemma elem_of_bind {A B} (g : A → list B) (x : B) (l : list A) :
  x ∈ l ≫= g ↔ ∃ y, y ∈ l ∧ x ∈ g y.
Proof. rewrite list_elem_of_bind. split; intros (y & ? & ?); eauto. Qed.

Lemma elem_of_forestIds j f : j ∈ forestIds f ↔ ∃ n, n ∈ f ∧ j ∈ ids n.
Proof. apply elem_of_bind. Qed.

Lemma roots_in_forestIds f : nodeId <$> f ⊆ forestIds f.
Proof.
  intros j (n & -> & Hn)%list_elem_of_fmap. apply elem_of_forestIds.
  exists n. split; [done|apply nodeId_in_ids].
Qed.

(** Dereferencing finds exactly the identities of the tree. *)
Lemma findIn_None i n : findIn i n = None ↔ i ∉ ids n.
Proof.
  induction n as [j d|j ln a cs IH] using Node_rect'; simpl.
  - case_decide; [subst|].
    + split; [done|]. intros H. destruct H. left.
    + split; [|done]. intros _ ?%list_elem_of_singleton. done.
  - case_decide; [subst|].
    + split; [done|]. intros H. destruct H. left.
    + rewrite firstSome_None, not_elem_of_cons.
      split.
      * intros H'. split; [done|]. intros (c & Hc & Hi)%elem_of_bind.
        rewrite Forall_forall in IH, H'. apply (IH c Hc) in Hi; [done|].
        by apply H'.
      * intros [_ H']. apply Forall_forall. intros c Hc.
        rewrite Forall_forall in IH. apply IH; [done|].
        intros Hi. apply H'. apply elem_of_bind. eauto.
Qed.

Lemma findNode_None i f : findNode i f = None ↔ i ∉ forestIds f.
Proof.
  unfold findNode. rewrite firstSome_None, Forall_forall, elem_of_forestIds.
  split.
  - intros H (n & Hn & Hi). by apply (findIn_None i n) in Hi; [|apply H].
  - intros H n Hn. apply findIn_None. naive_solver.
Qed.

Lemma findIn_Some i n m :
  findIn i n = Some m → nodeId m = i ∧ ids m ⊆ ids n.
Proof.
  revert m. induction n as [j d|j ln a cs IH] using Node_rect'; simpl; intros m.
  - case_decide; [|done]. intros [= <-]. done.
  - case_decide; [intros [= <-]; done|].
    intros (c & Hc & Hf)%firstSome_Some.
    rewrite Forall_forall in IH. destruct (IH c Hc m Hf) as [? Hsub].
    split; [done|]. intros x Hx. right. apply elem_of_bind.
    exists c. split; [done|by apply Hsub].
Qed.

Lemma findNode_Some i f m :
  findNode i f = Some m → nodeId m = i ∧ ids m ⊆ forestIds f.
Proof.
  intros (n & Hn & Hf)%firstSome_Some.
  destruct (findIn_Some _ _ _ Hf) as [? Hsub]. split; [done|].
  intros x Hx. apply elem_of_forestIds. exists n. split; [done|by apply Hsub].
Qed.

Lemma findIn_root n : findIn (nodeId n) n = Some n.
Proof. destruct n; simpl; by rewrite decide_True. Qed.

(** A node has a parent exactly when it lies below a root. *)
Lemma parentIn_is_Some i n :
  is_Some (parentIn i n) ↔ i ∈ childNodes n ≫= ids.
Proof.
  induction n as [j d|j ln a cs IH] using Node_rect'; simpl.
  - split; [by intros [? ?]|]. by intros ?%elem_of_nil.
  - case_decide as Hd.
    + split; [|by eauto]. intros _.
      apply list_elem_of_fmap in Hd as (c & -> & Hc).
      apply elem_of_bind. exists c. split; [done|apply nodeId_in_ids].
    + rewrite Forall_forall in IH. split.
      * intros [p (c & Hc & Hp)%firstSome_Some].
        apply elem_of_bind. exists c. split; [done|].
        rewrite ids_head. right. apply IH; [done|]. by eexists.
      * intros (c & Hc & Hi)%elem_of_bind.
        rewrite ids_head in Hi. apply elem_of_cons in Hi as [->|Hi].
        { destruct Hd. apply list_elem_of_fmap. eauto. }
        destruct (firstSome (parentIn i) cs) eqn:E; [by eexists|].
        rewrite firstSome_None, Forall_forall in E.
        apply (IH c Hc) in Hi as [p Hp]. rewrite (E c Hc) in Hp. done.
Qed.

Lemma parentNode_is_Some i f :
  is_Some (parentNode i f) ↔ i ∈ f ≫= (λ n, childNodes n ≫= ids).
Proof.
  unfold parentNode. rewrite elem_of_bind. split.
  - intros [p (n & Hn & Hp)%firstSome_Some]. exists n. split; [done|].
    apply parentIn_is_Some. by eexists.
  - intros (n & Hn & Hi). destruct (firstSome (parentIn i) f) eqn:E; [by eexists|].
    rewrite firstSome_None, Forall_forall in E.
    apply parentIn_is_Some in Hi as [p Hp]. rewrite (E n Hn) in Hp. done.
Qed.

(** *** Places *)

Lemma ids_plug p x : ids (plug p x) = before p ++ ids x ++ after p.
Proof.
  induction p as [|i ln a l p IH r]; simpl.
  - by rewrite app_nil_r.
  - rewrite bind_app, bind_cons, IH. unfold forestIds.
    by rewrite <- !app_assoc.
Qed.

Lemma plug_extend p q x : plug (extend p q) x = plug p (plug q x).
Proof. induction p as [|i ln a l p IH r]; simpl; [done|by rewrite IH]. Qed.

Lemma nodeId_plug p x y :
  nodeId x = nodeId y → nodeId (plug p x) = nodeId (plug p y).
Proof. by destruct p. Qed.

Lemma attributes_plug p x y :
  p ≠ Here → attributes (plug p x) = attributes (plug p y).
Proof. by destruct p. Qed.

Lemma isScript_plug p x y :
  p ≠ Here → isScript (plug p x) = isScript (plug p y).
Proof. by destruct p. Qed.

Lemma string_app_assoc (s1 s2 s3 : string) :
  (s1 +:+ s2) +:+ s3 = s1 +:+ (s2 +:+ s3).
Proof.
  induction s1 as [|c s1 IH]; [done|].
  change (String c ((s1 +:+ s2) +:+ s3) = String c (s1 +:+ s2 +:+ s3)).
  by rewrite IH.
Qed.

Lemma textContent_children (l : list Node) c r :
  foldr (λ c acc, textContent c +:+ acc) "" (l ++ c :: r)
  = foldr (λ c acc, textContent c +:+ acc) "" l
      +:+ textContent c +:+ foldr (λ c acc, textContent c +:+ acc) "" r.
Proof.
  induction l as [|c' l IH]; simpl; [done|].
  by rewrite IH, string_app_assoc.
Qed.

(** The text of a tree depends on a subtree only through its text. *)
Lemma textContent_plug p x y :
  textContent x = textContent y →
  textContent (plug p x) = textContent (plug p y).
Proof.
  intros E. induction p as [|i ln a l p IH r]; simpl; [done|].
  by rewrite !textContent_children, IH.
Qed.

Lemma scriptsOf_plug p x :
  scriptsOf (plug p x) = scriptsBefore p ++ scriptsOf x ++ scriptsAfter p.
Proof.
  induction p as [|i ln a l p IH r]; simpl.
  - by rewrite app_nil_r.
  - rewrite bind_app, bind_cons, IH. by rewrite <- !app_assoc.
Qed.

Lemma scriptsOf_ids n : scriptsOf n ⊆ ids n.
Proof.
  induction n as [j d|j ln a cs IH] using Node_rect'; simpl.
  - by intros x ?%elem_of_nil.
  - intros x [Hx|Hx]%elem_of_app.
    + destruct (bool_decide _); [|by apply elem_of_nil in Hx].
      apply list_elem_of_singleton in Hx as ->. left.
    + right. apply elem_of_bind in Hx as (c & Hc & Hx).
      apply elem_of_bind. exists c. split; [done|].
      rewrite Forall_forall in IH. by apply IH.
Qed.

(** A parent, and the place of the child under it. *)
Lemma parentIn_plug i n par :
  parentIn i n = Some par →
  ∃ p ln a l on r,
    n = plug p (Element par ln a (l ++ on :: r)) ∧ nodeId on = i.
Proof.
  revert par.
  induction n as [j d|j ln a cs IH] using Node_rect'; simpl; intros par;
    [done|].
  case_decide as Hd.
  - intros [= <-]. apply list_elem_of_fmap in Hd as (c & -> & Hc).
    apply list_elem_of_split in Hc as (l & r & ->).
    by exists Here, ln, a, l, c, r.
  - intros (c & Hc & Hp)%firstSome_Some.
    rewrite Forall_forall in IH.
    destruct (IH c Hc par Hp) as (p & ln' & a' & l' & on & r' & -> & Hid).
    apply list_elem_of_split in Hc as (l & r & ->).
    by exists (Down j ln a l p r), ln', a', l', on, r'.
Qed.

Lemma parentNode_plug i f par :
  parentNode i f = Some par →
  ∃ fl fr p ln a l on r,
    f = fl ++ plug p (Element par ln a (l ++ on :: r)) :: fr
    ∧ nodeId on = i.
Proof.
  intros (n & Hn & Hp)%firstSome_Some.
  apply parentIn_plug in Hp as (p & ln & a & l & on & r & -> & Hid).
  apply list_elem_of_split in Hn as (fl & fr & ->).
  by exists fl, fr, p, ln, a, l, on, r.
Qed.

(** Replacing below a parent that is not there changes nothing. *)
Lemma replaceIn_id par new old n :
  par ∉ ids n → replaceIn par new old n = n.
Proof.
  induction n as [j d|j ln a cs IH] using Node_rect'; simpl; [done|].
  intros [Hj Hcs]%not_elem_of_cons.
  rewrite decide_False by done. f_equal.
  rewrite <- (list_fmap_id cs) at 2. apply list_fmap_ext.
  intros k c Hc%list_elem_of_lookup_2 .
  rewrite Forall_forall in IH. apply IH; [done|].
  intros Hp. apply Hcs. apply elem_of_bind. eauto.
Qed.

Lemma replaceIn_forest_id par new old (f : Forest) :
  par ∉ forestIds f → replaceIn par new old <$> f = f.
Proof.
  intros Hf. rewrite <- (list_fmap_id f) at 2. apply list_fmap_ext.
  intros k c Hc%list_elem_of_lookup_2. apply replaceIn_id.
  intros Hp. apply Hf. apply elem_of_forestIds. eauto.
Qed.

Lemma replace_children_id new old (l : list Node) :
  old ∉ nodeId <$> l →
  (λ c, if decide (nodeId c = old) then new else c) <$> l = l.
Proof.
  intros Hl. rewrite <- (list_fmap_id l) at 2. apply list_fmap_ext.
  intros k c Hc%list_elem_of_lookup_2. simpl.
  rewrite decide_False; [done|]. intros <-. apply Hl.
  by apply list_elem_of_fmap_2.
Qed.


(** *** Replacing a child at its place *)

Lemma NoDup_forest_split (fl : Forest) n fr :
  NoDup (forestIds (fl ++ n :: fr)) →
  NoDup (forestIds fl) ∧ NoDup (ids n) ∧ NoDup (forestIds fr)
  ∧ (∀ x, x ∈ forestIds fl → x ∉ ids n)
  ∧ (∀ x, x ∈ forestIds fl → x ∉ forestIds fr)
  ∧ (∀ x, x ∈ ids n → x ∉ forestIds fr).
Proof.
  rewrite forestIds_app, forestIds_cons, !NoDup_app.
  intros (? & H1 & ? & ? & ?). repeat split; try done.
  - intros x Hx Hn. apply (H1 x Hx). apply elem_of_app. by left.
  - intros x Hx Hn. apply (H1 x Hx). apply elem_of_app. by right.
Qed.

Lemma NoDup_element i ln a (cs : list Node) :
  NoDup (ids (Element i ln a cs))
  ↔ (i ∉ forestIds cs) ∧ NoDup (forestIds cs).
Proof. simpl. apply NoDup_cons. Qed.

Lemma in_ids_plug x p X : x ∈ ids X → x ∈ ids (plug p X).
Proof. rewrite ids_plug, !elem_of_app. auto. Qed.

Lemma replaceIn_plug p par ln a l on r new :
  NoDup (ids (plug p (Element par ln a (l ++ on :: r)))) →
  replaceIn par new (nodeId on) (plug p (Element par ln a (l ++ on :: r)))
  = plug p (Element par ln a (l ++ new :: r)).
Proof.
  induction p as [|i ln' a' l' p IH r']; simpl.
  - intros [_ (_ & _ & _ & Hl & _ & Hr)%NoDup_forest_split]%NoDup_cons.
    rewrite decide_True by done. f_equal.
    rewrite fmap_app, fmap_cons, decide_True by done.
    rewrite !replace_children_id; [done| |].
    + intros Hx%roots_in_forestIds. apply (Hr (nodeId on)); [|done].
      apply nodeId_in_ids.
    + intros Hx%roots_in_forestIds. apply (Hl (nodeId on)); [done|].
      apply nodeId_in_ids.
  - intros [Hi (_ & Hn & _ & Hl & _ & Hr)%NoDup_forest_split]%NoDup_cons.
    assert (Hpar : par ∈ ids (plug p (Element par ln a (l ++ on :: r)))).
    { apply in_ids_plug. left. }
    rewrite decide_False.
    2:{ intros ->. apply Hi. apply elem_of_bind. eexists. split; [|done].
        apply elem_of_app. right. left. }
    f_equal. rewrite fmap_app, fmap_cons, IH by done.
    rewrite !replaceIn_forest_id; [done| |].
    + intros Hx. by apply (Hr par).
    + intros Hx. by apply (Hl par).
Qed.

Lemma replaceIn_forest_plug fl fr p par ln a l on r new :
  NoDup (forestIds (fl ++ plug p (Element par ln a (l ++ on :: r)) :: fr)) →
  replaceIn par new (nodeId on)
    <$> (fl ++ plug p (Element par ln a (l ++ on :: r)) :: fr)
  = fl ++ plug p (Element par ln a (l ++ new :: r)) :: fr.
Proof.
  intros (_ & Hn & _ & Hl & _ & Hr)%NoDup_forest_split.
  assert (Hpar : par ∈ ids (plug p (Element par ln a (l ++ on :: r)))).
  { apply in_ids_plug. left. }
  rewrite fmap_app, fmap_cons, replaceIn_plug by done.
  rewrite !replaceIn_forest_id; [done| |].
  - intros Hx. by apply (Hr par).
  - intros Hx. by apply (Hl par).
Qed.

(** *** Dereferencing around a place *)

Lemma located_ext X j m (look look' : Node → option Node) :
  (∀ X', look X' = look' X') → located X j m look → located X j m look'.
Proof.
  intros E [(q & ? & ? & ? & H)|[?|(? & ? & H)]].
  - left. exists q. repeat split; try done. intros X'. by rewrite <- E.
  - right; by left.
  - right; right. repeat split; try done. intros X' ?. rewrite <- E. auto.
Qed.

Lemma located_forest fl p X fr j m :
  NoDup (forestIds (fl ++ plug p X :: fr)) →
  (∀ m, findIn j (plug p X) = Some m →
        located X j m (λ X', findIn j (plug p X'))) →
  findNode j (fl ++ plug p X :: fr) = Some m →
  located X j m (λ X', findNode j (fl ++ plug p X' :: fr)).
Proof.
  intros (_ & Hn & _ & Hl & _ & Hr)%NoDup_forest_split Hnode.
  unfold findNode. rewrite firstSome_app.
  destruct (firstSome (findIn j) fl) as [m'|] eqn:Efl.
  - intros [= ->]. right; right.
    destruct (findNode_Some _ _ _ Efl) as [Hj Hsub].
    split; [|split].
    + intros HX. apply (Hl j); [|by apply in_ids_plug].
      apply Hsub. rewrite <- Hj. apply nodeId_in_ids.
    + intros x Hx HX. apply (Hl x); [by apply Hsub|by apply in_ids_plug].
    + intros X' _. by rewrite firstSome_app, Efl.
  - simpl. destruct (findIn j (plug p X)) as [m'|] eqn:Ep.
    + intros [= ->]. destruct (Hnode _ eq_refl) as [(q & ? & ? & ? & H)|[?|(? & ? & H)]].
      * left. exists q. repeat split; try done. intros X'.
        by rewrite firstSome_app, Efl; simpl; rewrite H.
      * right; by left.
      * right; right. repeat split; try done. intros X' HX'.
        by rewrite firstSome_app, Efl; simpl; rewrite H.
    + intros Hfr. right; right.
      destruct (findNode_Some _ _ _ Hfr) as [Hj Hsub].
      apply findIn_None in Ep. rewrite ids_plug, !elem_of_app in Ep.
      split; [tauto|split].
      * intros x Hx HX. apply (Hr x); [by apply in_ids_plug|by apply Hsub].
      * intros X' HX'. rewrite firstSome_app, Efl. simpl.
        assert (findIn j (plug p X') = None) as ->; [|done].
        apply findIn_None. rewrite ids_plug, !elem_of_app. tauto.
Qed.

Lemma located_node p X j m :
  NoDup (ids (plug p X)) →
  findIn j (plug p X) = Some m →
  located X j m (λ X', findIn j (plug p X')).
Proof.
  revert m. induction p as [|i ln a l p IH r]; intros m.
  - intros _ H. right; by left.
  - simpl. intros [Hi Hcs]%NoDup_cons. case_decide as Hj.
    + intros [= <-]. left. exists (Down i ln a l p r). subst j.
      split; [done|split; [done|split]].
      * intros HX. apply Hi. apply elem_of_bind. eexists. split.
        -- apply elem_of_app. right. left.
        -- by apply in_ids_plug.
      * intros X'. simpl. by rewrite ?decide_True.
    + intros H. eapply located_ext; last first.
      * apply (located_forest l p X r j m Hcs); [|exact H].
        intros m' Hm'. apply IH; [|done].
        by apply NoDup_forest_split in Hcs as (_ & ? & _).
      * done.
Qed.

(** Dereferencing in a well-formed heap, relative to any place in it. *)
Lemma findNode_located fl p X fr j m :
  NoDup (forestIds (fl ++ plug p X :: fr)) →
  findNode j (fl ++ plug p X :: fr) = Some m →
  located X j m (λ X', findNode j (fl ++ plug p X' :: fr)).
Proof.
  intros Hnd. apply located_forest; [done|].
  intros m' Hm'. apply located_node; [|done].
  by apply NoDup_forest_split in Hnd as (_ & ? & _).
Qed.

(** The node at a place is the one its identity refers to. *)
Lemma findNode_at fl p X fr :
  NoDup (forestIds (fl ++ plug p X :: fr)) →
  findNode (nodeId X) (fl ++ plug p X :: fr) = Some X.
Proof.
  intros Hnd.
  destruct (findNode (nodeId X) (fl ++ plug p X :: fr)) as [m|] eqn:E.
  - destruct (findNode_located _ _ _ _ _ _ Hnd E)
      as [(q & ? & ? & HX & H)|[?|(HX & ? & H)]].
    + destruct HX. apply nodeId_in_ids.
    + by rewrite findIn_root in *.
    + destruct HX. apply nodeId_in_ids.
  - apply findNode_None in E. destruct E.
    rewrite forestIds_app, forestIds_cons, !elem_of_app.
    right; left. apply in_ids_plug, nodeId_in_ids.
Qed.


(** *** Well-formed heaps *)

Import Spec.

Lemma freshId_gt f x : x ∈ forestIds f → x < freshId f.
Proof. intros H%max_list_elem_of_le. unfold freshId. lia. Qed.

Lemma forest_disjoint (f : Forest) n1 n2 x :
  NoDup (forestIds f) → n1 ∈ f → n2 ∈ f → x ∈ ids n1 → x ∈ ids n2 → n1 = n2.
Proof.
  induction f as [|n f IH]; [by intros _ ?%elem_of_nil|].
  rewrite forestIds_cons, NoDup_app. intros (_ & Hd & Hf).
  intros [->|H1]%elem_of_cons [->|H2]%elem_of_cons Hx1 Hx2; [done| | |by apply IH].
  - destruct (Hd x Hx1). apply elem_of_forestIds. eauto.
  - destruct (Hd x Hx2). apply elem_of_forestIds. eauto.
Qed.

(** In a well-formed heap the nodes with a parent are those that are not
    roots. *)
Lemma attached_iff f j :
  wellFormed f → attached j f ↔ j ∈ forestIds f ∧ (j ∉ nodeId <$> f).
Proof.
  intros Hwf. unfold attached. rewrite parentNode_is_Some, elem_of_bind.
  split.
  - intros (n & Hn & Hj). split.
    + apply elem_of_forestIds. exists n. split; [done|].
      rewrite ids_head. by right.
    + intros (n' & -> & Hn')%list_elem_of_fmap.
      assert (n' = n) as ->.
      { apply (forest_disjoint f n' n (nodeId n') Hwf); try done.
        - apply nodeId_in_ids.
        - rewrite ids_head. by right. }
      assert (Hnd : NoDup (ids n)).
      { apply list_elem_of_split in Hn as (fl & fr & ->).
        by apply NoDup_forest_split in Hwf as (_ & ? & _). }
      rewrite ids_head in Hnd. by apply NoDup_cons in Hnd as [? _].
  - intros [(n & Hn & Hj)%elem_of_forestIds Hroot]. exists n. split; [done|].
    rewrite ids_head in Hj. apply elem_of_cons in Hj as [->|Hj]; [|done].
    destruct Hroot. by apply list_elem_of_fmap_2.
Qed.

Lemma attached_in_heap f j : attached j f → j ∈ forestIds f.
Proof.
  unfold attached. rewrite parentNode_is_Some, elem_of_bind.
  intros (n & Hn & Hj). apply elem_of_forestIds. exists n. split; [done|].
  rewrite ids_head. by right.
Qed.

Lemma attached_found f j : attached j f → is_Some (findNode j f).
Proof.
  intros H%attached_in_heap. destruct (findNode j f) eqn:E; [by eexists|].
  by apply findNode_None in E.
Qed.

(** *** The swap *)

Lemma nodeId_plug_inner p x y : p ≠ Here → nodeId (plug p x) = nodeId (plug p y).
Proof. by destruct p. Qed.

Lemma extend_ne p q : q ≠ Here → extend p q ≠ Here.
Proof. by destruct p. Qed.

(** The shape of the heap around a node that has a parent, and what
    [replaceChild] makes of it. *)
Lemma swap_shape f old par on :
  wellFormed f → parentNode old f = Some par → findNode old f = Some on →
  ∃ fl fr p ln a l r,
    f = fl ++ plug (extend p (childOf par ln a l r)) on :: fr
    ∧ nodeId on = old
    ∧ ∀ new, replaceChild par new old f
             = (fl ++ plug (extend p (childOf par ln a l r)) new :: fr)
                 ++ [on].
Proof.
  intros Hwf (fl & fr & p & ln & a & l & on' & r & -> & Hid)%parentNode_plug.
  intros Hon. exists fl, fr, p, ln, a, l, r.
  assert (on' = on) as ->.
  { pose proof (findNode_at fl (extend p (childOf par ln a l r)) on' fr) as H.
    rewrite plug_extend in H. simpl in H. rewrite Hid in H.
    rewrite H in Hon by done. congruence. }
  rewrite !plug_extend. simpl. split; [done|split; [done|]].
  intros new. unfold replaceChild. rewrite Hon. simpl. f_equal.
  rewrite <- Hid, plug_extend. simpl. by apply replaceIn_forest_plug.
Qed.

Section Swap.

Context (fl fr : Forest) (P : Path) (on new : Node).
Let f : Forest := fl ++ plug P on :: fr.
Let f' : Forest := (fl ++ plug P new :: fr) ++ [on].
Hypothesis HP : P ≠ Here.
Hypothesis Hwf : wellFormed f.
Hypothesis Hnew : NoDup (ids new).
Hypothesis Hfresh : ∀ x, x ∈ ids new → x ∉ forestIds f.

Lemma swap_ids : forestIds f' ≡ₚ ids new ++ forestIds f.
Proof.
  unfold f, f'. rewrite !forestIds_app, !forestIds_cons, !ids_plug.
  unfold forestIds at 3. simpl. solve_Permutation.
Qed.

Lemma swap_wellFormed : wellFormed f'.
Proof.
  unfold wellFormed. rewrite swap_ids. apply NoDup_app. done.
Qed.

Lemma swap_roots : nodeId <$> f' = (nodeId <$> f) ++ [nodeId on].
Proof.
  unfold f, f'. rewrite !fmap_app, !fmap_cons. simpl.
  by rewrite (nodeId_plug_inner P new on).
Qed.

(** Every other node that had a parent still has one. *)
Lemma swap_attached j : j ≠ nodeId on → attached j f → attached j f'.
Proof.
  intros Hj. rewrite !attached_iff by (done || apply swap_wellFormed).
  intros [Hin Hroot]. split.
  - rewrite swap_ids. apply elem_of_app. by right.
  - rewrite swap_roots. intros [?|?%list_elem_of_singleton]%elem_of_app; done.
Qed.

(** The replacement is where references to it lead. *)
Lemma swap_find_new : findNode (nodeId new) f' = Some new.
Proof.
  unfold f', findNode. rewrite firstSome_app.
  fold (findNode (nodeId new) (fl ++ plug P new :: fr)).
  rewrite findNode_at; [done|].
  pose proof swap_wellFormed as H. unfold wellFormed, f' in H.
  rewrite forestIds_app in H. by apply NoDup_app in H as [? _].
Qed.

(** References that were valid stay valid, and lead to a node with the
    same attributes and, when the replacement has the text of the
    original, the same text. *)
Lemma swap_find j m :
  findNode j f = Some m →
  ∃ m', findNode j f' = Some m'
        ∧ nodeId m' = nodeId m
        ∧ attributes m' = attributes m
        ∧ isScript m' = isScript m
        ∧ (textContent new = textContent on →
           textContent m' = textContent m).
Proof.
  intros Hm.
  destruct (findNode_located fl P on fr j m Hwf Hm)
    as [(q & Hq & -> & HX & H)|[Hin|(HX & Hdis & H)]].
  - exists (plug q new). unfold f', findNode. rewrite firstSome_app.
    fold (findNode j (fl ++ plug P new :: fr)). rewrite H.
    split; [done|]. split; [by apply nodeId_plug_inner|].
    split; [by apply attributes_plug|]. split; [by apply isScript_plug|].
    apply textContent_plug.
  - exists m. split; [|done]. unfold f', findNode. rewrite firstSome_app.
    fold (findNode j (fl ++ plug P new :: fr)).
    assert (findNode j (fl ++ plug P new :: fr) = None) as ->.
    { apply findNode_None. destruct (findIn_Some _ _ _ Hin) as [Hid Hsub].
      assert (Hjon : j ∈ ids on).
      { apply Hsub. rewrite <- Hid. apply nodeId_in_ids. }
      pose proof Hwf as Hwf'. unfold wellFormed, f in Hwf'.
      rewrite forestIds_app, forestIds_cons, ids_plug in Hwf'.
      rewrite forestIds_app, forestIds_cons, ids_plug.
      rewrite !NoDup_app in Hwf'.
      destruct Hwf' as (_ & H1 & (_ & H2 & _ & H3 & _) & H4 & _).
      rewrite !elem_of_app. intros [Hx|[[Hx|[Hx|Hx]]|Hx]].
      - apply (H1 j Hx). rewrite !elem_of_app. auto.
      - apply (H2 j Hx). rewrite !elem_of_app. auto.
      - apply (Hfresh j Hx). unfold f.
        rewrite forestIds_app, forestIds_cons. rewrite !elem_of_app.
        right; left. by apply in_ids_plug.
      - by apply (H3 j Hjon).
      - apply (H4 j); [|done]. rewrite !elem_of_app. auto. }
    simpl. by rewrite Hin.
  - exists m. split; [|done]. unfold f', findNode. rewrite firstSome_app.
    fold (findNode j (fl ++ plug P new :: fr)). rewrite H; [done|].
    intros Hj. apply (Hfresh j Hj).
    destruct (findNode_Some _ _ _ Hm) as [Hid Hsub].
    apply Hsub. rewrite <- Hid. apply nodeId_in_ids.
Qed.

End Swap.


(** *** The position of a child *)

Lemma parentIn_None i n : i ∉ ids n → parentIn i n = None.
Proof.
  intros Hi. destruct (parentIn i n) eqn:E; [|done]. destruct Hi.
  rewrite ids_head. right. apply parentIn_is_Some. by eexists.
Qed.

Lemma parentNode_None i f : i ∉ forestIds f → parentNode i f = None.
Proof.
  intros Hi. apply firstSome_None, Forall_forall. intros n Hn.
  apply parentIn_None. intros ?. apply Hi, elem_of_forestIds. eauto.
Qed.

Lemma parentIn_at p par ln a l x r :
  NoDup (ids (plug p (Element par ln a (l ++ x :: r)))) →
  parentIn (nodeId x) (plug p (Element par ln a (l ++ x :: r))) = Some par.
Proof.
  induction p as [|j ln' a' l' p IH r']; simpl.
  - intros _. rewrite decide_True; [done|].
    rewrite fmap_app, fmap_cons, elem_of_app. right. left.
  - intros [Hj (_ & Hn & _ & Hl & _ & Hr)%NoDup_forest_split]%NoDup_cons.
    set (PE := Element par ln a (l ++ x :: r)) in *.
    assert (Hx : nodeId x ∈ childNodes (plug p PE) ≫= ids).
    { assert (nodeId x ∈ childNodes PE ≫= ids) as HPE.
      { simpl. rewrite bind_app, bind_cons, !elem_of_app.
        right; left. apply nodeId_in_ids. }
      destruct p as [|? ? ? l2 p2 r2]; [done|]. simpl.
      rewrite bind_app, bind_cons, !elem_of_app. right; left.
      apply in_ids_plug. rewrite (ids_head PE). by right. }
    assert (Hx' : nodeId x ∈ ids (plug p PE)).
    { rewrite ids_head. by right. }
    rewrite decide_False.
    2:{ rewrite fmap_app, fmap_cons, elem_of_app, elem_of_cons.
        intros [H|[H|H]].
        - apply roots_in_forestIds in H. by apply (Hl _ H).
        - rewrite ids_head in Hn. apply NoDup_cons in Hn as [Hn _].
          apply Hn. by rewrite <- H.
        - apply roots_in_forestIds in H. by apply (Hr _ Hx'). }
    rewrite firstSome_app.
    assert (firstSome (parentIn (nodeId x)) l' = None) as ->.
    { apply (parentNode_None _ l'). intros H. by apply (Hl _ H). }
    simpl. by rewrite IH.
Qed.

Lemma parentNode_at fl fr p par ln a l x r :
  NoDup (forestIds (fl ++ plug p (Element par ln a (l ++ x :: r)) :: fr)) →
  parentNode (nodeId x) (fl ++ plug p (Element par ln a (l ++ x :: r)) :: fr)
  = Some par.
Proof.
  intros (_ & Hn & _ & Hl & _ & Hr)%NoDup_forest_split.
  unfold parentNode. rewrite firstSome_app.
  assert (firstSome (parentIn (nodeId x)) fl = None) as ->.
  { apply (parentNode_None _ fl). intros H. apply (Hl _ H).
    apply in_ids_plug. simpl. right.
    rewrite bind_app, bind_cons, !elem_of_app. right; left.
    apply nodeId_in_ids. }
  simpl. by rewrite parentIn_at.
Qed.

Lemma prevOf_absent i a (l : list NodeId) : i ∉ l → prevOf i (a :: l) = None.
Proof.
  revert a. induction l as [|b l IH]; intros a; simpl; [done|].
  intros [Hb Hl]%not_elem_of_cons. rewrite decide_False by done. by apply IH.
Qed.

Lemma prevOf_at i (L R : list NodeId) :
  i ∉ L → i ∉ R → prevOf i (L ++ i :: R) = last L.
Proof.
  intros HL HR. induction L as [|a L IH]; simpl.
  - by apply prevOf_absent.
  - apply not_elem_of_cons in HL as [Ha HL]. destruct L as [|b L]; simpl.
    + by rewrite decide_True.
    + apply not_elem_of_cons in HL as [Hb HL].
      rewrite decide_False by done. apply IH.
      apply not_elem_of_cons. done.
Qed.

Lemma nextOf_at i (L R : list NodeId) :
  i ∉ L → nextOf i (L ++ i :: R) = head R.
Proof.
  induction L as [|a L IH]; simpl.
  - intros _. by rewrite decide_True.
  - intros [Ha HL]%not_elem_of_cons. rewrite decide_False by done. by apply IH.
Qed.

Lemma NoDup_forest_prefix (f g : Forest) :
  NoDup (forestIds (f ++ g)) → NoDup (forestIds f).
Proof. rewrite forestIds_app. by intros [? _]%NoDup_app. Qed.

(** [replaceChild] puts the new child where the old one was. *)
Lemma replaceChild_position f old par on new :
  wellFormed f → parentNode old f = Some par → findNode old f = Some on →
  NoDup (ids new) → (∀ x, x ∈ ids new → x ∉ forestIds f) →
  let f' := replaceChild par new old f in
  parentNode (nodeId new) f' = Some par
  ∧ parentNode old f' = None
  ∧ (∃ L R, childIds par f = L ++ old :: R
            ∧ childIds par f' = L ++ nodeId new :: R)
  ∧ previousSibling (nodeId new) f' = previousSibling old f
  ∧ nextSibling (nodeId new) f' = nextSibling old f.
Proof.
  intros Hwf Hpar Hon Hnew Hfresh.
  destruct (swap_shape f old par on Hwf Hpar Hon)
    as (fl & fr & p & ln & a & l & r & -> & Hid & Hswap).
  intros f'. unfold f'. rewrite Hswap. clear f'.
  set (P := extend p (childOf par ln a l r)) in *.
  assert (HP : P ≠ Here) by (by apply extend_ne).
  pose proof (swap_wellFormed fl fr P on new Hwf Hnew Hfresh) as Hwf'.
  pose proof (NoDup_forest_prefix _ _ Hwf') as Hwf1.
  assert (Hplug : ∀ x, plug P x = plug p (Element par ln a (l ++ x :: r))).
  { intros x. unfold P. by rewrite plug_extend. }
  (* the parent element, before and after *)
  assert (HPE : findNode par (fl ++ plug P on :: fr)
                = Some (Element par ln a (l ++ on :: r))).
  { rewrite Hplug. rewrite Hplug in Hwf.
    apply (findNode_at fl p (Element par ln a (l ++ on :: r)) fr Hwf). }
  assert (HPE' : findNode par ((fl ++ plug P new :: fr) ++ [on])
                 = Some (Element par ln a (l ++ new :: r))).
  { unfold findNode. rewrite firstSome_app.
    fold (findNode par (fl ++ plug P new :: fr)).
    rewrite Hplug. rewrite Hplug in Hwf1.
    pose proof (findNode_at fl p (Element par ln a (l ++ new :: r)) fr Hwf1)
      as Hx. simpl in Hx. by rewrite Hx. }
  assert (Hp' : parentNode (nodeId new) ((fl ++ plug P new :: fr) ++ [on])
                = Some par).
  { unfold parentNode. rewrite firstSome_app.
    fold (parentNode (nodeId new) (fl ++ plug P new :: fr)).
    rewrite Hplug. rewrite Hplug in Hwf1. by rewrite parentNode_at. }
  assert (Hkids : childIds par (fl ++ plug P on :: fr)
                  = (nodeId <$> l) ++ old :: (nodeId <$> r)).
  { unfold childIds. rewrite HPE. simpl.
    by rewrite fmap_app, fmap_cons, Hid. }
  assert (Hkids' : childIds par ((fl ++ plug P new :: fr) ++ [on])
                  = (nodeId <$> l) ++ nodeId new :: (nodeId <$> r)).
  { unfold childIds. rewrite HPE'. simpl. by rewrite fmap_app, fmap_cons. }
  (* identities of the siblings *)
  assert (Hsib : ∀ x, x ∈ (nodeId <$> l) ++ (nodeId <$> r) →
                      x ≠ old ∧ x ≠ nodeId new
                      ∧ x ∈ forestIds (fl ++ plug P on :: fr)).
  { intros x Hx.
    assert (Hin : x ∈ forestIds l ++ forestIds r).
    { apply elem_of_app in Hx as [Hx|Hx]; apply roots_in_forestIds in Hx;
        apply elem_of_app; auto. }
    assert (HxPE : x ∈ ids (Element par ln a (l ++ on :: r))
                   ∧ x ∉ ids on).
    { pose proof Hwf as H. rewrite Hplug in H.
      apply NoDup_forest_split in H as (_ & H & _).
      rewrite ids_plug in H. apply NoDup_app in H as (_ & _ & H).
      apply NoDup_app in H as (H & _ & _). simpl in H.
      apply NoDup_cons in H as [_ H]. rewrite bind_app, bind_cons in H.
      apply NoDup_app in H as (_ & H1 & H2). apply NoDup_app in H2 as (_ & H2 & _).
      simpl. rewrite bind_app, bind_cons, elem_of_cons, !elem_of_app.
      apply elem_of_app in Hin as [Hin|Hin].
      - split; [by auto|]. intros Hx'. apply (H1 x Hin).
        apply elem_of_app. by left.
      - split; [by auto|]. intros Hx'. by apply (H2 x Hx'). }
    destruct HxPE as [HxPE Hxon].
    assert (Hxf : x ∈ forestIds (fl ++ plug P on :: fr)).
    { rewrite forestIds_app, forestIds_cons, Hplug, !elem_of_app.
      right; left. by apply in_ids_plug. }
    split; [|split; [|done]].
    - intros ->. apply Hxon. rewrite <- Hid. apply nodeId_in_ids.
    - intros ->. apply (Hfresh (nodeId new)); [apply nodeId_in_ids|done]. }
  assert (HL : (old ∉ nodeId <$> l) ∧ ((nodeId new) ∉ nodeId <$> l)).
  { split; intros H; destruct (Hsib _ (proj2 (elem_of_app _ _ _) (or_introl H)))
      as (? & ? & _); done. }
  assert (HR : (old ∉ nodeId <$> r) ∧ ((nodeId new) ∉ nodeId <$> r)).
  { split; intros H; destruct (Hsib _ (proj2 (elem_of_app _ _ _) (or_intror H)))
      as (? & ? & _); done. }
  destruct HL as [HL HL'], HR as [HR HR'].
  split; [done|]. split.
  { destruct (parentNode old ((fl ++ plug P new :: fr) ++ [on])) eqn:E; [|done].
    exfalso. assert (Ha : attached old ((fl ++ plug P new :: fr) ++ [on])).
    { unfold attached. by rewrite E. }
    apply attached_iff in Ha as [_ Ha]; [|done]. apply Ha.
    rewrite swap_roots by done. rewrite elem_of_app. right.
    rewrite Hid. left. }
  split; [by eexists _, _|].
  unfold previousSibling, nextSibling. rewrite Hp', Hpar. simpl.
  rewrite Hkids, Hkids'.
  by rewrite !prevOf_at, !nextOf_at.
Qed.


(** *** Subtrees *)

Lemma ids_child_sublist c (cs : list Node) :
  c ∈ cs → ids c `sublist_of` (cs ≫= ids).
Proof.
  intros (l & r & ->)%list_elem_of_split. rewrite bind_app, bind_cons.
  by apply sublist_inserts_l, sublist_inserts_r.
Qed.

Lemma findIn_sublist i n m : findIn i n = Some m → ids m `sublist_of` ids n.
Proof.
  revert m. induction n as [j d|j ln a cs IH] using Node_rect'; simpl; intros m.
  - case_decide; [|done]. by intros [= <-].
  - case_decide; [by intros [= <-]|].
    intros (c & Hc & Hf)%firstSome_Some. rewrite Forall_forall in IH.
    apply sublist_cons. etrans; [by apply (IH c Hc)|].
    by apply ids_child_sublist.
Qed.

Lemma findNode_sublist i f m :
  findNode i f = Some m → ids m `sublist_of` forestIds f.
Proof.
  intros (n & Hn & Hf)%firstSome_Some.
  etrans; [by apply (findIn_sublist _ _ _ Hf)|]. by apply ids_child_sublist.
Qed.

Lemma findNode_NoDup i f m : wellFormed f → findNode i f = Some m → NoDup (ids m).
Proof. intros Hwf H%findNode_sublist. by eapply sublist_NoDup. Qed.

Lemma scriptsOf_sublist n : scriptsOf n `sublist_of` ids n.
Proof.
  induction n as [j d|j ln a cs IH] using Node_rect'; simpl.
  - apply sublist_nil_l.
  - assert (cs ≫= scriptsOf `sublist_of` cs ≫= ids) as Hcs.
    { induction IH as [|c cs Hc _ IHcs]; [done|].
      rewrite !bind_cons. by apply sublist_app. }
    destruct (bool_decide _); simpl;
      [by apply sublist_skip|by apply sublist_cons].
Qed.

Lemma scripts_children_sublist (cs : list Node) :
  cs ≫= scriptsOf `sublist_of` cs ≫= ids.
Proof.
  induction cs as [|c cs IH]; [done|]. rewrite !bind_cons.
  apply sublist_app; [apply scriptsOf_sublist|done].
Qed.

(** The scripts of a container are distinct nodes below it. *)
Lemma querySelectorAll_NoDup c f :
  wellFormed f → NoDup (querySelectorAll_script c f).
Proof.
  intros Hwf. unfold querySelectorAll_script.
  destruct (findNode c f) as [cn|] eqn:E; [|constructor].
  apply (findNode_NoDup _ _ _ Hwf) in E. rewrite ids_head in E.
  apply NoDup_cons in E as [_ E].
  eapply sublist_NoDup; [done|apply scripts_children_sublist].
Qed.

Lemma findNode_below i f m :
  findNode i f = Some m →
  ∀ x, x ∈ childNodes m ≫= ids → x ∈ f ≫= (λ n, childNodes n ≫= ids).
Proof.
  intros (n & Hn & Hf)%firstSome_Some x Hx. apply elem_of_bind.
  exists n. split; [done|]. destruct n as [j d|j ln a cs]; simpl in *.
  - case_decide; [|done]. injection Hf as <-. done.
  - case_decide; [injection Hf as <-; done|].
    apply firstSome_Some in Hf as (c & Hc & Hf).
    apply findIn_Some in Hf as [_ Hsub]. apply elem_of_bind.
    exists c. split; [done|]. apply Hsub. rewrite ids_head. by right.
Qed.

Lemma querySelectorAll_attached c f x :
  x ∈ querySelectorAll_script c f → attached x f.
Proof.
  unfold querySelectorAll_script.
  destruct (findNode c f) as [cn|] eqn:E; [|by intros ?%elem_of_nil].
  intros Hx. apply parentNode_is_Some. apply (findNode_below _ _ _ E).
  eapply sublist_subseteq; [apply scripts_children_sublist|done]. 
Qed.

(** Dereferencing inside a node that was itself dereferenced. *)
Lemma findIn_within c n cn x m :
  NoDup (ids n) → findIn c n = Some cn → findIn x cn = Some m →
  findIn x n = Some m.
Proof.
  revert cn. induction n as [j d|j ln a cs IH] using Node_rect'; simpl;
    intros cn Hnd.
  - case_decide; [|done]. by intros [= <-].
  - case_decide as Hc; [by intros [= <-]|].
    intros (c' & Hc' & Hf)%firstSome_Some Hx.
    apply NoDup_cons in Hnd as [Hj Hcs].
    assert (Hxc : x ∈ ids c').
    { apply (findIn_Some _ _ _ Hf). apply findIn_Some in Hx as [<- Hsub].
      apply Hsub, nodeId_in_ids. }
    rewrite decide_False.
    2:{ intros ->. apply Hj. apply elem_of_bind. eauto. }
    destruct (firstSome (findIn x) cs) as [m'|] eqn:E.
    + apply firstSome_Some in E as (c'' & Hc'' & E).
      assert (c'' = c') as ->.
      { apply (forest_disjoint cs c'' c' x Hcs); try done.
        apply findIn_Some in E as [<- Hsub]. apply Hsub, nodeId_in_ids. }
      rewrite Forall_forall in IH. rewrite <- E.
      apply (IH c' Hc' cn); try done.
      apply list_elem_of_split in Hc' as (l & r & ->).
      by apply NoDup_forest_split in Hcs as (_ & ? & _).
    + rewrite firstSome_None, Forall_forall in E.
      apply E in Hc'. by apply findIn_None in Hc'.
Qed.

Lemma findNode_within c f cn x m :
  wellFormed f → findNode c f = Some cn → findIn x cn = Some m →
  findNode x f = Some m.
Proof.
  intros Hwf (n & Hn & Hf)%firstSome_Some Hx.
  assert (Hxn : x ∈ ids n).
  { apply (findIn_Some _ _ _ Hf). apply findIn_Some in Hx as [<- Hsub].
    apply Hsub, nodeId_in_ids. }
  destruct (findNode x f) as [m'|] eqn:E.
  - apply firstSome_Some in E as (n' & Hn' & E).
    assert (n' = n) as ->.
    { apply (forest_disjoint f n' n x Hwf); try done.
      apply findIn_Some in E as [<- Hsub]. apply Hsub, nodeId_in_ids. }
    rewrite <- E. apply (findIn_within c n cn); try done.
    apply list_elem_of_split in Hn as (l & r & ->).
    by apply NoDup_forest_split in Hwf as (_ & ? & _).
  - apply findNode_None in E. destruct E. apply elem_of_forestIds. eauto.
Qed.

(** Every identity in the list of scripts refers to a script element. *)
Lemma scripts_found n x :
  NoDup (ids n) → x ∈ scriptsOf n →
  ∃ m, findIn x n = Some m ∧ isScript m = true.
Proof.
  induction n as [j d|j ln a cs IH] using Node_rect'; simpl; intros Hnd.
  - by intros ?%elem_of_nil.
  - apply NoDup_cons in Hnd as [Hj Hcs]. intros [Hx|Hx]%elem_of_app.
    + destruct (bool_decide (ln = "script")) eqn:E;
        [|by apply elem_of_nil in Hx].
      apply list_elem_of_singleton in Hx as ->. rewrite decide_True by done.
      eexists. split; [done|]. done.
    + apply elem_of_bind in Hx as (c & Hc & Hx).
      assert (Hxc : x ∈ ids c).
      { eapply sublist_subseteq; [apply scriptsOf_sublist|done]. }
      rewrite decide_False.
      2:{ intros ->. apply Hj. apply elem_of_bind. eauto. }
      rewrite Forall_forall in IH.
      destruct (IH c Hc) as (m & Hm & Hs); [|done|].
      { apply list_elem_of_split in Hc as (l & r & ->).
        by apply NoDup_forest_split in Hcs as (_ & ? & _). }
      exists m. split; [|done].
      destruct (firstSome (findIn x) cs) as [m'|] eqn:E.
      * apply firstSome_Some in E as (c' & Hc' & E).
        assert (c' = c) as ->; [|congruence].
        apply (forest_disjoint cs c' c x Hcs); try done.
        apply findIn_Some in E as [<- Hsub]. apply Hsub, nodeId_in_ids.
      * rewrite firstSome_None, Forall_forall in E.
        rewrite (E c Hc) in Hm. done.
Qed.

Lemma querySelectorAll_found c f cn x :
  wellFormed f → findNode c f = Some cn → x ∈ childNodes cn ≫= scriptsOf →
  ∃ m, findNode x f = Some m ∧ findIn x cn = Some m ∧ isScript m = true.
Proof.
  intros Hwf Hc Hx.
  destruct (scripts_found cn x) as (m & Hm & Hs).
  - by eapply findNode_NoDup.
  - destruct cn; simpl in *; [done|]. apply elem_of_app. by right.
  - exists m. split; [|done]. by eapply findNode_within.
Qed.

(** *** Scripts with text children *)

Lemma plainScripts_found x n m :
  plainScripts n = true → findIn x n = Some m → plainScripts m = true.
Proof.
  revert m. induction n as [j d|j ln a cs IH] using Node_rect';
    intros m Hp Hf; simpl in Hf.
  - case_decide; [|done]. by injection Hf as <-.
  - case_decide; [by injection Hf as <-|].
    apply firstSome_Some in Hf as (c & Hc & Hf). rewrite Forall_forall in IH.
    apply (IH c Hc); [|done]. simpl in Hp.
    apply andb_prop in Hp as [_ Hp]. rewrite forallb_forall in Hp.
    apply Hp. by apply list_elem_of_In.
Qed.

Lemma scripts_of_text (cs : list Node) :
  forallb isText cs = true → cs ≫= scriptsOf = [].
Proof.
  induction cs as [|c cs IH]; [done|]. intros H. cbn [forallb] in H.
  apply andb_prop in H as [Hc Hcs]. rewrite bind_cons, IH by done.
  by destruct c.
Qed.

Lemma plain_script_scripts n :
  plainScripts n = true → isScript n = true → scriptsOf n = [nodeId n].
Proof.
  destruct n as [j d|j ln a cs]; simpl; [done|].
  intros [H _]%andb_prop Hs. rewrite Hs in *. by rewrite scripts_of_text.
Qed.

Lemma forallb_middle {A} (g : A → bool) l x r :
  forallb g (l ++ x :: r) = forallb g l && g x && forallb g r.
Proof. rewrite forallb_app. simpl. by rewrite andb_assoc. Qed.

Lemma isText_plug p x : isText x = false → isText (plug p x) = false.
Proof. by destruct p. Qed.

(** Putting an element with plain scripts in the place of an element keeps
    the scripts plain. *)
Lemma plainScripts_plug p x y :
  plainScripts (plug p x) = true → isText x = false → isText y = false →
  plainScripts y = true → plainScripts (plug p y) = true.
Proof.
  intros Hp Hx Hy Hpy. induction p as [|j ln a l p IH r]; simpl in *; [done|].
  apply andb_prop in Hp as [H1 H2]. rewrite forallb_middle in H2.
  apply andb_prop in H2 as [H2 H4]. apply andb_prop in H2 as [H2 H3].
  rewrite !forallb_middle, H2, H4, IH by done. simpl.
  destruct (bool_decide (ln = "script")); [|done].
  rewrite forallb_middle in H1.
  apply andb_prop in H1 as [H1 _]. apply andb_prop in H1 as [_ H1].
  by rewrite isText_plug in H1.
Qed.

Lemma children_scripts_plug q :
  q ≠ Here →
  ∃ A B, ∀ y, childNodes (plug q y) ≫= scriptsOf = A ++ scriptsOf y ++ B.
Proof.
  destruct q as [|j ln a l q r]; [done|]. intros _.
  exists ((l ≫= scriptsOf) ++ scriptsBefore q),
         (scriptsAfter q ++ (r ≫= scriptsOf)).
  intros y. simpl. rewrite bind_app, bind_cons, scriptsOf_plug.
  by rewrite <- !app_assoc.
Qed.

Lemma NoDup_split_eq {A} (x : A) l1 r1 l2 r2 :
  NoDup (l1 ++ x :: r1) → l1 ++ x :: r1 = l2 ++ x :: r2 → l1 = l2 ∧ r1 = r2.
Proof.
  revert l2. induction l1 as [|a l1 IH]; intros l2 Hnd E.
  - destruct l2 as [|b l2]; simpl in *; [by injection E|].
    injection E as <- ->. apply NoDup_cons in Hnd as [Hnd _].
    destruct Hnd. apply elem_of_app. right. left.
  - destruct l2 as [|b l2]; simpl in *.
    + injection E as -> <-. apply NoDup_cons in Hnd as [Hnd _].
      destruct Hnd. apply elem_of_app. right. left.
    + injection E as <- E. apply NoDup_cons in Hnd as [_ Hnd].
      destruct (IH l2 Hnd E) as [-> ->]. done.
Qed.


Section SwapContainer.

Context (fl fr : Forest) (P : Path) (on new : Node).
Let f : Forest := fl ++ plug P on :: fr.
Let f' : Forest := (fl ++ plug P new :: fr) ++ [on].
Hypothesis Hwf : wellFormed f.

(** A container above the old child is above the new one afterwards. *)
Lemma swap_container c cn :
  findNode c f = Some cn → nodeId on ∈ childNodes cn ≫= ids →
  ∃ q, q ≠ Here ∧ cn = plug q on ∧ findNode c f' = Some (plug q new).
Proof.
  intros Hc Hon.
  destruct (findNode_located fl P on fr c cn Hwf Hc)
    as [(q & Hq & -> & HX & H)|[Hin|(HX & Hdis & H)]].
  - exists q. split; [done|split; [done|]].
    unfold f', findNode. rewrite firstSome_app.
    fold (findNode c (fl ++ plug P new :: fr)). by rewrite H.
  - exfalso.
    assert (Hnd : NoDup (ids on)).
    { pose proof Hwf as H. apply NoDup_forest_split in H as (_ & H & _).
      rewrite ids_plug in H. apply NoDup_app in H as (_ & _ & H).
      by apply NoDup_app in H as (H & _ & _). }
    rewrite ids_head in Hnd. apply NoDup_cons in Hnd as [Hnd _].
    apply Hnd. assert (Hf : findNode c [on] = Some cn).
    { unfold findNode. simpl. by rewrite Hin. }
    pose proof (findNode_below _ _ _ Hf _ Hon) as Hb.
    simpl in Hb. by rewrite app_nil_r in Hb.
  - exfalso. apply (Hdis (nodeId on)); [|apply nodeId_in_ids].
    rewrite ids_head. by right.
Qed.

End SwapContainer.

End DomFacts.

(* ------------------------------------------------------------------------- *)
(** ** The replacement element *)

Module BuildFacts.
Import Dom Rehydrate Shape Spec DomFacts.

Lemma foldl_setAttribute i ln a0 cs (l : list (string * string)) :
  foldl (λ n attr, setAttribute attr.1 attr.2 n) (Element i ln a0 cs) l
  = Element i ln (foldl (λ m attr, <[attr.1 := attr.2]> m) a0 l) cs.
Proof. revert a0. induction l as [|[k v] l IH]; intros a0; simpl; [done|apply IH]. Qed.

Lemma foldl_insert_union (l : list (string * string)) (acc : gmap string string) :
  NoDup (l.*1) →
  foldl (λ m attr, <[attr.1 := attr.2]> m) acc l = list_to_map l ∪ acc.
Proof.
  revert acc. induction l as [|[k v] l IH]; intros acc; simpl.
  - intros _. by rewrite (left_id_L ∅ (∪)).
  - intros [Hk Hl]%NoDup_cons. rewrite IH by done.
    rewrite <- insert_union_l. symmetry. apply insert_union_r.
    by apply not_elem_of_list_to_map_1.
Qed.

(** Copying the attributes one by one rebuilds the attribute map. *)
Lemma foldl_insert_attributes (m : gmap string string) :
  foldl (λ acc attr, <[attr.1 := attr.2]> acc) ∅ (map_to_list m) = m.
Proof.
  rewrite foldl_insert_union by apply NoDup_fst_map_to_list.
  by rewrite (right_id_L ∅ (∪)), list_to_map_to_list.
Qed.

Lemma string_app_nil_r (s : string) : s +:+ "" = s.
Proof.
  induction s as [|c s IH]; [done|].
  change (String c (s +:+ "") = String c s). by rewrite IH.
Qed.

Lemma buildReplacement_eq f on :
  buildReplacement f on
  = Element (freshId f) "script" (attributes on)
      (if decide (textContent on = "") then []
       else [Text (S (freshId f)) (textContent on)]).
Proof.
  unfold buildReplacement, createElement.
  by rewrite foldl_setAttribute, foldl_insert_attributes.
Qed.

Lemma buildReplacement_attributes f on :
  attributes (buildReplacement f on) = attributes on.
Proof. by rewrite buildReplacement_eq. Qed.

Lemma buildReplacement_textContent f on :
  textContent (buildReplacement f on) = textContent on.
Proof.
  rewrite buildReplacement_eq. simpl. case_decide as E; simpl; [done|].
  apply string_app_nil_r.
Qed.

Lemma buildReplacement_nodeId f on : nodeId (buildReplacement f on) = freshId f.
Proof. by rewrite buildReplacement_eq. Qed.

Lemma buildReplacement_isScript f on : isScript (buildReplacement f on) = true.
Proof. by rewrite buildReplacement_eq. Qed.

Lemma buildReplacement_isText f on : isText (buildReplacement f on) = false.
Proof. by rewrite buildReplacement_eq. Qed.

Lemma buildReplacement_plain f on : plainScripts (buildReplacement f on) = true.
Proof. rewrite buildReplacement_eq. simpl. by case_decide. Qed.

Lemma buildReplacement_scripts f on :
  scriptsOf (buildReplacement f on) = [nodeId (buildReplacement f on)].
Proof.
  apply plain_script_scripts;
    [apply buildReplacement_plain|apply buildReplacement_isScript].
Qed.

Lemma buildReplacement_NoDup f on : NoDup (ids (buildReplacement f on)).
Proof.
  rewrite buildReplacement_eq. simpl. case_decide; simpl.
  - apply NoDup_singleton.
  - apply NoDup_cons. split; [|apply NoDup_singleton].
    intros ?%list_elem_of_singleton. lia.
Qed.

Lemma buildReplacement_fresh f on x :
  x ∈ ids (buildReplacement f on) → x ∉ forestIds f.
Proof.
  rewrite buildReplacement_eq. simpl. intros Hx Hf%freshId_gt.
  case_decide; simpl in Hx.
  - apply list_elem_of_singleton in Hx. lia.
  - apply elem_of_cons in Hx as [?|?%list_elem_of_singleton]; lia.
Qed.

End BuildFacts.

(* ------------------------------------------------------------------------- *)
(** ** A pass, whatever the scripts do *)

Module PassFacts.
Import Dom Rehydrate Shape Spec DomFacts BuildFacts.

Lemma schedule_snoc k olds news old new :
  length news = length olds →
  schedule k (olds ++ [old]) (news ++ [new])
  = schedule k olds news
      ++ [Swapped (k + length olds) old new; Completed (k + length olds)].
Proof.
  revert k news. induction olds as [|o olds IH]; intros k [|n news]; simpl;
    try done.
  - intros _. by rewrite Nat.add_0_r.
  - intros [= E]. rewrite IH by done. by rewrite Nat.add_succ_r.
Qed.

Lemma sequential_schedule k olds rest news :
  sequential k (olds ++ rest) (schedule k olds news).
Proof.
  revert k news. induction olds as [|o olds IH]; intros k news; simpl.
  - destruct rest; constructor.
  - destruct news as [|n news]; [constructor|]. constructor. apply IH.
Qed.

Lemma sequential_schedule_open k olds old rest news n :
  length news = length olds →
  sequential k (olds ++ old :: rest)
    (schedule k olds news ++ [Swapped (k + length olds) old n]).
Proof.
  revert k news. induction olds as [|o olds IH]; intros k [|n' news]; simpl;
    try done.
  - intros _. rewrite Nat.add_0_r. constructor.
  - intros [= E]. constructor. rewrite <- Nat.add_succ_comm. by apply IH.
Qed.

Lemma swappedOut_schedule k olds news :
  length news = length olds → swappedOut (schedule k olds news) = olds.
Proof.
  revert k news. induction olds as [|o olds IH]; intros k [|n news]; simpl;
    try done.
  intros [= E]. change (o :: swappedOut (schedule (S k) olds news) = o :: olds).
  by rewrite IH.
Qed.

Lemma swappedOut_app tr1 tr2 :
  swappedOut (tr1 ++ tr2) = swappedOut tr1 ++ swappedOut tr2.
Proof. apply bind_app. Qed.

Lemma take_lookup_split {A} (l : list A) i x :
  l !! i = Some x → l = take i l ++ x :: drop (S i) l.
Proof. intros H. by rewrite <- (take_drop_middle l i x H) at 1. Qed.

Lemma length_take_lookup {A} (l : list A) i x :
  l !! i = Some x → length (take i l) = i.
Proof. intros H%lookup_lt_Some. rewrite length_take. lia. Qed.

(** Whatever its status, a pass has handled the scripts one after the
    other, in the order of the list. *)
Lemma progress_sequential scripts st tr :
  progress scripts st tr → sequential 0 scripts tr.
Proof.
  destruct st as [|scripts' i n| |]; simpl.
  - intros (news & Hl & ->).
    rewrite <- (app_nil_r scripts) at 1. apply sequential_schedule.
  - intros (-> & news & old & Hl & Hi & ->).
    rewrite (take_lookup_split scripts i old Hi) at 1.
    pose proof (sequential_schedule_open 0 (take i scripts) old
                  (drop (S i) scripts) news n) as H.
    rewrite (length_take_lookup _ _ _ Hi) in H. by apply H.
  - intros (news & i & Hl & Hi & ->).
    rewrite <- (take_drop i scripts) at 1. apply sequential_schedule.
  - intros (news & i & old & n & Hl & Hi & ->).
    rewrite (take_lookup_split scripts i old Hi) at 1.
    pose proof (sequential_schedule_open 0 (take i scripts) old
                  (drop (S i) scripts) news n) as H.
    rewrite (length_take_lookup _ _ _ Hi) in H. by apply H.
Qed.

(** The originals swapped out so far are an initial segment of the list,
    and the whole list when the pass is done. *)
Lemma progress_swappedOut scripts st tr :
  progress scripts st tr →
  swappedOut tr `prefix_of` scripts ∧ (st = Done → swappedOut tr = scripts).
Proof.
  destruct st as [|scripts' i n| |]; simpl.
  - intros (news & Hl & ->). rewrite swappedOut_schedule by done. done.
  - intros (-> & news & old & Hl & Hi & ->). split; [|done].
    rewrite swappedOut_app, swappedOut_schedule
      by (by rewrite (length_take_lookup _ _ _ Hi)).
    exists (drop (S i) scripts). simpl. rewrite <- app_assoc.
    apply (take_lookup_split _ _ _ Hi).
  - intros (news & i & Hl & Hi & ->). split; [|done].
    rewrite swappedOut_schedule by (rewrite length_take; lia).
    apply prefix_take.
  - intros (news & i & old & n & Hl & Hi & ->). split; [|done].
    rewrite swappedOut_app, swappedOut_schedule
      by (by rewrite (length_take_lookup _ _ _ Hi)).
    exists (drop (S i) scripts). simpl. rewrite <- app_assoc.
    apply (take_lookup_split _ _ _ Hi).
Qed.

Section AnyScripts.

Variable reflectURL : string → string.
Variable run : Node → Forest → Forest.

Lemma trace_inserted s w : trace (inserted run s w) = trace w.
Proof. unfold inserted. by destruct (attributes s !! "src"). Qed.

Lemma drop_lookup_cons {A} (l : list A) k x rest :
  drop k l = x :: rest → l !! k = Some x ∧ drop (S k) l = rest.
Proof.
  intros E. split.
  - by rewrite <- (Nat.add_0_r k), <- lookup_drop, E.
  - replace (S k) with (k + 1) by lia. by rewrite <- drop_drop, E.
Qed.

Lemma runRest_progress scripts w0 rest k w news :
  drop k scripts = rest → k ≤ length scripts → length news = k →
  trace w = trace w0 ++ schedule 0 (take k scripts) news →
  ∃ tr, trace (runRest reflectURL run scripts rest k w).2 = trace w0 ++ tr
        ∧ progress scripts (runRest reflectURL run scripts rest k w).1 tr.
Proof.
  revert k w news. induction rest as [|old rest IH]; intros k w news Hd Hk Hl Ht.
  - simpl. eexists. split; [done|]. simpl.
    assert (k = length scripts) as ->.
    { apply drop_nil_inv in Hd. lia. }
    rewrite firstn_all. by exists news.
  - apply drop_lookup_cons in Hd as [Hi Hd]. simpl.
    assert (HT : ∃ tr, trace w = trace w0 ++ tr ∧ progress scripts Threw tr).
    { eexists. split; [done|]. exists news, k. split; [done|split; [|done]].
      by apply lookup_lt_Some in Hi. }
    destruct (findNode old (dom w)) as [on|]; [|done].
    destruct (parentNode old (dom w)) as [par|]; [|done].
    set (new := buildReplacement (dom w) on).
    destruct (truthy (src reflectURL new)).
    { simpl. eexists. split; [by rewrite Ht, <- app_assoc|].
      simpl. split; [done|]. by exists news, old. }
    destruct (truthy (srcNow reflectURL new _)).
    { simpl. rewrite trace_inserted. simpl.
      eexists. split; [by rewrite Ht, <- app_assoc|].
      simpl. by exists news, k, old, new. }
    apply (IH (S k) _ (news ++ [new])); try done.
    + by apply lookup_lt_Some in Hi.
    + rewrite length_app. simpl. lia.
    + simpl. rewrite trace_inserted. simpl.
      rewrite Ht, <- !app_assoc. f_equal.
      rewrite (take_S_r _ _ _ Hi), schedule_snoc
        by (by rewrite (length_take_lookup _ _ _ Hi)).
      by rewrite (length_take_lookup _ _ _ Hi).
Qed.

Lemma executeScripts_progress c w :
  let st := executeScripts reflectURL run c w in
  ∃ tr, trace st.2 = trace w ++ tr
        ∧ progress (querySelectorAll_script c (dom w)) st.1 tr.
Proof.
  apply (runRest_progress _ w _ 0 w []); try done.
  - simpl. lia.
  - simpl. by rewrite app_nil_r.
Qed.

Lemma fire_progress scripts w0 sig st tr :
  trace st.2 = trace w0 ++ tr → progress scripts st.1 tr →
  ∃ tr', trace (fire reflectURL run sig st).2 = trace w0 ++ tr'
         ∧ progress scripts (fire reflectURL run sig st).1 tr'.
Proof.
  intros Ht Hp. unfold fire.
  destruct st as [[|scripts' i n| |] w]; simpl in *; try by eexists.
  destruct Hp as (-> & news & old & Hl & Hi & ->).
  apply (runRest_progress _ w0 _ (S i) _ (news ++ [n])); try done.
  - by apply lookup_lt_Some in Hi.
  - rewrite length_app. simpl. lia.
  - assert (trace (match sig with
                   | Load => executeScript run n w
                   | Error => w
                   end) = trace w) as Hw by (by destruct sig).
    simpl. rewrite Hw, Ht, <- !app_assoc. f_equal.
    rewrite (take_S_r _ _ _ Hi), schedule_snoc
      by (by rewrite (length_take_lookup _ _ _ Hi)).
    rewrite (length_take_lookup _ _ _ Hi). by rewrite <- ?app_assoc.
Qed.

Lemma deliver_progress scripts w0 sigs st tr :
  trace st.2 = trace w0 ++ tr → progress scripts st.1 tr →
  ∃ tr', trace (deliver reflectURL run sigs st).2 = trace w0 ++ tr'
         ∧ progress scripts (deliver reflectURL run sigs st).1 tr'.
Proof.
  revert st tr. induction sigs as [|sig sigs IH]; intros st tr Ht Hp; simpl.
  - by eexists.
  - destruct (fire_progress scripts w0 sig st tr Ht Hp) as (tr' & Ht' & Hp').
    by apply (IH _ tr').
Qed.

(** A pass and any signals after it: the trace grows by the events of a
    pass over the scripts the container had when the pass began. *)
Lemma pass_progress c w sigs :
  let st := deliver reflectURL run sigs (executeScripts reflectURL run c w) in
  ∃ tr, trace st.2 = trace w ++ tr
        ∧ progress (querySelectorAll_script c (dom w)) st.1 tr.
Proof.
  destruct (executeScripts_progress c w) as (tr & Ht & Hp).
  by apply (deliver_progress _ w sigs _ tr).
Qed.

End AnyScripts.

End PassFacts.

(* ------------------------------------------------------------------------- *)
(** ** A pass over scripts that leave the nodes in place *)

Module Completion.
Import Dom Rehydrate Shape Spec DomFacts BuildFacts PassFacts.

Section Conservative.

Variable reflectURL : string → string.
Variable run : Node → Forest → Forest.
Hypothesis Hcons : conservative run.

Lemma ready_run attrs rest s f :
  ready attrs rest f → ready attrs rest (run s f).
Proof.
  intros [Hwf H]. destruct (Hcons s f Hwf) as (Hwf' & Ha & Hm).
  split; [done|]. intros x Hx. destruct (H x Hx) as (Hx1 & m & Hx2 & Hx3).
  split; [by apply Ha|]. destruct (Hm x m Hx2) as (m' & ? & ?).
  exists m'. split; [done|congruence].
Qed.

Lemma ready_tail attrs old rest f :
  ready attrs (old :: rest) f → ready attrs rest f.
Proof. intros [Hwf H]. split; [done|]. intros x Hx. apply H. by right. Qed.

(** The swap of line 202 keeps the heap ready for the scripts that
    follow, and the replacement is where its identity leads. *)
Lemma ready_swap attrs old rest f par on :
  ready attrs (old :: rest) f → old ∉ rest →
  parentNode old f = Some par → findNode old f = Some on →
  let new := buildReplacement f on in
  ready attrs rest (replaceChild par new old f)
  ∧ findNode (nodeId new) (replaceChild par new old f) = Some new.
Proof.
  intros [Hwf H] Hold Hpar Hon new.
  destruct (swap_shape f old par on Hwf Hpar Hon)
    as (fl & fr & p & ln & a & l & r & -> & Hid & Hswap).
  rewrite Hswap. set (P := extend p (childOf par ln a l r)) in *.
  assert (HP : P ≠ Here) by (by apply extend_ne).
  assert (Hnew : NoDup (ids new)) by apply buildReplacement_NoDup.
  assert (Hfresh : ∀ x, x ∈ ids new → x ∉ forestIds (fl ++ plug P on :: fr))
    by apply buildReplacement_fresh.
  split; [split|].
  - by apply swap_wellFormed.
  - intros x Hx. destruct (H x) as (Hx1 & m & Hx2 & Hx3); [by right|].
    split.
    + apply swap_attached; try done. rewrite Hid. by intros ->.
    + destruct (swap_find fl fr P on new Hwf Hfresh x m Hx2)
        as (m' & ? & _ & ? & _).
      exists m'. split; [done|congruence].
  - by apply swap_find_new.
Qed.

Lemma deliver_Done sigs w :
  deliver reflectURL run sigs (Done, w) = (Done, w).
Proof. induction sigs as [|sig sigs IH]; simpl; [done|apply IH]. Qed.

Lemma src_attributes m m' :
  attributes m' = attributes m → src reflectURL m' = src reflectURL m.
Proof. unfold src. by intros ->. Qed.

(** Given a signal for every script that might need one, the pass handles
    every script of the list, once and in order. *)
Lemma runRest_completes attrs scripts rest k w sigs :
  drop k scripts = rest → NoDup rest → ready attrs rest (dom w) →
  length rest ≤ length sigs →
  ∃ w' news ex,
    deliver reflectURL run sigs (runRest reflectURL run scripts rest k w)
    = (Done, w')
    ∧ wellFormed (dom w')
    ∧ length news = length rest
    ∧ trace w' = trace w ++ schedule k rest news
    ∧ executed w' = executed w ++ ex
    ∧ ex `sublist_of` news
    ∧ ((∀ v, reflectURL v ≠ "") → Forall (eq Load) sigs → ex = news)
    ∧ Forall2 (λ old new, attributes new = attrs old ∧ isScript new = true)
        rest news.
Proof.
  revert k w sigs.
  induction rest as [|old rest IH]; intros k w sigs Hd Hnd Hr Hsigs.
  - simpl. rewrite deliver_Done. exists w, [], [].
    rewrite !app_nil_r. destruct Hr. repeat split; try done.
  - apply drop_lookup_cons in Hd as [Hi Hd].
    apply NoDup_cons in Hnd as [Hold Hnd].
    destruct (proj2 Hr old) as ([par Hpar] & on & Hon & Hattrs); [left|].
    simpl runRest. rewrite Hon, Hpar.
    destruct (ready_swap attrs old rest (dom w) par on Hr Hold Hpar Hon)
      as [Hr1 Hfind].
    set (new := buildReplacement (dom w) on) in *.
    set (f1 := replaceChild par new old (dom w)) in *.
    assert (Hhead : attributes new = attrs old ∧ isScript new = true).
    { split; [|apply buildReplacement_isScript].
      unfold new. by rewrite buildReplacement_attributes. }
    destruct (truthy (src reflectURL new)) eqn:Esrc.
    + (* an external script: the pass waits for its signal *)
      destruct sigs as [|sig sigs]; [simpl in Hsigs; lia|].
      simpl in Hsigs. simpl deliver. unfold fire. simpl.
      unfold runNext. rewrite Hd.
      set (w3 := observe _ _).
      assert (Hr3 : ready attrs rest (dom w3)).
      { unfold w3. destruct sig; simpl; [by apply ready_run|done]. }
      destruct (IH (S k) w3 sigs Hd Hnd Hr3) as
        (w' & news & ex & Hrun & Hwf' & Hlen & Htr & Hex & Hsub & Hall & Hf2);
        [lia|].
      exists w', (new :: news),
        (match sig with Load => [new] | Error => [] end ++ ex).
      split; [done|]. split; [done|]. split; [by simpl; rewrite Hlen|].
      split.
      { rewrite Htr. unfold w3. simpl.
        assert (∀ w1, trace (match sig with
                             | Load => executeScript run new w1
                             | Error => w1
                             end) = trace w1) as -> by (by destruct sig).
        simpl. by rewrite <- !app_assoc. }
      split.
      { rewrite Hex. unfold w3. destruct sig; simpl; [|done].
        by rewrite <- app_assoc. }
      split.
      { destruct sig; simpl; [by apply sublist_skip|by apply sublist_cons]. }
      split; [|by constructor].
      intros Hrefl [<- Hloads]%Forall_cons. simpl. f_equal. by apply Hall.
    + (* a script without [src]: it runs at the swap and the pass goes on *)
      set (w1 := observe (Swapped k old new) _).
      assert (Hr2 : ready attrs rest (dom (inserted run new w1))).
      { unfold inserted. destruct (attributes new !! "src"); simpl; [done|].
        by apply ready_run. }
      assert (Hsrc : truthy (srcNow reflectURL new (dom (inserted run new w1)))
                     = false).
      { unfold srcNow, inserted.
        destruct (attributes new !! "src") eqn:Ea; simpl.
        - fold f1. by rewrite Hfind.
        - fold f1. destruct Hr1 as [Hwf1 _].
          destruct (Hcons new f1 Hwf1) as (_ & _ & Hm).
          destruct (Hm _ _ Hfind) as (m' & -> & Hm'). simpl.
          by rewrite (src_attributes _ _ Hm'). }
      rewrite Hsrc.
      set (w3 := observe (Completed k) _).
      destruct (IH (S k) w3 sigs Hd Hnd Hr2) as
        (w' & news & ex & Hrun & Hwf' & Hlen & Htr & Hex & Hsub & Hall & Hf2);
        [simpl in Hsigs; lia|].
      exists w', (new :: news),
        (match attributes new !! "src" with Some _ => [] | None => [new] end
           ++ ex).
      split; [done|]. split; [done|]. split; [by simpl; rewrite Hlen|].
      split.
      { rewrite Htr. unfold w3. simpl. rewrite trace_inserted. simpl.
        by rewrite <- !app_assoc. }
      split.
      { rewrite Hex. unfold w3, inserted. simpl.
        destruct (attributes new !! "src"); simpl; [done|].
        by rewrite <- app_assoc. }
      split.
      { destruct (attributes new !! "src"); simpl;
          [by apply sublist_cons|by apply sublist_skip]. }
      split; [|by constructor].
      intros Hrefl Hloads.
      destruct (attributes new !! "src") as [v|] eqn:Ea; simpl.
      * exfalso. unfold truthy, src in Esrc. rewrite Ea in Esrc.
        apply bool_decide_eq_false in Esrc. apply Esrc, Hrefl.
      * f_equal. by apply Hall.
Qed.

(** At the start of a pass the heap is ready for the scripts of the
    container. *)
Lemma ready_start c f :
  wellFormed f →
  ready (attributesOf f) (querySelectorAll_script c f) f.
Proof.
  intros Hwf. split; [done|]. intros x Hx.
  split; [by eapply querySelectorAll_attached|].
  destruct (attached_found f x) as [m Hm];
    [by eapply querySelectorAll_attached|].
  exists m. split; [done|]. unfold attributesOf. by rewrite Hm.
Qed.

(** A whole pass: every script of the container, as it was when the pass
    began, is replaced once and in document order, and the replacements
    run in that order. *)
Lemma pass_completes c w sigs :
  wellFormed (dom w) →
  length (querySelectorAll_script c (dom w)) ≤ length sigs →
  ∃ w' news ex,
    deliver reflectURL run sigs (executeScripts reflectURL run c w)
    = (Done, w')
    ∧ wellFormed (dom w')
    ∧ length news = length (querySelectorAll_script c (dom w))
    ∧ trace w' = trace w ++ schedule 0 (querySelectorAll_script c (dom w)) news
    ∧ executed w' = executed w ++ ex
    ∧ ex `sublist_of` news
    ∧ ((∀ v, reflectURL v ≠ "") → Forall (eq Load) sigs → ex = news)
    ∧ Forall2 (λ old new, attributes new = attributesOf (dom w) old
                          ∧ isScript new = true)
        (querySelectorAll_script c (dom w)) news.
Proof.
  intros Hwf Hsigs. unfold executeScripts, runNext.
  apply runRest_completes; try done.
  - by apply querySelectorAll_NoDup.
  - by apply ready_start.
Qed.

End Conservative.

Lemma inert_conservative : conservative inert.
Proof.
  intros s f Hwf. unfold inert. split; [done|]. split; [done|]. eauto.
Qed.

End Completion.

(* ------------------------------------------------------------------------- *)
(** ** Passes over scripts that leave the DOM alone *)

Module InertPass.
Import Dom Rehydrate Shape Spec DomFacts BuildFacts PassFacts Completion.

(** What [replaceChild] does to a well-formed heap, in one place. *)
Lemma replaceChild_facts f old par on new :
  wellFormed f → parentNode old f = Some par → findNode old f = Some on →
  NoDup (ids new) → (∀ x, x ∈ ids new → x ∉ forestIds f) →
  let f1 := replaceChild par new old f in
  wellFormed f1
  ∧ findNode (nodeId new) f1 = Some new
  ∧ (∀ j m, findNode j f = Some m →
       ∃ m', findNode j f1 = Some m'
             ∧ attributes m' = attributes m
             ∧ (textContent new = textContent on →
                textContent m' = textContent m))
  ∧ (∀ c cn, findNode c f = Some cn → old ∈ childNodes cn ≫= ids →
       ∃ q, q ≠ Here ∧ cn = plug q on ∧ findNode c f1 = Some (plug q new)).
Proof.
  intros Hwf Hpar Hon Hnew Hfresh.
  destruct (swap_shape f old par on Hwf Hpar Hon)
    as (fl & fr & p & ln & a & l & r & -> & Hid & Hswap).
  intros f1. unfold f1. rewrite Hswap. clear f1.
  set (P := extend p (childOf par ln a l r)) in *.
  assert (HP : P ≠ Here) by (by apply extend_ne).
  split; [by apply swap_wellFormed|]. split; [by apply swap_find_new|].
  split.
  - intros j m Hm.
    destruct (swap_find fl fr P on new Hwf Hfresh j m Hm)
      as (m' & ? & _ & ? & _ & ?). by exists m'.
  - intros c cn Hc Hin. rewrite <- Hid in Hin.
    by apply (swap_container fl fr P on new Hwf c cn).
Qed.

Lemma descriptorsOf_app f l1 l2 :
  descriptorsOf f (l1 ++ l2) = descriptorsOf f l1 ++ descriptorsOf f l2.
Proof. apply fmap_app. Qed.

Lemma descriptorsOf_cons f x l :
  descriptorsOf f (x :: l) = (descriptor <$> findNode x f) :: descriptorsOf f l.
Proof. done. Qed.

Lemma descriptorsOf_ext f f1 (l : list NodeId) :
  (∀ x, x ∈ l → descriptor <$> findNode x f1 = descriptor <$> findNode x f) →
  descriptorsOf f1 l = descriptorsOf f l.
Proof.
  intros H. unfold descriptorsOf. apply list_fmap_ext.
  intros i x Hx%list_elem_of_lookup_2. by apply H.
Qed.

(** The swap of one script of a container whose scripts are plain: the
    container has the replacement where the original was in its list of
    scripts, and the descriptors along that list are what they were. *)
Lemma plain_swap c f cn done old rest :
  wellFormed f → findNode c f = Some cn → plainScripts cn = true →
  childNodes cn ≫= scriptsOf = done ++ old :: rest →
  ∃ on par cn1,
    findNode old f = Some on ∧ parentNode old f = Some par
    ∧ let new := buildReplacement f on in
      let f1 := replaceChild par new old f in
      wellFormed f1
      ∧ findNode (nodeId new) f1 = Some new
      ∧ findNode c f1 = Some cn1
      ∧ plainScripts cn1 = true
      ∧ childNodes cn1 ≫= scriptsOf = (done ++ [nodeId new]) ++ rest
      ∧ descriptorsOf f1 (done ++ nodeId new :: rest)
        = descriptorsOf f (done ++ old :: rest).
Proof.
  intros Hwf Hc Hplain Hqs.
  assert (Hold : old ∈ childNodes cn ≫= scriptsOf).
  { rewrite Hqs, elem_of_app. right. left. }
  destruct (querySelectorAll_found c f cn old Hwf Hc Hold)
    as (on & Hon & Honc & Hscript).
  assert (Hidon : nodeId on = old) by (by apply findNode_Some in Hon as [? _]).
  assert (Hplainon : plainScripts on = true) by (by eapply plainScripts_found).
  assert (Hson : scriptsOf on = [old]).
  { rewrite <- Hidon. by apply plain_script_scripts. }
  assert (Hatt : attached old f).
  { apply (querySelectorAll_attached c). unfold querySelectorAll_script.
    by rewrite Hc. }
  destruct Hatt as [par Hpar].
  exists on, par.
  set (new := buildReplacement f on).
  set (f1 := replaceChild par new old f).
  destruct (replaceChild_facts f old par on new Hwf Hpar Hon)
    as (Hwf1 & Hnew & Hfind & Hcont);
    [apply buildReplacement_NoDup|apply buildReplacement_fresh|].
  fold f1 in Hwf1, Hnew, Hfind, Hcont.
  destruct (Hcont c cn Hc) as (q & Hq & -> & Hc1).
  { eapply sublist_subseteq; [apply scripts_children_sublist|done]. }
  destruct (children_scripts_plug q Hq) as (A & B & HAB).
  assert (Hsplit : A = done ∧ B = rest).
  { apply (NoDup_split_eq old).
    - change (NoDup (A ++ [old] ++ B)). rewrite <- Hson, <- (HAB on).
      pose proof (querySelectorAll_NoDup c f Hwf) as H.
      unfold querySelectorAll_script in H. by rewrite Hc in H.
    - by rewrite <- Hqs, HAB, Hson. }
  destruct Hsplit as [-> ->].
  exists (plug q new). split; [done|]. split; [done|].
  cbv zeta. fold new. fold f1.
  split; [done|]. split; [done|]. split; [done|]. split.
  { apply (plainScripts_plug q on); try done.
    - by destruct on.
    - apply buildReplacement_isText.
    - apply buildReplacement_plain. }
  split.
  { unfold new. by rewrite HAB, buildReplacement_scripts, <- app_assoc. }
  assert (Hdesc : ∀ x, x ∈ done ++ old :: rest →
            descriptor <$> findNode x f1 = descriptor <$> findNode x f).
  { intros x Hx. rewrite <- Hqs in Hx.
    destruct (querySelectorAll_found c f _ x Hwf Hc Hx) as (m & Hm & _).
    destruct (Hfind x m Hm) as (m' & -> & Ha & Ht).
    rewrite Hm. simpl. unfold descriptor. rewrite Ha, Ht; [done|].
    apply buildReplacement_textContent. }
  rewrite !descriptorsOf_app, !descriptorsOf_cons. f_equal; [|f_equal].
  - apply descriptorsOf_ext. intros x Hx. apply Hdesc.
    apply elem_of_app. by left.
  - rewrite Hnew, Hon. simpl. unfold descriptor, new.
    by rewrite buildReplacement_attributes, buildReplacement_textContent.
  - apply descriptorsOf_ext. intros x Hx. apply Hdesc.
    apply elem_of_app. right. by right.
Qed.

Section Inert.

Variable reflectURL : string → string.

Lemma src_absent n :
  attributes n !! "src" = None → truthy (src reflectURL n) = false.
Proof.
  unfold truthy, src. intros ->. apply bool_decide_eq_false.
  intros H. by apply H.
Qed.

Lemma src_present n :
  truthy (src reflectURL n) = true → ¬ inlineNode n.
Proof.
  unfold truthy, src, inlineNode. intros H E. rewrite E in H.
  by apply bool_decide_eq_true in H.
Qed.

(** One pass, with its signals, over the remaining scripts [rest] of a
    container whose scripts are plain: each is replaced by an element with
    the same descriptor; of the replacements, those without [src] have all
    run, in order; and the container ends up with the same sequence of
    script descriptors. *)
Lemma inert_pass c scripts rest k w done cn sigs :
  wellFormed (dom w) → findNode c (dom w) = Some cn →
  plainScripts cn = true →
  childNodes cn ≫= scriptsOf = done ++ rest →
  drop k scripts = rest → length rest ≤ length sigs →
  ∃ w' news ex cn',
    deliver reflectURL inert sigs (runRest reflectURL inert scripts rest k w)
    = (Done, w')
    ∧ wellFormed (dom w')
    ∧ findNode c (dom w') = Some cn'
    ∧ plainScripts cn' = true
    ∧ childNodes cn' ≫= scriptsOf = done ++ (nodeId <$> news)
    ∧ executed w' = executed w ++ ex
    ∧ filter inlineNode ex = filter inlineNode news
    ∧ descriptorsOf (dom w') (done ++ (nodeId <$> news))
      = descriptorsOf (dom w) (done ++ rest)
    ∧ (Some ∘ descriptor) <$> news = descriptorsOf (dom w) rest.
Proof.
  revert k w done cn sigs.
  induction rest as [|old rest IH];
    intros k w done cn sigs Hwf Hc Hplain Hqs Hd Hsigs.
  - exists w, [], [], cn. simpl. rewrite deliver_Done.
    rewrite app_nil_r in Hqs. rewrite !app_nil_r. repeat split; done.
  - apply drop_lookup_cons in Hd as [Hi Hd].
    destruct (plain_swap c (dom w) cn done old rest Hwf Hc Hplain Hqs)
      as (on & par & cn1 & Hon & Hpar & Hwf1 & Hnew & Hc1 & Hplain1 & Hqs1
          & Hdesc).
    set (new := buildReplacement (dom w) on) in *.
    set (f1 := replaceChild par new old (dom w)) in *.
    assert (Hhead : descriptor <$> findNode old (dom w)
                    = Some (descriptor new)).
    { rewrite Hon. simpl. unfold descriptor, new.
      by rewrite buildReplacement_attributes, buildReplacement_textContent. }
    assert (Htail : descriptorsOf f1 rest = descriptorsOf (dom w) rest).
    { rewrite !descriptorsOf_app, !descriptorsOf_cons in Hdesc.
      apply app_inj_1 in Hdesc as [_ Hdesc];
        [|by unfold descriptorsOf; rewrite !length_fmap].
      by injection Hdesc. }
    (* what is left to do once the pass has moved on *)
    assert (Hnext : ∀ w3 sigs' exhead,
      dom w3 = f1 → executed w3 = executed w ++ exhead →
      filter inlineNode exhead = filter inlineNode [new] →
      length rest ≤ length sigs' →
      ∃ w' news ex cn',
        deliver reflectURL inert sigs'
          (runRest reflectURL inert scripts rest (S k) w3) = (Done, w')
        ∧ wellFormed (dom w')
        ∧ findNode c (dom w') = Some cn'
        ∧ plainScripts cn' = true
        ∧ childNodes cn' ≫= scriptsOf = done ++ (nodeId <$> news)
        ∧ executed w' = executed w ++ ex
        ∧ filter inlineNode ex = filter inlineNode news
        ∧ descriptorsOf (dom w') (done ++ (nodeId <$> news))
          = descriptorsOf (dom w) (done ++ old :: rest)
        ∧ (Some ∘ descriptor) <$> news = descriptorsOf (dom w) (old :: rest)).
    { intros w3 sigs' exhead Hdom Hex3 Hfilt Hlen.
      assert (Hwf3 : wellFormed (dom w3)) by (by rewrite Hdom).
      assert (Hc3 : findNode c (dom w3) = Some cn1) by (by rewrite Hdom).
      destruct (IH (S k) w3 (done ++ [nodeId new]) cn1 sigs'
                  Hwf3 Hc3 Hplain1 Hqs1 Hd Hlen)
        as (w' & news & ex & cn' & Hrun & Hwf' & Hc' & Hplain' & Hqs' & Hex
            & Hf & Hd1 & Hd2).
      exists w', (new :: news), (exhead ++ ex), cn'.
      split; [done|]. split; [done|]. split; [done|]. split; [done|].
      split; [by rewrite Hqs', <- app_assoc|].
      split; [by rewrite Hex, Hex3, <- app_assoc|].
      split.
      { rewrite filter_app, Hfilt, Hf.
        change (new :: news) with ([new] ++ news). by rewrite filter_app. }
      split.
      { rewrite fmap_cons.
        replace (done ++ nodeId new :: (nodeId <$> news))
          with ((done ++ [nodeId new]) ++ (nodeId <$> news))
          by (by rewrite <- app_assoc).
        rewrite Hd1, Hdom, <- app_assoc. exact Hdesc. }
      rewrite fmap_cons, Hd2, Hdom, descriptorsOf_cons, Hhead, Htail. done. }
    simpl runRest. rewrite Hon, Hpar. fold new. fold f1.
    destruct (truthy (src reflectURL new)) eqn:Esrc.
    + (* external: the pass waits for the signal *)
      destruct sigs as [|sig sigs]; [simpl in Hsigs; lia|].
      simpl in Hsigs. simpl deliver. unfold fire. simpl.
      unfold runNext. rewrite Hd.
      apply (Hnext _ sigs match sig with Load => [new] | Error => [] end);
        [by destruct sig
        |destruct sig; simpl; [done|by rewrite app_nil_r]| |lia].
      rewrite (filter_cons_False _ new []) by (by apply src_present).
      destruct sig; [|done].
      by rewrite (filter_cons_False _ new []) by (by apply src_present).
    + (* the script is taken for an inline one *)
      assert (Hsrc : truthy (srcNow reflectURL new
                               (dom (inserted inert new
                                  (observe (Swapped k old new)
                                     {| dom := f1; trace := trace w;
                                        executed := executed w |}))))
                     = false).
      { unfold srcNow, inserted.
        destruct (attributes new !! "src"); simpl; unfold inert;
          by rewrite Hnew. }
      rewrite Hsrc.
      apply (Hnext _ sigs
               match attributes new !! "src" with
               | Some _ => []
               | None => [new]
               end); [| | |simpl in Hsigs; lia].
      * unfold inserted. by destruct (attributes new !! "src").
      * unfold inserted. destruct (attributes new !! "src"); simpl;
          [by rewrite app_nil_r|done].
      * destruct (attributes new !! "src") eqn:Ea; [|done].
        rewrite (filter_cons_False _ new []); [done|].
        unfold inlineNode. by rewrite Ea.
Qed.

(** A whole pass over a container whose scripts are plain. *)
Lemma inert_pass_whole c w cn sigs :
  wellFormed (dom w) → findNode c (dom w) = Some cn →
  plainScripts cn = true →
  length (querySelectorAll_script c (dom w)) ≤ length sigs →
  ∃ w' news ex cn',
    deliver reflectURL inert sigs (executeScripts reflectURL inert c w)
    = (Done, w')
    ∧ wellFormed (dom w')
    ∧ findNode c (dom w') = Some cn'
    ∧ plainScripts cn' = true
    ∧ querySelectorAll_script c (dom w') = nodeId <$> news
    ∧ executed w' = executed w ++ ex
    ∧ filter inlineNode ex = filter inlineNode news
    ∧ descriptorsOf (dom w') (nodeId <$> news)
      = descriptorsOf (dom w) (querySelectorAll_script c (dom w))
    ∧ (Some ∘ descriptor) <$> news
      = descriptorsOf (dom w) (querySelectorAll_script c (dom w)).
Proof.
  intros Hwf Hc Hplain Hsigs.
  assert (Hs : querySelectorAll_script c (dom w) = childNodes cn ≫= scriptsOf).
  { unfold querySelectorAll_script. by rewrite Hc. }
  destruct (inert_pass c (querySelectorAll_script c (dom w))
              (querySelectorAll_script c (dom w)) 0 w [] cn sigs
              Hwf Hc Hplain)
    as (w' & news & ex & cn' & Hrun & Hwf' & Hc' & Hplain' & Hqs & Hex & Hf
        & Hd1 & Hd2); try done.
  exists w', news, ex, cn'. repeat split; try done.
  unfold querySelectorAll_script. by rewrite Hc'.
Qed.

End Inert.

(** Replacements with the descriptors of the scripts of a heap: as many of
    them are inline as of those scripts. *)
Lemma inline_count f (l : list NodeId) (news : list Node) :
  (Some ∘ descriptor) <$> news = descriptorsOf f l →
  length (filter inlineNode news) = length (filter (inline f) l).
Proof.
  revert l. induction news as [|n news IH]; intros [|x l]; try done.
  rewrite fmap_cons, descriptorsOf_cons. intros [= Hx E].
  specialize (IH l E).
  destruct (findNode x f) as [m|] eqn:Hm; [|done]. injection Hx as Ha _.
  destruct (decide (inlineNode n)) as [Hn|Hn].
  - rewrite filter_cons_True, filter_cons_True; [by simpl; rewrite IH| |done].
    unfold inline. rewrite Hm. unfold inlineNode in *. by rewrite <- Ha.
  - rewrite filter_cons_False, filter_cons_False; [done| |done].
    unfold inline. rewrite Hm. unfold inlineNode in *. by rewrite <- Ha.
Qed.

End InertPass.

(* ------------------------------------------------------------------------- *)
(** ** Every swap is faithful *)

Module FaithfulFacts.
Import Dom Rehydrate Shape Spec DomFacts BuildFacts PassFacts.

Section AnyScripts.

Variable reflectURL : string → string.
Variable run : Node → Forest → Forest.

Lemma runRest_faithful scripts rest k w :
  ∃ tr, trace (runRest reflectURL run scripts rest k w).2 = trace w ++ tr
        ∧ Forall faithful tr.
Proof.
  revert k w. induction rest as [|old rest IH]; intros k w; simpl.
  - exists []. by rewrite app_nil_r.
  - assert (H0 : ∃ tr, trace w = trace w ++ tr ∧ Forall faithful tr).
    { exists []. by rewrite app_nil_r. }
    destruct (findNode old (dom w)) as [on|] eqn:Hon; [|done].
    destruct (parentNode old (dom w)) as [par|]; [|done].
    set (new := buildReplacement (dom w) on).
    assert (Hf : faithful (Swapped k old new)) by (by exists (dom w), on).
    destruct (truthy (src reflectURL new)).
    { simpl. eexists. split; [done|]. by repeat constructor. }
    destruct (truthy (srcNow reflectURL new _)).
    { simpl. rewrite trace_inserted. simpl. eexists. split; [done|].
      by repeat constructor. }
    match goal with
    | |- context [runRest _ _ _ _ _ ?w3] =>
        destruct (IH (S k) w3) as (tr & -> & Htr)
    end.
    simpl. rewrite trace_inserted. simpl.
    exists (Swapped k old new :: Completed k :: tr).
    split; [by rewrite <- !app_assoc|]. by repeat constructor.
Qed.

Lemma fire_faithful sig st :
  ∃ tr, trace (fire reflectURL run sig st).2 = trace st.2 ++ tr
        ∧ Forall faithful tr.
Proof.
  unfold fire. destruct st as [[|scripts i n| |] w]; simpl;
    try (exists []; by rewrite app_nil_r).
  unfold runNext.
  match goal with
  | |- context [runRest _ _ _ ?rest ?k ?w3] =>
      destruct (runRest_faithful scripts rest k w3) as (tr & -> & Htr)
  end.
  exists (Completed i :: tr). split; [|by constructor].
  simpl. rewrite <- app_assoc. by destruct sig.
Qed.

Lemma deliver_faithful sigs st :
  ∃ tr, trace (deliver reflectURL run sigs st).2 = trace st.2 ++ tr
        ∧ Forall faithful tr.
Proof.
  revert st. induction sigs as [|sig sigs IH]; intros st; simpl.
  - exists []. by rewrite app_nil_r.
  - destruct (IH (fire reflectURL run sig st)) as (tr2 & -> & H2).
    destruct (fire_faithful sig st) as (tr1 & -> & H1).
    exists (tr1 ++ tr2). split; [by rewrite app_assoc|].
    by apply Forall_app.
Qed.

Lemma pass_faithful c w sigs :
  ∃ tr,
    trace (deliver reflectURL run sigs (executeScripts reflectURL run c w)).2
    = trace w ++ tr
    ∧ Forall faithful tr.
Proof.
  destruct (deliver_faithful sigs (executeScripts reflectURL run c w))
    as (tr2 & -> & H2).
  unfold executeScripts, runNext.
  match goal with
  | |- context [runRest _ _ ?s ?rest ?k ?w3] =>
      destruct (runRest_faithful s rest k w3) as (tr1 & -> & H1)
  end.
  exists (tr1 ++ tr2). split; [by rewrite app_assoc|]. by apply Forall_app.
Qed.

(** [runNext] as the source writes it: by cases on [scripts[index]]. *)
Lemma runNext_lookup scripts k w old :
  scripts !! k = Some old →
  runNext reflectURL run scripts k w
  = runRest reflectURL run scripts (old :: drop (S k) scripts) k w.
Proof. intros H. unfold runNext. by rewrite (drop_S _ _ _ H). Qed.

Lemma runNext_end scripts k w :
  length scripts ≤ k → runNext reflectURL run scripts k w = (Done, w).
Proof. intros H. unfold runNext. by rewrite drop_ge. Qed.

(** The recursion on the rest of the list is the recursion of the source
    on the index. *)
Lemma runNext_unfold scripts index w :
  runNext reflectURL run scripts index w
  = match scripts !! index with
    | None => (Done, w)
    | Some oldScript =>
        match findNode oldScript (dom w) with
        | None => (Threw, w)
        | Some oldNode =>
            let newScript := buildReplacement (dom w) oldNode in
            match parentNode oldScript (dom w) with
            | None => (Threw, w)
            | Some parent =>
                let w1 :=
                  observe (Swapped index oldScript newScript)
                    {| dom := replaceChild parent newScript oldScript (dom w);
                       trace := trace w; executed := executed w |} in
                if truthy (src reflectURL newScript)
                then (Waiting scripts index newScript, w1)
                else
                  let w2 := inserted run newScript w1 in
                  if truthy (srcNow reflectURL newScript (dom w2))
                  then (Stalled, w2)
                  else runNext reflectURL run scripts (S index)
                         (observe (Completed index) w2)
            end
        end
    end.
Proof.
  destruct (scripts !! index) as [old|] eqn:E.
  - by rewrite (runNext_lookup _ _ _ _ E).
  - apply runNext_end. by apply lookup_ge_None.
Qed.

End AnyScripts.

End FaithfulFacts.

(* ------------------------------------------------------------------------- *)
(** ** Scripts that append to the container *)

Module AppendFacts.
Import Dom Rehydrate Shape Spec DomFacts Examples.

Lemma nodeId_appendIn c n t : nodeId (appendIn c n t) = nodeId t.
Proof. destruct t; simpl; [done|]. by case_decide. Qed.

Lemma appendIn_id c n t : c ∉ ids t → appendIn c n t = t.
Proof.
  induction t as [j d|j ln a cs IH] using Node_rect'; simpl; [done|].
  intros [Hj Hcs]%not_elem_of_cons.
  rewrite decide_False by done. f_equal.
  rewrite <- (list_fmap_id cs) at 2. apply list_fmap_ext.
  intros k ch Hch%list_elem_of_lookup_2.
  rewrite Forall_forall in IH. apply IH; [done|].
  intros Hc. apply Hcs. apply elem_of_bind. eauto.
Qed.

Lemma appendIn_forest_id c n (f : Forest) :
  c ∉ forestIds f → appendIn c n <$> f = f.
Proof.
  intros Hf. rewrite <- (list_fmap_id f) at 2. apply list_fmap_ext.
  intros k ch Hch%list_elem_of_lookup_2. apply appendIn_id.
  intros Hc. apply Hf. apply elem_of_forestIds. eauto.
Qed.

Lemma appendIn_forest_ids c n (f : Forest) :
  Forall (λ t, NoDup (ids t) →
               ids (appendIn c n t) = ids t
               ∨ ids (appendIn c n t) ≡ₚ ids t ++ ids n) f →
  NoDup (forestIds f) →
  forestIds (appendIn c n <$> f) = forestIds f
  ∨ forestIds (appendIn c n <$> f) ≡ₚ forestIds f ++ ids n.
Proof.
  intros IH Hnd. destruct (decide (c ∈ forestIds f)) as [Hc|Hc];
    [|left; by rewrite appendIn_forest_id].
  apply elem_of_forestIds in Hc as (t & Ht & Hc).
  apply list_elem_of_split in Ht as (l & r & ->).
  apply NoDup_forest_split in Hnd as (_ & Hn & _ & Hl & _ & Hr).
  rewrite Forall_app, Forall_cons in IH. destruct IH as (_ & IHt & _).
  rewrite fmap_app, fmap_cons, !forestIds_app, !forestIds_cons.
  rewrite !appendIn_forest_id.
  - destruct (IHt Hn) as [->|E]; [by left|right].
    rewrite E. solve_Permutation.
  - intros H. by apply (Hr c).
  - intros H. by apply (Hl c H).
Qed.

Lemma appendIn_ids c n t :
  NoDup (ids t) →
  ids (appendIn c n t) = ids t ∨ ids (appendIn c n t) ≡ₚ ids t ++ ids n.
Proof.
  induction t as [j d|j ln a cs IH] using Node_rect'; simpl; [by left|].
  intros [Hj Hcs]%NoDup_cons. case_decide as Hd; simpl.
  - right. rewrite bind_app. simpl. by rewrite app_nil_r.
  - destruct (appendIn_forest_ids c n cs IH Hcs) as [E|E].
    + left. f_equal. exact E.
    + right. f_equiv. exact E.
Qed.

Lemma appendChild_ids c n f :
  wellFormed f →
  forestIds (appendChild c n f) = forestIds f
  ∨ forestIds (appendChild c n f) ≡ₚ forestIds f ++ ids n.
Proof.
  intros Hwf. apply appendIn_forest_ids; [|done].
  apply Forall_forall. intros t _. apply appendIn_ids.
Qed.

Lemma appendChild_roots c n f : nodeId <$> appendChild c n f = nodeId <$> f.
Proof.
  unfold appendChild. rewrite <- list_fmap_compose. apply list_fmap_ext.
  intros k t _. apply nodeId_appendIn.
Qed.

Lemma ids_appendIn_within c n t x :
  x ∈ ids (appendIn c n t) → x ∈ ids t ∨ x ∈ ids n.
Proof.
  induction t as [j d|j ln a cs IH] using Node_rect'; simpl; [by left|].
  case_decide; simpl.
  - rewrite bind_app. simpl. rewrite app_nil_r, !elem_of_cons, elem_of_app.
    tauto.
  - rewrite !elem_of_cons. intros [->|Hx]; [by left; left|].
    apply elem_of_bind in Hx as (t' & Ht' & Hx).
    apply list_elem_of_fmap in Ht' as (t & -> & Ht).
    rewrite Forall_forall in IH. destruct (IH t Ht Hx) as [?|?]; [|by right].
    left. right. apply elem_of_bind. eauto.
Qed.

Lemma findIn_appendIn_None c n t j :
  j ∉ ids n → findIn j t = None → findIn j (appendIn c n t) = None.
Proof.
  rewrite !findIn_None. intros Hn Ht [?|?]%ids_appendIn_within; done.
Qed.

Lemma find_children_appendIn c n (cs : list Node) j m :
  j ∉ ids n →
  Forall (λ t, ∀ m, findIn j t = Some m →
                 ∃ m', findIn j (appendIn c n t) = Some m'
                       ∧ attributes m' = attributes m) cs →
  firstSome (findIn j) cs = Some m →
  ∃ m', firstSome (findIn j) (appendIn c n <$> cs) = Some m'
        ∧ attributes m' = attributes m.
Proof.
  intros Hn IH. induction IH as [|t cs Ht _ IHcs]; simpl; [done|].
  destruct (findIn j t) as [m0|] eqn:E.
  - intros [= ->]. destruct (Ht m eq_refl) as (m' & -> & ?). by exists m'.
  - intros H. rewrite (findIn_appendIn_None c n t j Hn E). by apply IHcs.
Qed.

Lemma findIn_appendIn c n t j m :
  j ∉ ids n → findIn j t = Some m →
  ∃ m', findIn j (appendIn c n t) = Some m' ∧ attributes m' = attributes m.
Proof.
  intros Hn. revert m.
  induction t as [i d|i ln a cs IH] using Node_rect'; simpl; intros m.
  - case_decide; [|done]. intros [= <-]. by eexists.
  - case_decide as Hj.
    + intros [= <-]. case_decide; simpl; rewrite decide_True by done;
        by eexists.
    + intros Hm. case_decide; simpl; rewrite decide_False by done.
      * exists m. split; [|done]. by rewrite firstSome_app, Hm.
      * by apply find_children_appendIn.
Qed.

Lemma findNode_appendChild c n f j m :
  j ∉ ids n → findNode j f = Some m →
  ∃ m', findNode j (appendChild c n f) = Some m'
        ∧ attributes m' = attributes m.
Proof.
  intros Hn. apply find_children_appendIn; [done|].
  apply Forall_forall. intros t _ m'. by apply findIn_appendIn.
Qed.

(** A script that appends a new script element to the container leaves
    the nodes there are in place. *)
Lemma appendScript_conservative c : conservative (appendScript c).
Proof.
  intros s f Hwf. unfold appendScript.
  set (n := Element (freshId f) "script" ∅ [Text (S (freshId f)) "later()"]).
  assert (Hfresh : ∀ x, x ∈ ids n → x ∉ forestIds f).
  { intros x Hx Hf%freshId_gt. simpl in Hx.
    apply elem_of_cons in Hx as [?|?%list_elem_of_singleton]; lia. }
  assert (Hn : NoDup (ids n)).
  { simpl. apply NoDup_cons. split; [|apply NoDup_singleton].
    intros ?%list_elem_of_singleton. lia. }
  assert (Hwf' : wellFormed (appendChild c n f)).
  { unfold wellFormed. destruct (appendChild_ids c n f Hwf) as [->| ->];
      [done|].
    apply NoDup_app. split; [done|]. split; [|done].
    intros x Hx Hx'. by apply (Hfresh x). }
  assert (Hsub : ∀ x, x ∈ forestIds f → x ∈ forestIds (appendChild c n f)).
  { intros x Hx. destruct (appendChild_ids c n f Hwf) as [->|E]; [done|].
    rewrite E. apply elem_of_app. by left. }
  split; [done|]. split.
  - intros j. rewrite !attached_iff by done. intros [Hj Hr]. split.
    + by apply Hsub.
    + by rewrite appendChild_roots.
  - intros j m Hm. apply findNode_appendChild; [|done].
    intros Hj. apply (Hfresh j Hj). apply findNode_Some in Hm as [<- Hsub'].
    apply Hsub', nodeId_in_ids.
Qed.

End AppendFacts.

(* ------------------------------------------------------------------------- *)
(** ** The statements of the specification *)

Module Claims.
Import Dom Rehydrate Shape Spec DomFacts BuildFacts PassFacts Completion.
Import InertPass FaithfulFacts AppendFacts Examples.

Ltac by_computation := apply (bool_decide_unpack _); vm_compute; exact I.

Lemma resolve_nonempty v : resolve v ≠ "".
Proof. unfold resolve. intros H. discriminate H. Qed.

Lemma scenario_wellFormed : wellFormed scenario.
Proof. unfold wellFormed. by_computation. Qed.



(** The scenario with [slow.js] loading and with [slow.js] failing: the
    same three swaps either way; the scripts after it run in both. *)
Lemma scenario_two_ways :
  let loaded :=
    deliver resolve inert [Load] (executeScripts resolve inert 1 (fresh scenario)) in
  let failed :=
    deliver resolve inert [Error] (executeScripts resolve inert 1 (fresh scenario)) in
  loaded.1 = Done ∧ failed.1 = Done
  ∧ swappedOut (trace loaded.2) = [4; 6; 7]
  ∧ swappedOut (trace failed.2) = [4; 6; 7]
  ∧ textContent <$> executed loaded.2 = ["log.push(1)"; ""; "log.push(3)"]
  ∧ textContent <$> executed failed.2 = ["log.push(1)"; "log.push(3)"].
Proof. vm_compute. repeat split. Qed.




(** The attributes [data-x="1" data-y="2"] arrive on the replacement, and
    nothing else does. *)
Lemma attribute_fidelity :
  let st := executeScripts resolve inert 1 (fresh twoInline) in
  descriptor <$> executed st.2
  = [({[ "data-x" := "1"; "data-y" := "2" ]}, "log.push(1)");
     (∅, "log.push(2)")].
Proof. vm_compute. reflexivity. Qed.

(** C4. On a well-formed heap, the swap of line 202 puts the replacement
    under the parent the original had, between the same siblings; the
    original has no parent afterwards. *)
Theorem replacement_position f old par oldScript :
  wellFormed f → parentNode old f = Some par →
  findNode old f = Some oldScript →
  let newScript := buildReplacement f oldScript in
  let f' := replaceChild par newScript old f in
  parentNode (nodeId newScript) f' = Some par
  ∧ parentNode old f' = None
  ∧ (∃ L R, childIds par f = L ++ old :: R
            ∧ childIds par f' = L ++ nodeId newScript :: R)
  ∧ previousSibling (nodeId newScript) f' = previousSibling old f
  ∧ nextSibling (nodeId newScript) f' = nextSibling old f.
Proof.
  intros Hwf Hpar Hon. apply (replaceChild_position f old par oldScript);
    try done.
  - apply buildReplacement_NoDup.
  - apply buildReplacement_fresh.
Qed.

Lemma replacement_position_witness :
  let newScript := buildReplacement scenario (Element 6 "script" {[ "src" := "slow.js" ]} []) in
  let f' := replaceChild 1 newScript 6 scenario in
  parentNode (nodeId newScript) f' = Some 1
  ∧ parentNode 6 f' = None
  ∧ (∃ L R, childIds 1 scenario = L ++ 6 :: R
            ∧ childIds 1 f' = L ++ nodeId newScript :: R)
  ∧ previousSibling (nodeId newScript) f' = previousSibling 6 scenario
  ∧ nextSibling (nodeId newScript) f' = nextSibling 6 scenario.
Proof.
  apply (replacement_position scenario 6 1).
  - apply scenario_wellFormed.
  - reflexivity.
  - reflexivity.
Defined.



(** An empty [src]. Resolved against the base it reads as the URL of the
    document and the script waits for its signal; read as it is written it
    is falsy, the pass moves on at once, and the browser, which goes by the
    attribute, runs nothing for it. *)
Lemma empty_src_two_readings :
  let resolved := executeScripts resolve inert 1 (fresh emptySrc) in
  let asWritten := executeScripts verbatim inert 1 (fresh emptySrc) in
  isWaiting resolved.1 = true ∧ executed resolved.2 = []
  ∧ asWritten.1 = Done
  ∧ swappedOut (trace asWritten.2) = [2; 4]
  ∧ textContent <$> executed asWritten.2 = ["next()"].
Proof. vm_compute. repeat split. Qed.

(** C6. On a container without script elements a pass returns at once:
    the DOM, the trace and the list of executed scripts are what they
    were, and nothing is left waiting. *)
Theorem no_scripts_no_effect reflectURL run c w :
  querySelectorAll_script c (dom w) = [] →
  executeScripts reflectURL run c w = (Done, w).
Proof. intros H. unfold executeScripts. by rewrite H. Qed.

Lemma no_scripts_no_effect_witness :
  executeScripts resolve (appendScript 1) 1 (fresh noScripts)
  = (Done, fresh noScripts).
Proof.
  apply (no_scripts_no_effect resolve (appendScript 1) 1 (fresh noScripts)).
  reflexivity.
Defined.


Lemma twoInline_wellFormed : wellFormed twoInline.
Proof. unfold wellFormed. by_computation. Qed.



(** Two inline scripts, two passes: four runs. *)
Lemma twice_counts :
  let w1 := (executeScripts resolve inert 1 (fresh twoInline)).2 in
  let w2 := (executeScripts resolve inert 1 w1).2 in
  textContent <$> executed w2
  = ["log.push(1)"; "log.push(2)"; "log.push(1)"; "log.push(2)"].
Proof. vm_compute. reflexivity. Qed.

(** The scenario, loaded and then failing: the inline scripts run in both
    passes, the external one in the first only. *)
Lemma twice_mixed :
  let w1 :=
    (deliver resolve inert [Load]
       (executeScripts resolve inert 1 (fresh scenario))).2 in
  let w2 := (deliver resolve inert [Error] (executeScripts resolve inert 1 w1)).2 in
  attributes <$> executed w2
  = [∅; {[ "src" := "slow.js" ]}; ∅; ∅; ∅]
  ∧ textContent <$> filter inlineNode (executed w2)
    = ["log.push(1)"; "log.push(3)"; "log.push(1)"; "log.push(3)"].
Proof. vm_compute. split; reflexivity. Qed.



(** Scripts that add script elements to the container: the pass handles
    the two that were there, and leaves the container with four. *)
Lemma scripts_added_meanwhile :
  let st := executeScripts resolve (appendScript 1) 1 (fresh twoInline) in
  querySelectorAll_script 1 twoInline = [2; 5]
  ∧ st.1 = Done
  ∧ swappedOut (trace st.2) = [2; 5]
  ∧ length (querySelectorAll_script 1 (dom st.2)) = 4.
Proof. vm_compute. repeat split. Qed.

(** A script that takes a later script out of the tree: the pass stops
    with the TypeError of line 202, one swap done. *)
Lemma script_removed_meanwhile :
  let st := executeScripts resolve (removeScript 5) 1 (fresh twoInline) in
  st.1 = Threw ∧ swappedOut (trace st.2) = [2].
Proof. vm_compute. repeat split. Qed.

End Claims.

(* ------------------------------------------------------------------------- *)
(** ** The tool *)

Module ToolClaims.
Import Dom Rehydrate Spec RawTool Examples.

(** C8, as the code has it. The stored markup is [data.html || '']: the
    empty string when the field is absent or falsy, and the field itself
    when it is truthy, so that a string is always stored as it is, and so
    is a truthy value that is not a string. *)
Theorem constructor_html :
  (∀ data config api readOnly,
     html (constructor data config api readOnly)
     = if JS.truthy (JS.get data "html") then JS.get data "html"
       else JS.String "")
  ∧ (∀ data config api readOnly s,
       html (constructor (<["html" := JS.String s]> data) config api readOnly)
       = JS.String s)
  ∧ (∀ data config api readOnly,
       html (constructor (delete "html" data) config api readOnly)
       = JS.String "").
Proof.
  split; [done|]. split.
  - intros data config api readOnly s. unfold constructor, JS.get. simpl.
    rewrite lookup_insert_eq. simpl. unfold JS.or. simpl.
    by case_bool_decide; subst.
  - intros data config api readOnly. unfold constructor, JS.get. simpl.
    by rewrite lookup_delete_eq.
Qed.

(** C8, as the claim has it, fails on a number. *)
Lemma constructor_number_kept :
  let data : gmap string JS.Value := {[ "html" := JS.Number 42 ]} in
  JS.isString (JS.get data "html") = false
  ∧ html (constructor data ∅ cdx (JS.Bool true)) = JS.Number 42
  ∧ html (constructor data ∅ cdx (JS.Bool true)) ≠ JS.String "".
Proof. vm_compute. repeat split. discriminate. Qed.



(** In read-only mode the timer of [render], once it fires, runs the
    script of the stored markup. *)
Lemma render_then_timer :
  let tool :=
    constructor {[ "html" := JS.String "alert(1)" ]} ∅ cdx (JS.Bool true) in
  let p' := (render parseAsScript tool emptyPage).2 in
  executed (world p') = []
  ∧ textContent
      <$> executed (world (runTask resolve inert (ExecuteScripts 4) p').2)
    = ["alert(1)"].
Proof. vm_compute. repeat split. Qed.

End ToolClaims.

(* ------------------------------------------------------------------------- *)
(** ** [render] *)

Module RenderFacts.
Import Dom Rehydrate Spec RawTool Form Markup Examples DomFacts BuildFacts.

Lemma findNode_new_root (f : Forest) n :
  nodeId n ∉ forestIds f → findNode (nodeId n) (f ++ [n]) = Some n.
Proof.
  intros H. unfold findNode. rewrite firstSome_app.
  fold (findNode (nodeId n) f).
  apply findNode_None in H. rewrite H. simpl. by rewrite findIn_root.
Qed.

Lemma freshId_fresh f : freshId f ∉ forestIds f.
Proof. intros H%freshId_gt. lia. Qed.

(** The heap after [render]: the wrapper is its newest root. *)
Lemma render_dom parseHTML t p :
  let r := render parseHTML t p in
  ∃ cls attrs,
    dom (world r.2)
    = dom (world p)
        ++ [Element r.1.1 "div" cls
              (Element (S r.1.1) "textarea" attrs
                 (if decide (JS.toMarkup (html t) = "") then []
                  else [Text (S (S r.1.1)) (JS.toMarkup (html t))])
               :: (if JS.truthy (readOnly t)
                   then [Element (S (S (S r.1.1))) "div" ∅
                           (parseHTML (S (S (S (S r.1.1))))
                              (JS.toMarkup (html t)))]
                   else []))]
    ∧ r.1.1 = freshId (dom (world p))
    ∧ attrs !! "placeholder" = Some (JS.toString (placeholder t)).
Proof.
  intros r. unfold r, render. cbv zeta.
  destruct (JS.truthy (readOnly t)); cbn [fst snd setTimeout world dom];
    cbn [setAttribute setTextContent];
    eexists _, _; (split; [reflexivity|split; [done|]]);
    by simplify_map_eq.
Qed.

(** The wrapper [render] returns, as the heap has it. *)
Lemma render_wrapper parseHTML t p :
  let r := render parseHTML t p in
  ∃ cls attrs rest,
    findNode r.1.1 (dom (world r.2))
    = Some (Element r.1.1 "div" cls
              (Element (S r.1.1) "textarea" attrs
                 (if decide (JS.toMarkup (html t) = "") then []
                  else [Text (S (S r.1.1)) (JS.toMarkup (html t))])
               :: rest))
    ∧ attrs !! "placeholder" = Some (JS.toString (placeholder t)).
Proof.
  intros r.
  destruct (render_dom parseHTML t p) as (cls & attrs & Hd & Hr & Hp).
  fold r in Hd, Hr. rewrite Hd. eexists cls, attrs, _. split; [|done].
  match goal with
  | |- findNode _ (_ ++ [?n]) = _ =>
      apply (findNode_new_root (dom (world p)) n)
  end.
  cbn [nodeId]. rewrite Hr. apply freshId_fresh.
Qed.

(** What [render] does to the tool and to the page around the heap. *)
Lemma render_page parseHTML t p :
  let r := render parseHTML t p in
  let c := S (S (S r.1.1)) in
  textarea r.1.2 = Some (S r.1.1)
  ∧ resizeDebounce r.1.2 = resizeDebounce t
  ∧ readOnly r.1.2 = readOnly t
  ∧ timers r.2
    = timers p
        ++ (if JS.truthy (readOnly t)
            then [{| timerId := nextTimer p; delay := 100;
                     task := ExecuteScripts c |};
                  {| timerId := S (nextTimer p); delay := 100;
                     task := Resize |}]
            else [{| timerId := nextTimer p; delay := 100; task := Resize |}])
  ∧ nextTimer r.2
    = (if JS.truthy (readOnly t) then 2 else 1) + nextTimer p
  ∧ inputListeners r.2
    = inputListeners p ++ (if JS.truthy (readOnly t) then [] else [S r.1.1])
  ∧ executed (world r.2) = executed (world p)
  ∧ trace (world r.2) = trace (world p).
Proof.
  intros r c. unfold c, r, render. cbv zeta.
  destruct (JS.truthy (readOnly t)); simpl; repeat split;
    by rewrite <- ?app_assoc, ?app_nil_r.
Qed.

End RenderFacts.

(* ------------------------------------------------------------------------- *)
(** ** [save] *)

Module SaveFacts.
Import Dom Rehydrate Spec RawTool Form Markup Examples DomFacts BuildFacts.
Import RenderFacts.

Lemma normalizeNewlines_clean s :
  hasCR s = false → normalizeNewlines s = s.
Proof.
  induction s as [|c s IH]; [done|]. simpl.
  intros [Hc Hs]%orb_false_iff. apply bool_decide_eq_false in Hc.
  rewrite decide_False by done. by rewrite IH.
Qed.

Lemma normalizeNewlines_hasCR s : hasCR (normalizeNewlines s) = false.
Proof.
  cut (hasCR (normalizeNewlines s) = false
       ∧ ∀ c, hasCR (normalizeNewlines (String c s)) = false); [by intros []|].
  induction s as [|c' s [IH1 IH2]].
  - split; [done|]. intros c. simpl. case_decide; [done|]. simpl.
    by rewrite bool_decide_false.
  - split; [apply IH2|]. intros c.
    change (hasCR
              (if decide (c = CR) then
                 String LF (if decide (c' = LF) then normalizeNewlines s
                            else normalizeNewlines (String c' s))
               else String c (normalizeNewlines (String c' s))) = false).
    case_decide as Hc.
    + change (hasCR (if decide (c' = LF) then normalizeNewlines s
                     else normalizeNewlines (String c' s)) = false).
      case_decide; [apply IH1|apply IH2].
    + change (bool_decide (c = CR) || hasCR (normalizeNewlines (String c' s))
              = false).
      rewrite IH2. by rewrite bool_decide_false.
Qed.

Lemma normalizeNewlines_idemp s :
  normalizeNewlines (normalizeNewlines s) = normalizeNewlines s.
Proof. apply normalizeNewlines_clean, normalizeNewlines_hasCR. Qed.

(** What [save] reads in the wrapper of [render]: the text area of the
    tool. *)
Lemma save_render parseHTML t p vals :
  let r := render parseHTML t p in
  textarea r.1.2 = Some (S r.1.1)
  ∧ save vals r.1.1 (dom (world r.2))
    = Returns {[ "html" :=
        JS.String (normalizeNewlines
                     (default (JS.toMarkup (html t)) (vals !! S r.1.1))) ]}.
Proof.
  intros r.
  destruct (render_wrapper parseHTML t p) as (cls & attrs & rest & Hw & _).
  destruct (render_page parseHTML t p) as (Ht & _).
  fold r in Hw, Ht. split; [done|].
  unfold save. rewrite Hw. simpl. unfold value. simpl.
  destruct (vals !! _); [done|]. simpl.
  unfold childTextContent. simpl. case_decide as E; simpl; [by rewrite E|].
  by rewrite string_app_nil_r.
Qed.


Lemma constructor_string data config api ro s :
  data !! "html" = Some (JS.String s) →
  html (constructor data config api ro) = JS.String s.
Proof.
  intros H. unfold constructor, JS.get, JS.or. simpl. rewrite H. simpl.
  case_bool_decide as E; [done|]. f_equal. symmetry.
  by destruct (decide (s = "")).
Qed.

(** X2. The round trip of the stored markup: a tool made from data whose
    [html] is a string without carriage returns, rendered and saved before
    the user types, gives that string back. *)
Theorem save_round_trip parseHTML data config api ro p vals s :
  data !! "html" = Some (JS.String s) → hasCR s = false →
  let r := render parseHTML (constructor data config api ro) p in
  (∀ area, textarea r.1.2 = Some area → vals !! area = None) →
  save vals r.1.1 (dom (world r.2)) = Returns {[ "html" := JS.String s ]}.
Proof.
  intros Hd Hs r Hv. unfold r in *. clear r.
  destruct (save_render parseHTML (constructor data config api ro) p vals)
    as [Ht Hsave].
  rewrite Hsave. specialize (Hv _ Ht). unfold NodeId in *. rewrite Hv.
  rewrite (constructor_string data config api ro s Hd). simpl.
  by rewrite normalizeNewlines_clean.
Qed.

Lemma save_round_trip_witness :
  save ∅ 1
    (dom (world
       (render parseAsScript
          (constructor {[ "html" := JS.String "<b>hi</b>" ]} ∅ cdx
             (JS.Bool false)) emptyPage).2))
  = Returns {[ "html" := JS.String "<b>hi</b>" ]}.
Proof.
  apply (save_round_trip parseAsScript {[ "html" := JS.String "<b>hi</b>" ]}
           ∅ cdx (JS.Bool false) emptyPage ∅ "<b>hi</b>").
  - reflexivity.
  - reflexivity.
  - intros area _. apply lookup_empty.
Defined.

(** A carriage return in the stored markup does not survive the round
    trip: CR LF comes back as LF. *)
Lemma save_normalizes_newlines :
  let stored := "a" +:+ String CR (String LF "b") in
  save ∅ 1
    (dom (world
       (render parseAsScript
          (constructor {[ "html" := JS.String stored ]} ∅ cdx (JS.Bool false))
          emptyPage).2))
  = Returns {[ "html" := JS.String ("a" +:+ String LF "b") ]}.
Proof. reflexivity. Qed.

(** X3. What [save] returns is stable: data that some [save] has returned,
    given to a new tool that is rendered and saved before the user types,
    comes back as it is. *)
Theorem save_reload parseHTML vals0 wrapper0 f0 d config api ro p vals :
  save vals0 wrapper0 f0 = Returns d →
  let r := render parseHTML (constructor d config api ro) p in
  (∀ area, textarea r.1.2 = Some area → vals !! area = None) →
  save vals r.1.1 (dom (world r.2)) = Returns d.
Proof.
  intros Hsv r Hv. unfold r in *. clear r. unfold save in Hsv.
  destruct (findNode wrapper0 f0 ≫= querySelector "textarea") as [a0|];
    [|done].
  injection Hsv as <-.
  destruct (save_render parseHTML
              (constructor {[ "html" := JS.String (value vals0 a0) ]}
                 config api ro) p vals) as [Ht Hsave].
  rewrite Hsave. specialize (Hv _ Ht). unfold NodeId in *. rewrite Hv.
  rewrite (constructor_string _ config api ro (value vals0 a0))
    by apply lookup_singleton_eq.
  simpl. unfold value. by rewrite normalizeNewlines_idemp.
Qed.

Lemma save_reload_witness :
  save ∅ 1
    (dom (world
       (render parseAsScript
          (constructor {[ "html" := JS.String "typed" ]} ∅ cdx (JS.Bool true))
          emptyPage).2))
  = Returns {[ "html" := JS.String "typed" ]}.
Proof.
  apply (save_reload parseAsScript {[ 2 := "typed" ]} 1
           [Element 1 "div" ∅ [Element 2 "textarea" ∅ [Text 3 "stored"]]]
           {[ "html" := JS.String "typed" ]} ∅ cdx (JS.Bool true) emptyPage ∅).
  - reflexivity.
  - intros area _. apply lookup_empty.
Defined.

Lemma head_app {A} (l1 l2 : list A) :
  head (l1 ++ l2) = match head l1 with Some x => Some x | None => head l2 end.
Proof. by destruct l1. Qed.

Lemma firstSome_named name (cs : list Node) :
  Forall (λ n, firstNamed name n = head (filter (named name) (subtree n))) cs →
  firstSome (firstNamed name) cs
  = head (filter (named name) (cs ≫= subtree)).
Proof.
  induction 1 as [|c cs Hc _ IH]; [done|].
  rewrite bind_cons, filter_app, head_app, <- Hc, <- IH. done.
Qed.

Lemma firstNamed_head name n :
  firstNamed name n = head (filter (named name) (subtree n)).
Proof.
  induction n as [i d|i ln a cs IH] using Node_rect'; [done|].
  simpl. rewrite (firstSome_named name cs IH).
  case_decide as E.
  - by rewrite filter_cons_True.
  - by rewrite filter_cons_False.
Qed.

Lemma querySelector_head name root :
  querySelector name root
  = head (filter (named name) (childNodes root ≫= subtree)).
Proof.
  unfold querySelector. apply firstSome_named, Forall_forall.
  intros n _. apply firstNamed_head.
Qed.

(** X4. [save] reads the first text area among the descendants of the
    element it is given, in document order, and throws a TypeError when
    there is none. *)
Theorem save_first_textarea vals wrapper f root :
  findNode wrapper f = Some root →
  save vals wrapper f
  = match filter (named "textarea") (childNodes root ≫= subtree) with
    | [] => Throws
    | area :: _ => Returns {[ "html" := JS.String (value vals area) ]}
    end.
Proof.
  intros Hw. unfold save. rewrite Hw. simpl. rewrite querySelector_head.
  by destruct (filter _ _).
Qed.

Lemma save_first_textarea_witness :
  save ∅ 1 noScripts = Throws
  ∧ save ∅ 1
      [Element 1 "div" ∅
         [Element 2 "p" ∅ [Element 3 "textarea" ∅ [Text 4 "inner"]];
          Element 5 "textarea" ∅ [Text 6 "outer"]]]
    = Returns {[ "html" := JS.String "inner" ]}.
Proof.
  split.
  - apply (save_first_textarea ∅ 1 noScripts
             (Element 1 "div" ∅ [Element 2 "p" ∅ [Text 3 "hi"]])).
    reflexivity.
  - etrans.
    + apply (save_first_textarea ∅ 1
               [Element 1 "div" ∅
                  [Element 2 "p" ∅ [Element 3 "textarea" ∅ [Text 4 "inner"]];
                   Element 5 "textarea" ∅ [Text 6 "outer"]]]
               (Element 1 "div" ∅
                  [Element 2 "p" ∅ [Element 3 "textarea" ∅ [Text 4 "inner"]];
                   Element 5 "textarea" ∅ [Text 6 "outer"]])).
      reflexivity.
    + vm_compute. reflexivity.
Defined.

End SaveFacts.

(* ------------------------------------------------------------------------- *)
(** ** [resize] *)

Module ResizeFacts.
Import Dom RawTool Form Examples.

(** X5. Once [render()] has set [this.textarea], [resize()] returns, and
    the height it gives the text area is the one the layout asks for with
    the height at [auto]: it does not depend on the height the text area
    had, so that a second [resize()] changes nothing; the height of no
    other element changes. *)
Theorem resize_fits scrollHeight t f vals hs area :
  textarea t = Some area →
  ∃ hs1,
    resize scrollHeight t f vals hs = Returns hs1
    ∧ hs1 !! area
      = Some (pretty (scrollHeight area f vals (<[area := "auto"]> hs))
              +:+ "px")
    ∧ (∀ h, resize scrollHeight t f vals (<[area := h]> hs) = Returns hs1)
    ∧ resize scrollHeight t f vals hs1 = Returns hs1
    ∧ ∀ x, x ≠ area → hs1 !! x = hs !! x.
Proof.
  intros Ht. unfold resize. rewrite Ht. eexists. split; [reflexivity|].
  split; [by rewrite lookup_insert_eq|].
  split; [intros h; by rewrite !insert_insert_eq|].
  split; [by rewrite !insert_insert_eq|].
  intros x Hx. by rewrite !lookup_insert_ne.
Qed.

Lemma resize_fits_witness :
  let tool :=
    (render parseAsScript (constructor ∅ ∅ cdx (JS.Bool false)) emptyPage).1.2 in
  let layout : NodeId → Forest → gmap NodeId string → gmap NodeId string → nat
    := λ _ _ vals _, 20 * S (size vals) in
  ∃ hs1,
    resize layout tool [] ∅ {[ 2 := "900px" ]} = Returns hs1
    ∧ hs1 !! 2 = Some "20px"
    ∧ resize layout tool [] ∅ hs1 = Returns hs1.
Proof.
  intros tool layout.
  destruct (resize_fits layout tool [] ∅ {[ 2 := "900px" ]} 2 eq_refl)
    as (hs1 & H1 & H2 & _ & H3 & _).
  exists hs1. split; [exact H1|]. split; [exact H2|exact H3].
Defined.

End ResizeFacts.

(* ------------------------------------------------------------------------- *)
(** ** Sessions *)

Module SessionFacts.
Import Dom Rehydrate Spec RawTool Form Session Examples DomFacts RenderFacts.

(** What [onInput] does. *)
Lemma onInput_page t p :
  let r := onInput t p in
  textarea r.1 = textarea t
  ∧ readOnly r.1 = readOnly t
  ∧ resizeDebounce r.1 = Some (nextTimer p)
  ∧ timers r.2
    = match resizeDebounce t with
      | Some (S k) => filter (λ tm, timerId tm ≠ S k) (timers p)
      | _ => timers p
      end ++ [{| timerId := nextTimer p; delay := 200; task := Resize |}]
  ∧ nextTimer r.2 = S (nextTimer p)
  ∧ inputListeners r.2 = inputListeners p
  ∧ world r.2 = world p.
Proof.
  intros r. unfold r, onInput, setTimeout, clearTimeout.
  by destruct (resizeDebounce t) as [[|k]|].
Qed.

Lemma pending_Some id p tm :
  pending id p = Some tm → tm ∈ timers p ∧ timerId tm = id.
Proof.
  unfold pending. intros H.
  assert (Hin : tm ∈ filter (λ tm, timerId tm = id) (timers p)).
  { destruct (filter _ _) as [|x l]; [done|]. injection H as ->. left. }
  by apply list_elem_of_filter in Hin as [? ?].
Qed.

Lemma NoDup_fmap_filter {A B} (g : A → B) (P : A → Prop)
    `{∀ x, Decision (P x)} (l : list A) :
  NoDup (g <$> l) → NoDup (g <$> filter P l).
Proof.
  intros Hnd. apply (sublist_NoDup _ (g <$> l)); [done|].
  apply fmap_sublist, sublist_filter.
Qed.

Section Browser.

Variable reflectURL : string → string.
Variable run : Node → Forest → Forest.
Variable parseHTML : NodeId → string → list Node.
Variable scrollHeight :
  NodeId → Forest → gmap NodeId string → gmap NodeId string → nat.

Local Abbreviation step := (Session.step reflectURL run parseHTML scrollHeight).
Local Abbreviation steps := (Session.steps reflectURL run parseHTML scrollHeight).

(** An invariant of the single actions holds along a session, and no
    action of the session throws. *)
Lemma steps_invariant (I : State → Prop) :
  (∀ act s, I s → ∃ s', step act s = Returns s' ∧ I s') →
  ∀ acts s, I s → ∃ s', steps acts s = Returns s' ∧ I s'.
Proof.
  intros Hstep acts. induction acts as [|act acts IH]; intros s Hs.
  - by exists s.
  - simpl. destruct (Hstep act s Hs) as (s1 & -> & H1). by apply IH.
Qed.

Lemma start_timersOk data config api ro p0 :
  timers p0 = [] → inputListeners p0 = [] →
  timersOk (start (constructor data config api ro) p0).
Proof.
  intros Ht Hl. unfold timersOk, start. simpl. rewrite Ht.
  split; [by intros tm ?%elem_of_nil|]. split; [constructor|].
  split; [done|]. split; [by intros tm ?%elem_of_nil|done].
Qed.

Lemma step_timersOk act s :
  timersOk s → ∃ s', step act s = Returns s' ∧ timersOk s'.
Proof.
  intros (Hlt & Hnd & Hdb & Hown & Hnew).
  destruct act as [|area text|id].
  - (* render *)
    eexists. split; [reflexivity|].
    destruct (render_page parseHTML (tool s) (page s))
      as (Ha & Hd & _ & Ht & Hn & _).
    unfold timersOk. cbn [tool page]. rewrite Ha, Hd, Ht, Hn.
    split; [|split; [|split; [|split]]].
    + intros tm [H|H]%elem_of_app; [apply Hlt in H; lia|].
      destruct (JS.truthy _);
        repeat (apply elem_of_cons in H as [->|H]; [simpl; lia|]);
        by apply elem_of_nil in H.
    + rewrite fmap_app. apply NoDup_app. split; [done|]. split.
      * intros x (tm & -> & H)%list_elem_of_fmap Hx. apply Hlt in H.
        destruct (JS.truthy _); simpl in Hx;
          repeat (apply elem_of_cons in Hx as [E|Hx]; [lia|]);
          by apply elem_of_nil in Hx.
      * destruct (JS.truthy _); simpl; repeat constructor;
          rewrite ?elem_of_cons, ?elem_of_nil; lia.
    + intros x Hx. apply Hdb in Hx. lia.
    + intros tm [H|H]%elem_of_app Hx; [by apply Hown|].
      apply Hdb in Hx.
      destruct (JS.truthy _);
        repeat (apply elem_of_cons in H as [->|H]; [simpl in Hx; lia|]);
        by apply elem_of_nil in H.
    + done.
  - (* input *)
    unfold Session.step. case_decide as Hl; eexists; (split; [reflexivity|]);
      [|by unfold timersOk].
    destruct (onInput_page (tool s) (page s))
      as (Ha & _ & Hd & Ht & Hn & Hls & _).
    unfold timersOk. cbn [tool page]. rewrite Ha, Hd, Ht, Hn, Hls.
    assert (Hsub : ∀ tm,
      tm ∈ match resizeDebounce (tool s) with
           | Some (S k) => filter (λ tm, timerId tm ≠ S k) (timers (page s))
           | _ => timers (page s)
           end → tm ∈ timers (page s)).
    { intros tm. destruct (resizeDebounce (tool s)) as [[|k]|]; try done.
      by intros [_ ?]%list_elem_of_filter. }
    split; [|split; [|split; [|split]]].
    + intros tm [H|H]%elem_of_app; [apply Hsub, Hlt in H; lia|].
      apply list_elem_of_singleton in H as ->. simpl. lia.
    + rewrite fmap_app. apply NoDup_app. split; [|split].
      * destruct (resizeDebounce (tool s)) as [[|k]|]; try done.
        by apply NoDup_fmap_filter.
      * intros x (tm & -> & H)%list_elem_of_fmap Hx.
        apply Hsub, Hlt in H. simpl in Hx.
        apply list_elem_of_singleton in Hx. lia.
      * apply NoDup_singleton.
    + intros x [= <-]. lia.
    + intros tm [H|H]%elem_of_app Hx.
      * apply Hsub, Hlt in H. injection Hx as Hx. lia.
      * by apply list_elem_of_singleton in H as ->.
    + intros Hnone. destruct (Hnew Hnone) as [_ He]. rewrite He in Hl.
      by apply elem_of_nil in Hl.
  - (* a timer *)
    unfold Session.step. destruct (pending id (page s)) as [tm|] eqn:Hp;
      [|by exists s].
    apply pending_Some in Hp as [Hin _].
    assert (Hsome : ∃ a, textarea (tool s) = Some a).
    { destruct (textarea (tool s)) as [a|] eqn:E; [by exists a|].
      destruct (Hnew eq_refl) as [He _]. rewrite He in Hin.
      by apply elem_of_nil in Hin. }
    destruct Hsome as [a Ha].
    assert (Hok : ∀ w hs,
      timersOk {| tool := tool s;
                  page := {| world := w;
                             timers := filter (λ t, timerId t ≠ id)
                                         (timers (page s));
                             nextTimer := nextTimer (page s);
                             inputListeners := inputListeners (page s) |};
                  values := values s; heights := hs |}).
    { intros w hs. unfold timersOk. cbn [tool page timers nextTimer].
      split; [|split; [|split; [|split]]].
      - intros x [_ H]%list_elem_of_filter. by apply Hlt.
      - by apply NoDup_fmap_filter.
      - done.
      - intros x [_ H]%list_elem_of_filter. by apply Hown.
      - by rewrite Ha. }
    destruct (task tm).
    + eexists. split; [reflexivity|]. apply Hok.
    + unfold resize. rewrite Ha. eexists. split; [reflexivity|]. apply Hok.
Qed.

Lemma Returns_inj {A} (a b : A) : Returns a = Returns b → a = b.
Proof. by intros [= ->]. Qed.

Lemma step_debounced act s s' :
  timersOk s → debounced s → step act s = Returns s' → debounced s'.
Proof.
  intros (Hlt & Hnd & Hdb & Hown & Hnew) (Hpos & Hid & H200).
  destruct act as [|area text|id]; unfold Session.step.
  - intros <-%Returns_inj.
    destruct (render_page parseHTML (tool s) (page s))
      as (_ & Hd & _ & Ht & Hn & _).
    unfold debounced. cbn [tool page]. rewrite Hd, Ht, Hn.
    split; [lia|]. split; [done|].
    intros tm [H|H]%elem_of_app Hx; [by apply H200|].
    destruct (JS.truthy _);
      repeat (apply elem_of_cons in H as [->|H]; [done|]);
      by apply elem_of_nil in H.
  - case_decide as Hl; intros <-%Returns_inj; [|done].
    destruct (onInput_page (tool s) (page s))
      as (_ & _ & Hd & Ht & Hn & _).
    unfold debounced. cbn [tool page]. rewrite Hd, Ht, Hn.
    split; [lia|]. split; [intros x [= <-]; lia|].
    intros tm [H|H]%elem_of_app Hx.
    + exfalso. destruct (resizeDebounce (tool s)) as [[|k]|] eqn:E.
      * specialize (Hid 0 eq_refl). lia.
      * apply list_elem_of_filter in H as [Hne H].
        specialize (H200 tm H Hx). congruence.
      * by specialize (H200 tm H Hx).
    + by apply list_elem_of_singleton in H as ->.
  - destruct (pending id (page s)) as [tm|]; [|by intros <-%Returns_inj].
    assert (Hok : ∀ w hs,
      debounced {| tool := tool s;
                   page := {| world := w;
                              timers := filter (λ t, timerId t ≠ id)
                                          (timers (page s));
                              nextTimer := nextTimer (page s);
                              inputListeners := inputListeners (page s) |};
                   values := values s; heights := hs |}).
    { intros w hs. unfold debounced. cbn [tool page timers nextTimer].
      split; [done|]. split; [done|].
      intros x [_ H]%list_elem_of_filter. by apply H200. }
    destruct (task tm).
    + intros <-%Returns_inj. apply Hok.
    + destruct (resize _ _ _ _ _); [|done]. intros <-%Returns_inj. apply Hok.
Qed.

Lemma step_editing p0 act s s' :
  editing p0 s → step act s = Returns s' → editing p0 s'.
Proof.
  intros Hed. pose proof Hed as (Hro & Htask & Hex & Htr & ws & Hdom & Hws).
  destruct act as [|area text|id]; unfold Session.step.
  - intros <-%Returns_inj.
    destruct (render_page parseHTML (tool s) (page s))
      as (_ & _ & Hr & Ht & _ & _ & He & Hc).
    destruct (render_dom parseHTML (tool s) (page s))
      as (cls & attrs & Hd & _).
    unfold editing. cbn [tool page]. rewrite Hr, Ht, He, Hc, Hd, Hro.
    split; [done|]. split.
    { intros tm [H|H]%elem_of_app; [by apply Htask|].
      by apply list_elem_of_singleton in H as ->. }
    split; [done|]. split; [done|].
    eexists (ws ++ [_]). rewrite Hdom, <- app_assoc. split; [done|].
    apply Forall_app. split; [done|]. apply Forall_singleton.
    eexists _, _, _, _, _. split; [done|].
    case_decide; repeat constructor.
  - case_decide as Hl; intros <-%Returns_inj; [|exact Hed].
    destruct (onInput_page (tool s) (page s))
      as (_ & Hr & _ & Ht & _ & _ & Hw).
    unfold editing. cbn [tool page]. rewrite Hr, Ht, Hw.
    split; [done|]. split; [|by eauto].
    intros tm [H|H]%elem_of_app.
    + apply Htask. destruct (resizeDebounce (tool s)) as [[|k]|]; try done.
      by apply list_elem_of_filter in H as [_ ?].
    + by apply list_elem_of_singleton in H as ->.
  - destruct (pending id (page s)) as [tm|] eqn:Hp; [|by intros <-%Returns_inj].
    apply pending_Some in Hp as [Hin _]. rewrite (Htask tm Hin).
    destruct (resize _ _ _ _ _); [|done]. intros <-%Returns_inj.
    unfold editing. cbn [tool page clearTimeout world timers].
    split; [done|]. split; [|by eauto].
    intros x [_ H]%list_elem_of_filter. by apply Htask.
Qed.

Lemma step_viewing act s s' :
  viewing s → step act s = Returns s' → viewing s'.
Proof.
  intros Hv. pose proof Hv as (Hro & Hls & Hdb & H100).
  destruct act as [|area text|id]; unfold Session.step.
  - intros <-%Returns_inj.
    destruct (render_page parseHTML (tool s) (page s))
      as (_ & Hd & Hr & Ht & _ & Hl & _).
    unfold viewing. cbn [tool page]. rewrite Hd, Hr, Ht, Hl, Hro, Hls.
    split; [done|]. split; [done|]. split; [done|].
    intros tm [H|H]%elem_of_app; [by apply H100|].
    repeat (apply elem_of_cons in H as [->|H]; [done|]).
    by apply elem_of_nil in H.
  - rewrite Hls. rewrite decide_False by apply not_elem_of_nil.
    by intros <-%Returns_inj.
  - destruct (pending id (page s)) as [tm|]; [|by intros <-%Returns_inj].
    assert (Hok : ∀ w hs,
      viewing {| tool := tool s;
                 page := {| world := w;
                            timers := filter (λ t, timerId t ≠ id)
                                        (timers (page s));
                            nextTimer := nextTimer (page s);
                            inputListeners := inputListeners (page s) |};
                 values := values s; heights := hs |}).
    { intros w hs. unfold viewing. cbn [tool page timers inputListeners].
      split; [done|]. split; [done|]. split; [done|].
      intros x [_ H]%list_elem_of_filter. by apply H100. }
    destruct (task tm).
    + intros <-%Returns_inj. apply Hok.
    + destruct (resize _ _ _ _ _); [|done]. intros <-%Returns_inj. apply Hok.
Qed.

(** Timers with one id between them, no two alike: there is at most one. *)
Lemma one_timer (l : list Timer) id :
  NoDup (timerId <$> l) → Forall (λ tm, timerId tm = id) l → length l ≤ 1.
Proof.
  destruct l as [|a [|b l]]; simpl; [lia|lia|].
  intros Hnd Hall. exfalso. apply NoDup_cons in Hnd as [Hnd _].
  apply Hnd. inversion Hall as [|? ? Ha Hall']. inversion Hall' as [|? ? Hb _].
  rewrite Ha, <- Hb. left.
Qed.

Lemma debounced_count s :
  timersOk s → debounced s →
  length (filter (λ tm, delay tm = 200) (timers (page s))) ≤ 1.
Proof.
  intros (_ & Hnd & _) (_ & _ & H200).
  destruct (filter (λ tm, delay tm = 200) (timers (page s))) as [|a l] eqn:E;
    [simpl; lia|].
  rewrite <- E. apply (one_timer _ (timerId a)).
  - by apply NoDup_fmap_filter.
  - apply Forall_forall. intros tm [Hd Hin]%list_elem_of_filter.
    assert (Ha : a ∈ filter (λ tm, delay tm = 200) (timers (page s)))
      by (rewrite E; left).
    apply list_elem_of_filter in Ha as [Had Hain].
    pose proof (H200 tm Hin Hd) as H1. pose proof (H200 a Hain Had) as H2.
    congruence.
Qed.

(** X6. [resize()] never finds [this.textarea] at [null] when the editor
    and the browser drive the tool. On a page where the tool has set no
    timer and no listener yet, whatever the order of calls of [render()],
    of [input] events and of timers firing, every action of the session
    returns: each timer that calls [resize()] was set after [render()]
    had set the text area. *)
Theorem resize_never_throws acts data config api ro p0 :
  timers p0 = [] → inputListeners p0 = [] →
  ∃ s, steps acts (start (constructor data config api ro) p0) = Returns s.
Proof.
  intros Ht Hl.
  destruct (steps_invariant timersOk step_timersOk acts
              (start (constructor data config api ro) p0))
    as (s & Hs & _); [by apply start_timersOk|].
  by exists s.
Qed.

(** X7. The resize after input is debounced. With timer ids that are
    positive, at any moment of a session at most one timer of 200 ms is
    pending; it is the one whose id the tool holds and it calls
    [resize()]; and an [input] event on a text area of the tool leaves
    exactly one. *)
Theorem input_debounced acts data config api ro p0 :
  0 < nextTimer p0 → timers p0 = [] → inputListeners p0 = [] →
  ∃ s,
    steps acts (start (constructor data config api ro) p0) = Returns s
    ∧ length (filter (λ tm, delay tm = 200) (timers (page s))) ≤ 1
    ∧ (∀ tm, tm ∈ timers (page s) → delay tm = 200 →
         task tm = Resize ∧ resizeDebounce (tool s) = Some (timerId tm))
    ∧ ∀ area text, area ∈ inputListeners (page s) →
        ∃ s', step (Input area text) s = Returns s'
              ∧ length (filter (λ tm, delay tm = 200) (timers (page s')))
                = 1.
Proof.
  intros Hpos Ht Hl.
  destruct (steps_invariant (λ s, timersOk s ∧ debounced s)) with
    (acts := acts) (s := start (constructor data config api ro) p0)
    as (s & Hs & Hok & Hdb).
  { intros act s [Hok Hdb].
    destruct (step_timersOk act s Hok) as (s' & Hs' & Hok').
    exists s'. split; [done|]. split; [done|].
    by apply (step_debounced act s). }
  { split; [by apply start_timersOk|].
    unfold debounced, start. simpl. rewrite Ht.
    split; [done|]. split; [done|]. by intros tm ?%elem_of_nil. }
  exists s. split; [done|]. split; [by apply debounced_count|]. split.
  { intros tm Hin Hd. destruct Hdb as (_ & _ & H200).
    pose proof (H200 tm Hin Hd) as Hx.
    destruct Hok as (_ & _ & _ & Hown & _).
    by destruct (Hown tm Hin Hx). }
  intros area text Ha.
  destruct (step_timersOk (Input area text) s Hok) as (s' & Hs' & Hok').
  exists s'. split; [done|].
  pose proof (step_debounced _ _ _ Hok Hdb Hs') as Hdb'.
  pose proof (debounced_count s' Hok' Hdb') as Hle.
  unfold Session.step in Hs'. rewrite decide_True in Hs' by done.
  apply Returns_inj in Hs' as <-. cbn [page] in Hle |- *.
  destruct (onInput_page (tool s) (page s)) as (_ & _ & _ & Htm & _).
  rewrite Htm in Hle |- *. rewrite filter_app, length_app in Hle |- *.
  rewrite (filter_cons_True _ _ []) in Hle |- * by done.
  simpl in Hle |- *. lia.
Qed.

(** X8. [onInput()] cancels no timer but its own: along a session, an
    [input] event leaves every pending timer of 100 ms, those of
    [render()] for the scripts and for the first resize, pending. *)
Theorem input_keeps_render_timers acts data config api ro p0 area text :
  timers p0 = [] → inputListeners p0 = [] →
  ∃ s s',
    steps acts (start (constructor data config api ro) p0) = Returns s
    ∧ step (Input area text) s = Returns s'
    ∧ ∀ tm, tm ∈ timers (page s) → delay tm = 100 → tm ∈ timers (page s').
Proof.
  intros Ht Hl.
  destruct (steps_invariant timersOk step_timersOk acts
              (start (constructor data config api ro) p0))
    as (s & Hs & Hok); [by apply start_timersOk|].
  destruct (step_timersOk (Input area text) s Hok) as (s' & Hs' & _).
  exists s, s'. split; [done|]. split; [done|].
  intros tm Hin Hd. unfold Session.step in Hs'.
  case_decide; apply Returns_inj in Hs' as <-; [|done]. cbn [page].
  destruct (onInput_page (tool s) (page s)) as (_ & _ & _ & Htm & _).
  rewrite Htm. apply elem_of_app. left.
  destruct (resizeDebounce (tool s)) as [[|k]|] eqn:E; try done.
  apply list_elem_of_filter. split; [|done]. intros Hk.
  destruct Hok as (_ & _ & _ & Hown & _).
  destruct (Hown tm Hin) as [H200 _]; [by rewrite Hk|]. lia.
Qed.

(** X9. An editable tool never runs a script and never builds a node from
    the stored markup: along a session of a tool that is not read-only,
    the browser runs no script, no pass starts, and all the heap gains
    is wrappers that hold a text area with text in it. *)
Theorem editable_runs_no_script acts data config api ro p0 :
  JS.truthy ro = false → timers p0 = [] → inputListeners p0 = [] →
  ∃ s,
    steps acts (start (constructor data config api ro) p0) = Returns s
    ∧ executed (world (page s)) = executed (world p0)
    ∧ trace (world (page s)) = trace (world p0)
    ∧ (∀ tm, tm ∈ timers (page s) → task tm = Resize)
    ∧ ∃ ws, dom (world (page s)) = dom (world p0) ++ ws
            ∧ Forall textOnly ws.
Proof.
  intros Hro Ht Hl.
  destruct (steps_invariant (λ s, timersOk s ∧ editing p0 s)) with
    (acts := acts) (s := start (constructor data config api ro) p0)
    as (s & Hs & _ & (_ & Htask & Hex & Htr & Hws)).
  { intros act s [Hok He].
    destruct (step_timersOk act s Hok) as (s' & Hs' & Hok').
    exists s'. split; [done|]. split; [done|].
    by apply (step_editing p0 act s). }
  { split; [by apply start_timersOk|].
    unfold editing, start. simpl. rewrite Ht.
    split; [done|]. split; [by intros tm ?%elem_of_nil|].
    split; [done|]. split; [done|]. exists []. by rewrite app_nil_r. }
  by exists s.
Qed.

(** X10. A read-only tool never listens for input: along its session no
    [input] listener is attached, [onInput()] never runs, so that an
    [input] event changes neither the tool nor the page, and the only
    timers ever pending are the ones of 100 ms that [render()] sets. *)
Theorem readonly_never_listens acts data config api ro p0 :
  JS.truthy ro = true → timers p0 = [] → inputListeners p0 = [] →
  ∃ s,
    steps acts (start (constructor data config api ro) p0) = Returns s
    ∧ inputListeners (page s) = []
    ∧ resizeDebounce (tool s) = None
    ∧ (∀ tm, tm ∈ timers (page s) → delay tm = 100)
    ∧ ∀ area text,
        ∃ s', step (Input area text) s = Returns s'
              ∧ tool s' = tool s ∧ page s' = page s.
Proof.
  intros Hro Ht Hl.
  destruct (steps_invariant (λ s, timersOk s ∧ viewing s)) with
    (acts := acts) (s := start (constructor data config api ro) p0)
    as (s & Hs & _ & (_ & Hls & Hdb & H100)).
  { intros act s [Hok Hv].
    destruct (step_timersOk act s Hok) as (s' & Hs' & Hok').
    exists s'. split; [done|]. split; [done|].
    by apply (step_viewing act s). }
  { split; [by apply start_timersOk|].
    unfold viewing, start. simpl. rewrite Ht.
    split; [done|]. split; [done|]. split; [done|].
    by intros tm ?%elem_of_nil. }
  exists s. split; [done|]. split; [done|]. split; [done|]. split; [done|].
  intros area text. unfold Session.step. rewrite Hls.
  rewrite decide_False by apply not_elem_of_nil. by eexists.
Qed.

End Browser.

Lemma resize_never_throws_witness :
  ∃ s,
    Session.steps resolve inert parseAsScript (λ _ _ _ _, 40)
      [Render; Input 2 "<p>"; Elapse 2; Input 2 "<p>hi</p>"; Elapse 1;
       Elapse 3]
      (start (constructor ∅ ∅ cdx (JS.Bool false)) emptyPage)
    = Returns s.
Proof.
  apply (resize_never_throws resolve inert parseAsScript (λ _ _ _ _, 40)
           [Render; Input 2 "<p>"; Elapse 2; Input 2 "<p>hi</p>"; Elapse 1;
            Elapse 3]
           ∅ ∅ cdx (JS.Bool false) emptyPage); reflexivity.
Defined.

Lemma input_debounced_witness :
  ∃ s,
    Session.steps resolve inert parseAsScript (λ _ _ _ _, 40)
      [Render; Input 2 "<"; Input 2 "<p"; Input 2 "<p>"]
      (start (constructor ∅ ∅ cdx (JS.Bool false)) emptyPage)
    = Returns s
    ∧ length (filter (λ tm, delay tm = 200) (timers (page s))) ≤ 1.
Proof.
  destruct (input_debounced resolve inert parseAsScript (λ _ _ _ _, 40)
              [Render; Input 2 "<"; Input 2 "<p"; Input 2 "<p>"]
              ∅ ∅ cdx (JS.Bool false) emptyPage)
    as (s & H1 & H2 & _).
  - simpl. lia.
  - reflexivity.
  - reflexivity.
  - exists s. split; [exact H1|exact H2].
Defined.

Lemma input_keeps_render_timers_witness :
  ∃ s s',
    Session.steps resolve inert parseAsScript (λ _ _ _ _, 40)
      [Render; Input 2 "<"]
      (start (constructor ∅ ∅ cdx (JS.Bool false)) emptyPage)
    = Returns s
    ∧ Session.step resolve inert parseAsScript (λ _ _ _ _, 40)
        (Input 2 "<p") s = Returns s'
    ∧ ∀ tm, tm ∈ timers (page s) → delay tm = 100 → tm ∈ timers (page s').
Proof.
  apply (input_keeps_render_timers resolve inert parseAsScript
           (λ _ _ _ _, 40) [Render; Input 2 "<"]
           ∅ ∅ cdx (JS.Bool false) emptyPage 2 "<p"); reflexivity.
Defined.

Lemma editable_runs_no_script_witness :
  ∃ s,
    Session.steps resolve inert parseAsScript (λ _ _ _ _, 40)
      [Render; Elapse 1; Input 2 "alert(2)"; Elapse 2]
      (start (constructor {[ "html" := JS.String "alert(1)" ]} ∅ cdx
                (JS.Bool false)) emptyPage)
    = Returns s
    ∧ executed (world (page s)) = [].
Proof.
  destruct (editable_runs_no_script resolve inert parseAsScript
              (λ _ _ _ _, 40)
              [Render; Elapse 1; Input 2 "alert(2)"; Elapse 2]
              {[ "html" := JS.String "alert(1)" ]} ∅ cdx (JS.Bool false)
              emptyPage)
    as (s & H1 & H2 & _).
  - reflexivity.
  - reflexivity.
  - reflexivity.
  - exists s. split; [exact H1|exact H2].
Defined.

Lemma readonly_never_listens_witness :
  ∃ s,
    Session.steps resolve inert parseAsScript (λ _ _ _ _, 40)
      [Render; Input 2 "typed"; Elapse 1; Elapse 2]
      (start (constructor {[ "html" := JS.String "alert(1)" ]} ∅ cdx
                (JS.Bool true)) emptyPage)
    = Returns s
    ∧ inputListeners (page s) = []
    ∧ resizeDebounce (tool s) = None.
Proof.
  destruct (readonly_never_listens resolve inert parseAsScript
              (λ _ _ _ _, 40)
              [Render; Input 2 "typed"; Elapse 1; Elapse 2]
              {[ "html" := JS.String "alert(1)" ]} ∅ cdx (JS.Bool true)
              emptyPage)
    as (s & H1 & H2 & H3 & _).
  - reflexivity.
  - reflexivity.
  - reflexivity.
  - exists s. split; [exact H1|]. split; [exact H2|exact H3].
Defined.

(** With a timer id of 0, which [onInput()] takes for no timer, the first
    timer is not cancelled by the second [input] event. *)
Lemma debounce_needs_positive_ids :
  let page0 :=
    {| world := fresh []; timers := []; nextTimer := 0;
       inputListeners := [7] |} in
  let r1 := onInput (constructor ∅ ∅ cdx (JS.Bool false)) page0 in
  let r2 := onInput r1.1 r1.2 in
  timers r2.2
  = [{| timerId := 0; delay := 200; task := Resize |};
     {| timerId := 1; delay := 200; task := Resize |}].
Proof. reflexivity. Qed.

(** Called from outside before [render()], [onInput()] sets a timer whose
    [resize()] finds [this.textarea] at [null]. *)
Lemma resize_before_render_throws :
  let tool := constructor ∅ ∅ cdx (JS.Bool false) in
  let r := onInput tool emptyPage in
  Session.step resolve inert parseAsScript (λ _ _ _ _, 40) (Elapse 1)
    {| tool := r.1; page := r.2; values := ∅; heights := ∅ |}
  = Throws.
Proof. reflexivity. Qed.

End SessionFacts.

(* ------------------------------------------------------------------------- *)
(** ** The markup of a container through a pass *)

Module MarkupFacts.
Import Dom Rehydrate Shape Spec Markup Examples.
Import DomFacts BuildFacts PassFacts Completion InertPass.

Lemma markup_plug q x y :
  markup x = markup y → markup (plug q x) = markup (plug q y).
Proof.
  intros H. induction q as [|j ln a l q IH r]; simpl; [done|].
  by rewrite !fmap_app, !fmap_cons, IH.
Qed.

Lemma parsed_plain n : parsedScripts n = true → plainScripts n = true.
Proof.
  induction n as [j d|j ln a cs IH] using Node_rect'; [done|].
  simpl. intros [H1 H2]%andb_prop. apply andb_true_intro. split.
  - destruct (bool_decide (ln = "script")); [|done].
    destruct cs as [|[] []]; try done.
  - rewrite forallb_forall in H2. apply forallb_forall.
    rewrite Forall_forall in IH.
    intros x Hx. apply IH; [by apply list_elem_of_In|]. by apply H2.
Qed.

Lemma parsedScripts_found x n m :
  parsedScripts n = true → findIn x n = Some m → parsedScripts m = true.
Proof.
  revert m. induction n as [j d|j ln a cs IH] using Node_rect';
    intros m Hp Hf; simpl in Hf.
  - case_decide; [|done]. by injection Hf as <-.
  - case_decide; [by injection Hf as <-|].
    apply firstSome_Some in Hf as (c & Hc & Hf).
    rewrite Forall_forall in IH.
    apply (IH c Hc); [|done]. simpl in Hp.
    apply andb_prop in Hp as [_ Hp]. rewrite forallb_forall in Hp.
    apply Hp. by apply list_elem_of_In.
Qed.

(** Putting an element with parsed scripts in the place of an element
    keeps the scripts parsed. *)
Lemma parsedScripts_plug p x y :
  parsedScripts (plug p x) = true → isText x = false → isText y = false →
  parsedScripts y = true → parsedScripts (plug p y) = true.
Proof.
  intros Hp Hx Hy Hpy. induction p as [|j ln a l p IH r]; [done|].
  cbn [plug parsedScripts isScript] in Hp |- *.
  apply andb_prop in Hp as [H1 H2]. rewrite forallb_middle in H2.
  apply andb_prop in H2 as [H2 H4]. apply andb_prop in H2 as [H2 H3].
  rewrite !forallb_middle, H2, H4, IH by done. rewrite andb_true_r.
  destruct (bool_decide (ln = "script")); [|done]. exfalso.
  pose proof (isText_plug p x Hx) as Ht.
  destruct l as [|[] l]; simpl in H1.
  - destruct (plug p x); [done|]. by destruct r.
  - by destruct l.
  - done.
Qed.

Lemma buildReplacement_parsed f on :
  parsedScripts (buildReplacement f on) = true.
Proof.
  rewrite buildReplacement_eq. simpl. case_decide; [done|]. simpl.
  rewrite andb_true_r. by apply bool_decide_eq_true.
Qed.

(** The replacement of a parsed script has the markup of the script. *)
Lemma buildReplacement_markup f on :
  parsedScripts on = true → isScript on = true →
  markup (buildReplacement f on) = markup on.
Proof.
  rewrite buildReplacement_eq.
  destruct on as [j d|j ln a cs]; [done|]. simpl.
  intros [H _]%andb_prop Hs. rewrite Hs in H.
  apply bool_decide_eq_true in Hs as ->.
  destruct cs as [|[i d|] [|]]; try done; simpl.
  apply bool_decide_eq_true in H. rewrite string_app_nil_r.
  by rewrite decide_False.
Qed.

(** A node apart from the child that is replaced is, with its subtree,
    where it was. *)
Lemma replaceChild_apart f old par on new :
  wellFormed f → parentNode old f = Some par → findNode old f = Some on →
  (∀ x, x ∈ ids new → x ∉ forestIds f) →
  ∀ j m, findNode j f = Some m → (∀ x, x ∈ ids m → x ∉ ids on) →
         findNode j (replaceChild par new old f) = Some m.
Proof.
  intros Hwf Hpar Hon Hfresh j m Hm Hdis.
  destruct (swap_shape f old par on Hwf Hpar Hon)
    as (fl & fr & p & ln & a & l & r & -> & Hid & Hswap).
  rewrite Hswap. set (P := extend p (childOf par ln a l r)) in *.
  destruct (findNode_located fl P on fr j m Hwf Hm)
    as [(q & Hq & -> & HX & H)|[Hin|(HX & Hd & H)]].
  - exfalso. apply (Hdis (nodeId on)); [|apply nodeId_in_ids].
    apply in_ids_plug, nodeId_in_ids.
  - exfalso. destruct (findIn_Some _ _ _ Hin) as [Hi Hsub].
    apply (Hdis (nodeId m)); [apply nodeId_in_ids|].
    apply Hsub, nodeId_in_ids.
  - unfold findNode. rewrite firstSome_app.
    fold (findNode j (fl ++ plug P new :: fr)). rewrite H; [done|].
    intros Hj. apply (Hfresh j Hj).
    destruct (findNode_Some _ _ _ Hm) as [Hid' Hsub].
    apply Hsub. rewrite <- Hid'. apply nodeId_in_ids.
Qed.

(** The swap of one script of a container whose scripts are plain, with
    the place of the script in the container: the replacement takes that
    place, and what is apart from the container stays as it is and apart
    from it. *)
Lemma plain_swap_at c f cn done old rest :
  wellFormed f → findNode c f = Some cn → plainScripts cn = true →
  childNodes cn ≫= scriptsOf = done ++ old :: rest →
  ∃ on par q,
    findNode old f = Some on ∧ parentNode old f = Some par
    ∧ isScript on = true ∧ findIn old cn = Some on ∧ cn = plug q on
    ∧ let new := buildReplacement f on in
      let f1 := replaceChild par new old f in
      wellFormed f1
      ∧ findNode (nodeId new) f1 = Some new
      ∧ findNode c f1 = Some (plug q new)
      ∧ plainScripts (plug q new) = true
      ∧ childNodes (plug q new) ≫= scriptsOf = (done ++ [nodeId new]) ++ rest
      ∧ ∀ j m, findNode j f = Some m →
          (∀ x, x ∈ ids m → x ∉ ids (plug q on)) →
          findNode j f1 = Some m ∧ ∀ x, x ∈ ids m → x ∉ ids (plug q new).
Proof.
  intros Hwf Hc Hplain Hqs.
  destruct (plain_swap c f cn done old rest Hwf Hc Hplain Hqs)
    as (on & par & cn1 & Hon & Hpar & Hwf1 & Hnew & Hc1 & Hplain1 & Hqs1 & _).
  cbv zeta in *.
  assert (Hold : old ∈ childNodes cn ≫= scriptsOf).
  { rewrite Hqs, elem_of_app. right. left. }
  destruct (querySelectorAll_found c f cn old Hwf Hc Hold)
    as (on' & Hon' & Honc & Hscript).
  rewrite Hon in Hon'. injection Hon' as <-.
  destruct (replaceChild_facts f old par on (buildReplacement f on)
              Hwf Hpar Hon)
    as (_ & _ & _ & Hcont);
    [apply buildReplacement_NoDup|apply buildReplacement_fresh|].
  destruct (Hcont c cn Hc) as (q & Hq & -> & Hc1').
  { eapply sublist_subseteq; [apply scripts_children_sublist|done]. }
  rewrite Hc1 in Hc1'. injection Hc1' as ->.
  exists on, par, q. repeat (split; [done|]).
  intros j m Hm Hdis. split.
  - apply (replaceChild_apart f old par on); try done.
    + apply buildReplacement_fresh.
    + intros x Hx Hxon. apply (Hdis x Hx). by apply in_ids_plug.
  - intros x Hx. rewrite ids_plug, !elem_of_app. intros [Hb|[Hn|Ha]].
    + apply (Hdis x Hx). rewrite ids_plug, !elem_of_app. auto.
    + apply (buildReplacement_fresh f on x Hn).
      destruct (findNode_Some _ _ _ Hm) as [_ Hsub]. by apply Hsub.
    + apply (Hdis x Hx). rewrite ids_plug, !elem_of_app. auto.
Qed.

(** The swap of one script of a container whose scripts are parsed: the
    container has the replacement where the original was, and its markup
    is what it was. *)
Lemma parsed_swap c f cn done old rest :
  wellFormed f → findNode c f = Some cn → parsedScripts cn = true →
  childNodes cn ≫= scriptsOf = done ++ old :: rest →
  ∃ on par cn1,
    findNode old f = Some on ∧ parentNode old f = Some par
    ∧ let new := buildReplacement f on in
      let f1 := replaceChild par new old f in
      wellFormed f1
      ∧ findNode (nodeId new) f1 = Some new
      ∧ findNode c f1 = Some cn1
      ∧ parsedScripts cn1 = true
      ∧ childNodes cn1 ≫= scriptsOf = (done ++ [nodeId new]) ++ rest
      ∧ markup cn1 = markup cn.
Proof.
  intros Hwf Hc Hparsed Hqs.
  destruct (plain_swap_at c f cn done old rest Hwf Hc
              (parsed_plain _ Hparsed) Hqs)
    as (on & par & q & Hon & Hpar & Hscript & Honc & -> & Hwf1 & Hnew & Hc1
        & _ & Hqs1 & _).
  exists on, par, (plug q (buildReplacement f on)).
  split; [done|]. split; [done|]. cbv zeta.
  split; [done|]. split; [done|]. split; [done|].
  assert (Hpon : parsedScripts on = true) by (by eapply parsedScripts_found).
  split.
  { apply (parsedScripts_plug q on); try done.
    - by destruct on.
    - apply buildReplacement_isText.
    - apply buildReplacement_parsed. }
  split; [done|].
  apply markup_plug. by apply buildReplacement_markup.
Qed.

Section Inert.

Variable reflectURL : string → string.

(** One pass, with its signals, over the remaining scripts of a container
    whose scripts are parsed. *)
Lemma markup_pass c scripts rest k w done cn sigs :
  wellFormed (dom w) → findNode c (dom w) = Some cn →
  parsedScripts cn = true →
  childNodes cn ≫= scriptsOf = done ++ rest →
  drop k scripts = rest → length rest ≤ length sigs →
  ∃ w' cn',
    deliver reflectURL inert sigs (runRest reflectURL inert scripts rest k w)
    = (Done, w')
    ∧ findNode c (dom w') = Some cn'
    ∧ parsedScripts cn' = true
    ∧ markup cn' = markup cn.
Proof.
  revert k w done cn sigs.
  induction rest as [|old rest IH];
    intros k w done cn sigs Hwf Hc Hparsed Hqs Hd Hsigs.
  - exists w, cn. simpl. by rewrite deliver_Done.
  - apply drop_lookup_cons in Hd as [Hi Hd].
    destruct (parsed_swap c (dom w) cn done old rest Hwf Hc Hparsed Hqs)
      as (on & par & cn1 & Hon & Hpar & Hwf1 & Hnew & Hc1 & Hparsed1 & Hqs1
          & Hm).
    set (new := buildReplacement (dom w) on) in *.
    set (f1 := replaceChild par new old (dom w)) in *.
    assert (Hnext : ∀ w3 sigs',
      dom w3 = f1 → length rest ≤ length sigs' →
      ∃ w' cn',
        deliver reflectURL inert sigs'
          (runRest reflectURL inert scripts rest (S k) w3) = (Done, w')
        ∧ findNode c (dom w') = Some cn'
        ∧ parsedScripts cn' = true
        ∧ markup cn' = markup cn).
    { intros w3 sigs' Hdom Hlen.
      assert (Hwf3 : wellFormed (dom w3)) by (by rewrite Hdom).
      assert (Hc3 : findNode c (dom w3) = Some cn1) by (by rewrite Hdom).
      destruct (IH (S k) w3 (done ++ [nodeId new]) cn1 sigs'
                  Hwf3 Hc3 Hparsed1 Hqs1 Hd Hlen)
        as (w' & cn' & Hrun & Hc' & Hp' & Hm').
      exists w', cn'. split; [done|]. split; [done|]. split; [done|].
      by rewrite Hm'. }
    simpl runRest. rewrite Hon, Hpar. fold new. fold f1.
    destruct (truthy (src reflectURL new)) eqn:Esrc.
    + destruct sigs as [|sig sigs]; [simpl in Hsigs; lia|].
      simpl in Hsigs. simpl deliver. unfold fire. simpl.
      unfold runNext. rewrite Hd.
      apply Hnext; [by destruct sig|lia].
    + assert (Hsrc : truthy (srcNow reflectURL new
                               (dom (inserted inert new
                                  (observe (Swapped k old new)
                                     {| dom := f1; trace := trace w;
                                        executed := executed w |}))))
                     = false).
      { unfold srcNow, inserted.
        destruct (attributes new !! "src"); simpl; unfold inert;
          by rewrite Hnew. }
      rewrite Hsrc.
      apply Hnext; [|simpl in Hsigs; lia].
      unfold inserted. by destruct (attributes new !! "src").
Qed.

(** The same pass, seen from outside the container. *)
Lemma frame_pass c scripts rest k w done cn sigs :
  wellFormed (dom w) → findNode c (dom w) = Some cn →
  plainScripts cn = true →
  childNodes cn ≫= scriptsOf = done ++ rest →
  drop k scripts = rest → length rest ≤ length sigs →
  ∃ w',
    deliver reflectURL inert sigs (runRest reflectURL inert scripts rest k w)
    = (Done, w')
    ∧ ∀ j m, findNode j (dom w) = Some m →
        (∀ x, x ∈ ids m → x ∉ ids cn) → findNode j (dom w') = Some m.
Proof.
  revert k w done cn sigs.
  induction rest as [|old rest IH];
    intros k w done cn sigs Hwf Hc Hplain Hqs Hd Hsigs.
  - exists w. simpl. by rewrite deliver_Done.
  - apply drop_lookup_cons in Hd as [Hi Hd].
    destruct (plain_swap_at c (dom w) cn done old rest Hwf Hc Hplain Hqs)
      as (on & par & q & Hon & Hpar & _ & _ & -> & Hwf1 & Hnew & Hc1
          & Hplain1 & Hqs1 & Hframe).
    set (new := buildReplacement (dom w) on) in *.
    set (f1 := replaceChild par new old (dom w)) in *.
    assert (Hnext : ∀ w3 sigs',
      dom w3 = f1 → length rest ≤ length sigs' →
      ∃ w',
        deliver reflectURL inert sigs'
          (runRest reflectURL inert scripts rest (S k) w3) = (Done, w')
        ∧ ∀ j m, findNode j (dom w) = Some m →
            (∀ x, x ∈ ids m → x ∉ ids (plug q on)) →
            findNode j (dom w') = Some m).
    { intros w3 sigs' Hdom Hlen.
      assert (Hwf3 : wellFormed (dom w3)) by (by rewrite Hdom).
      assert (Hc3 : findNode c (dom w3) = Some (plug q new))
        by (by rewrite Hdom).
      destruct (IH (S k) w3 (done ++ [nodeId new]) (plug q new) sigs'
                  Hwf3 Hc3 Hplain1 Hqs1 Hd Hlen)
        as (w' & Hrun & Hrest).
      exists w'. split; [done|]. intros j m Hm Hdis.
      destruct (Hframe j m Hm Hdis) as [Hm1 Hdis1].
      apply Hrest; [by rewrite Hdom|done]. }
    simpl runRest. rewrite Hon, Hpar. fold new. fold f1.
    destruct (truthy (src reflectURL new)) eqn:Esrc.
    + destruct sigs as [|sig sigs]; [simpl in Hsigs; lia|].
      simpl in Hsigs. simpl deliver. unfold fire. simpl.
      unfold runNext. rewrite Hd.
      apply Hnext; [by destruct sig|lia].
    + assert (Hsrc : truthy (srcNow reflectURL new
                               (dom (inserted inert new
                                  (observe (Swapped k old new)
                                     {| dom := f1; trace := trace w;
                                        executed := executed w |}))))
                     = false).
      { unfold srcNow, inserted.
        destruct (attributes new !! "src"); simpl; unfold inert;
          by rewrite Hnew. }
      rewrite Hsrc.
      apply Hnext; [|simpl in Hsigs; lia].
      unfold inserted. by destruct (attributes new !! "src").
Qed.

End Inert.





End MarkupFacts.

(* ------------------------------------------------------------------------- *)
(** ** From [render] to the pass *)

Module ToolFacts.
Import Dom Rehydrate Shape Spec RawTool Form Markup Examples.
Import DomFacts BuildFacts PassFacts Completion RenderFacts.

Lemma findNode_newest (f : Forest) n j :
  j ∉ forestIds f → findNode j (f ++ [n]) = findIn j n.
Proof.
  intros H. unfold findNode. rewrite firstSome_app.
  fold (findNode j f). apply findNode_None in H. rewrite H. simpl.
  by destruct (findIn j n).
Qed.

Lemma above_fresh (f : Forest) j : freshId f ≤ j → j ∉ forestIds f.
Proof. intros Hj H%freshId_gt. lia. Qed.

(** The text area and, in read-only mode, the [div] of the parsed markup,
    as the heap has them after [render]. *)
Lemma render_children parseHTML t p :
  let r := render parseHTML t p in
  (∃ attrs kids,
     findNode (S r.1.1) (dom (world r.2))
     = Some (Element (S r.1.1) "textarea" attrs kids)
     ∧ attrs !! "placeholder" = Some (JS.toString (placeholder t)))
  ∧ (JS.truthy (readOnly t) = true →
     findNode (S (S (S r.1.1))) (dom (world r.2))
     = Some (Element (S (S (S r.1.1))) "div" ∅
               (parseHTML (S (S (S (S r.1.1)))) (JS.toMarkup (html t))))).
Proof.
  intros r.
  destruct (render_dom parseHTML t p) as (cls & attrs & Hd & Hr & Hp).
  fold r in Hd, Hr. rewrite Hd. split.
  - eexists attrs, _. split; [|done].
    rewrite findNode_newest by (apply above_fresh; lia).
    cbn [findIn firstSome]. rewrite decide_False by lia.
    by rewrite decide_True.
  - intros ->.
    rewrite findNode_newest by (apply above_fresh; lia).
    cbn [findIn firstSome]. rewrite !(decide_False (P := _ = r.1.1)) by lia.
    rewrite (decide_False (P := _ = S r.1.1)) by lia.
    case_decide; cbn [findIn firstSome].
    + by rewrite decide_True.
    + rewrite (decide_False (P := _ = S (S r.1.1))) by lia.
      by rewrite decide_True.
Qed.

(** [render] keeps the identities of the heap apart. *)
Lemma render_wellFormed parseHTML t p :
  parserOk parseHTML → wellFormed (dom (world p)) →
  wellFormed (dom (world (render parseHTML t p).2)).
Proof.
  intros Hparser Hwf.
  destruct (render_dom parseHTML t p) as (cls & attrs & Hd & Hr & _).
  set (r := render parseHTML t p) in *. rewrite Hd.
  destruct (Hparser (S (S (S (S r.1.1)))) (JS.toMarkup (html t)))
    as [Hnd Hge].
  unfold wellFormed. rewrite forestIds_app. apply NoDup_app.
  assert (Hids : ∀ x,
    x ∈ forestIds
          [Element r.1.1 "div" cls
             (Element (S r.1.1) "textarea" attrs
                (if decide (JS.toMarkup (html t) = "") then []
                 else [Text (S (S r.1.1)) (JS.toMarkup (html t))])
              :: (if JS.truthy (readOnly t)
                  then [Element (S (S (S r.1.1))) "div" ∅
                          (parseHTML (S (S (S (S r.1.1))))
                             (JS.toMarkup (html t)))]
                  else []))] → r.1.1 ≤ x).
  { intros x. unfold forestIds. simpl. rewrite !app_nil_r.
    rewrite elem_of_cons. intros [->|Hx]; [lia|].
    rewrite elem_of_cons in Hx. destruct Hx as [->|Hx]; [lia|].
    apply elem_of_app in Hx as [Hx|Hx].
    - case_decide; simpl in Hx; [by apply elem_of_nil in Hx|].
      apply list_elem_of_singleton in Hx. lia.
    - destruct (JS.truthy _); simpl in Hx; [|by apply elem_of_nil in Hx].
      rewrite app_nil_r in Hx. apply elem_of_cons in Hx as [->|Hx]; [lia|].
      apply Hge in Hx. lia. }
  split; [done|]. split.
  { intros x Hx%freshId_gt Hin%Hids. lia. }
  unfold forestIds. simpl. rewrite !app_nil_r.
  apply NoDup_cons. split.
  { rewrite elem_of_cons, elem_of_app. intros [?|[Hx|Hx]]; [lia| |].
    - case_decide; simpl in Hx; [by apply elem_of_nil in Hx|].
      apply list_elem_of_singleton in Hx. lia.
    - destruct (JS.truthy _); simpl in Hx; [|by apply elem_of_nil in Hx].
      rewrite app_nil_r in Hx. apply elem_of_cons in Hx as [?|Hx]; [lia|].
      apply Hge in Hx. lia. }
  apply NoDup_cons. split.
  { rewrite elem_of_app. intros [Hx|Hx].
    - case_decide; simpl in Hx; [by apply elem_of_nil in Hx|].
      apply list_elem_of_singleton in Hx. lia.
    - destruct (JS.truthy _); simpl in Hx; [|by apply elem_of_nil in Hx].
      rewrite app_nil_r in Hx. apply elem_of_cons in Hx as [?|Hx]; [lia|].
      apply Hge in Hx. lia. }
  apply NoDup_app. split; [case_decide; simpl; repeat constructor;
                           by intros ?%elem_of_nil|].
  split.
  { intros x Hx Hy.
    assert (x = S (S r.1.1)) as ->.
    { case_decide; simpl in Hx; [by apply elem_of_nil in Hx|].
      by apply list_elem_of_singleton in Hx. }
    destruct (JS.truthy _); simpl in Hy; [|by apply elem_of_nil in Hy].
    rewrite app_nil_r in Hy. apply elem_of_cons in Hy as [?|Hy]; [lia|].
    apply Hge in Hy. lia. }
  destruct (JS.truthy _); simpl; [|constructor].
  rewrite app_nil_r. apply NoDup_cons. split; [|done].
  intros Hx%Hge. lia.
Qed.

(** The timer of line 133 starts the pass. *)
Lemma runTask_pass reflectURL run c p :
  ((runTask reflectURL run (ExecuteScripts c) p).1,
   world (runTask reflectURL run (ExecuteScripts c) p).2)
  = executeScripts reflectURL run c (world p).
Proof.
  unfold runTask. simpl. by destruct (executeScripts reflectURL run c (world p)).
Qed.


Lemma parseAsScript_ok : parserOk parseAsScript.
Proof.
  intros i s. unfold parseAsScript, forestIds. simpl. split.
  - apply NoDup_cons. split; [|apply NoDup_singleton].
    intros ?%list_elem_of_singleton. lia.
  - intros x [->|[->|?%elem_of_nil]%elem_of_cons]%elem_of_cons; [lia|lia|done].
Qed.



End ToolFacts.

(* ------------------------------------------------------------------------- *)
(** ** A script that takes a [src] while it runs *)

Module StallFacts.
Import Dom Rehydrate Spec Markup Examples.
Import DomFacts BuildFacts PassFacts InertPass FaithfulFacts.

Lemma deliver_Stalled reflectURL run sigs w :
  deliver reflectURL run sigs (Stalled, w) = (Stalled, w).
Proof. induction sigs as [|sig sigs IH]; simpl; [done|apply IH]. Qed.

(** X15. The two reads of [newScript.src], lines 197 and 204, can differ.
    When the replacement of an inline script has a [src] that reads
    non-empty once the script has run, the pass stops there without an
    error: the script has been swapped and has run, no handler was
    registered and [runNext(index + 1)] is not called, so that no signal
    makes the pass go on to the scripts that follow. *)
Theorem late_src_stalls reflectURL run scripts k w old on par :
  scripts !! k = Some old → findNode old (dom w) = Some on →
  parentNode old (dom w) = Some par →
  attributes on !! "src" = None →
  let new := buildReplacement (dom w) on in
  let f1 := replaceChild par new old (dom w) in
  truthy (srcNow reflectURL new (run new f1)) = true →
  ∃ w2,
    runNext reflectURL run scripts k w = (Stalled, w2)
    ∧ trace w2 = trace w ++ [Swapped k old new]
    ∧ executed w2 = executed w ++ [new]
    ∧ swappedOut (trace w2) = swappedOut (trace w) ++ [old]
    ∧ ∀ sigs, deliver reflectURL run sigs (Stalled, w2) = (Stalled, w2).
Proof.
  intros Hk Hon Hpar Hsrc new f1 Hlate.
  assert (Ha : attributes new !! "src" = None).
  { unfold new. by rewrite buildReplacement_attributes. }
  rewrite runNext_unfold, Hk, Hon, Hpar. cbv zeta. fold new. fold f1.
  rewrite (src_absent reflectURL new Ha).
  unfold inserted. cbn [observe dom trace executed]. rewrite Ha.
  change (dom (executeScript run new
                 (observe (Swapped k old new)
                    {| dom := f1; trace := trace w;
                       executed := executed w |})))
    with (run new f1).
  rewrite Hlate.
  eexists. split; [reflexivity|]. cbn [executeScript observe trace executed].
  split; [done|]. split; [done|]. split.
  { by rewrite swappedOut_app. }
  intros sigs. apply deliver_Stalled.
Qed.

Lemma late_src_stalls_witness :
  ∃ w2,
    runNext resolve claimSrc [2; 5] 0 (fresh twoInline) = (Stalled, w2)
    ∧ swappedOut (trace w2) = [2]
    ∧ ∀ sigs, deliver resolve claimSrc sigs (Stalled, w2) = (Stalled, w2).
Proof.
  destruct (late_src_stalls resolve claimSrc [2; 5] 0 (fresh twoInline) 2
              (Element 2 "script" {[ "data-x" := "1"; "data-y" := "2" ]}
                 [Text 3 "log.push(1)"]) 1)
    as (w2 & H1 & _ & _ & H2 & H3).
  - reflexivity.
  - reflexivity.
  - reflexivity.
  - reflexivity.
  - vm_compute. reflexivity.
  - exists w2. split; [exact H1|]. split; [exact H2|exact H3].
Defined.

End StallFacts.
